(** * graphql-comments-service: the comment-tree access layer

    A shallow embedding of the two [storage.Storage] implementations
    ([internal/storage/inmemory] and [internal/storage/postgres]) and of the
    GraphQL resolvers that page through them and notify subscribers (as
    functions, and as goroutines that share the registry of subscribers),
    together with the properties the specification states about them. *)

From Stdlib Require Import ZArith String Ascii List Lia.
From Stdlib Require Import Sorting.Sorted Sorting.Permutation.
From stdpp Require Import base option list sorting gmap strings fin_maps.

Local Open Scope string_scope.
Local Open Scope list_scope.
Local Open Scope Z_scope.

(** ** The Go runtime pieces the code relies on *)

(** Go's [int] on the 64-bit targets the service is built for: two's
    complement, addition wraps around. *)
Definition int_max : Z := 2 ^ 63 - 1.
Definition int_min : Z := - 2 ^ 63.

Definition wrap_int (z : Z) : Z := (z + 2 ^ 63) mod 2 ^ 64 - 2 ^ 63.

Definition int_add (a b : Z) : Z := wrap_int (a + b).

(** [len] of a slice. *)
Definition len {A : Type} (s : list A) : Z := Z.of_nat (length s).

(** [len] of a string: its number of bytes (a Rocq [string] is a sequence of
    8-bit characters, as a Go string is a sequence of bytes). *)
Definition strlen (s : string) : Z := Z.of_nat (String.length s).

(** An [error] value carries its message ([errors.New], [fmt.Errorf]). *)
Definition error : Type := string.
Definition errors_New (msg : string) : error := msg.

(** What a call can do: return a value, return an error, or panic at run
    time (a slice expression out of range). *)
Inductive outcome (A : Type) : Type :=
| Ok (a : A)
| Err (e : error)
| Panic.
Arguments Ok {A} a.
Arguments Err {A} e.
Arguments Panic {A}.

(** Sequencing of calls that may fail: the first error or panic ends the
    computation, as [if err != nil { return nil, err }] does. *)
Definition outcome_bind {A B : Type} (m : outcome A) (k : A → outcome B) : outcome B :=
  match m with
  | Ok a => k a
  | Err e => Err e
  | Panic => Panic
  end.

Notation "'let*' x ':=' m 'in' k" := (outcome_bind m (λ x, k))
  (at level 10, x name, m at level 100, k at level 200, only parsing).

(** The slice expression [s[lo:hi]].  Go panics unless
    [0 <= lo <= hi <= cap(s)]; every slice expression of the code has
    [hi <= len(s)] whenever it is in range, so [len] stands for [cap]. *)
Definition slice {A : Type} (s : list A) (lo hi : Z) : outcome (list A) :=
  if (0 <=? lo) && (lo <=? hi) && (hi <=? len s)
  then Ok (take (Z.to_nat (hi - lo)) (drop (Z.to_nat lo) s))
  else Panic.

(** [time.Time] after [.UTC()] (which strips the monotonic reading): the
    nanoseconds of wall clock time since the zero [Time]; [Before] compares
    them. *)
Definition Time : Type := Z.
Definition Before (t u : Time) : bool := t <? u.
Definition After (t u : Time) : bool := u <? t.

(** *** [sort.Slice]

    The library documents [sort.Slice] by its contract only: the result is
    the input reordered so that no element is [less] than one before it, and
    "the sort is not guaranteed to be stable".  The storage code is written
    against that contract, so the development is, too: the properties below
    hold for every sorter that meets it. *)
Class Sorter := {
  sort_Slice : ∀ {A : Type}, (A → A → bool) → list A → list A;
  sort_Slice_perm : ∀ {A : Type} (less : A → A → bool) (s : list A),
    sort_Slice less s ≡ₚ s;
  sort_Slice_sorted : ∀ {A : Type} (less : A → A → bool) (s : list A),
    (∀ x y z, less x y = false → less y z = false → less x z = false) →
    (∀ x y, less x y = true → less y x = false) →
    StronglySorted (λ x y, less y x = false) (sort_Slice less s)
}.

(** What [sort.Slice] runs on a short slice (of at most 12 elements since
    Go 1.19, of at most 6 before), [insertionSort_func]: element [i] is
    swapped towards the front while it is [less] than its left neighbour.
    [insert_back] works on the sorted prefix [data[a:i]] kept in reverse,
    its head being [data[i-1]]. *)
Fixpoint insert_back {A : Type} (less : A → A → bool) (x : A) (rev_prefix : list A)
  : list A :=
  match rev_prefix with
  | [] => [x]
  | y :: r => if less x y then y :: insert_back less x r else x :: y :: r
  end.

Definition insertionSort {A : Type} (less : A → A → bool) (s : list A) : list A :=
  rev (fold_left (λ acc x, insert_back less x acc) s []).

(** *** [range] over a map

    The language leaves the order in which [range] visits a map
    unspecified, and the runtime varies it from one loop to the next: each
    key is visited once.  A loop over a map is written against that
    contract; what is proved of it holds for every order, and nothing is
    proved that compares two loops. *)
Class MapRange := {
  range_values : ∀ {V : Type}, gmap string V → list V;
  range_values_perm : ∀ {V : Type} (m : gmap string V),
    range_values m ≡ₚ (map_to_list m).*2
}.

(** *** [strings.TrimSpace]

    The library function, with the functions of [unicode/utf8] and
    [unicode] it calls.  A string is its bytes; a rune is its code point. *)

Definition byte (c : ascii) : Z := Z.of_N (N_of_ascii c).

Definition RuneSelf : Z := 128.
Definition RuneError : Z := 65533.

(** [asciiSpace]: the bytes ['\t'], ['\n'], ['\v'], ['\f'], ['\r'], [' ']. *)
Definition asciiSpace (c : ascii) : bool :=
  ((9 <=? byte c) && (byte c <=? 13)) || (byte c =? 32).

(** [unicode.IsSpace]: the Latin-1 spaces, and beyond Latin-1 the code
    points of the table [White_Space]. *)
Definition IsSpace (r : Z) : bool :=
  if r <=? 255
  then ((9 <=? r) && (r <=? 13)) || (r =? 32) || (r =? 133) || (r =? 160)
  else (r =? 5760) || ((8192 <=? r) && (r <=? 8202)) || (r =? 8232)
       || (r =? 8233) || (r =? 8239) || (r =? 8287) || (r =? 12288).

(** A continuation byte, [locb <= b <= hicb]. *)
Definition continuation (b : Z) : bool := (128 <=? b) && (b <=? 191).

(** [utf8.DecodeRuneInString]: the first rune of [s] and its width in
    bytes; [(RuneError, 1)] for an encoding that is not valid. *)
Definition DecodeRuneInString (s : list ascii) : Z * nat :=
  match s with
  | [] => (RuneError, 0%nat)
  | c0 :: s1 =>
      let s0 := byte c0 in
      if s0 <? RuneSelf then (s0, 1%nat)
      else if (s0 <? 194) || (244 <? s0) then (RuneError, 1%nat)
      else
        let sz := if s0 <? 224 then 2%nat else if s0 <? 240 then 3%nat else 4%nat in
        let lo := if s0 =? 224 then 160 else if s0 =? 240 then 144 else 128 in
        let hi := if s0 =? 237 then 159 else if s0 =? 244 then 143 else 191 in
        if (length s <? sz)%nat then (RuneError, 1%nat)
        else
          match s1 with
          | [] => (RuneError, 1%nat)
          | c1 :: s2 =>
              let b1 := byte c1 in
              if (b1 <? lo) || (hi <? b1) then (RuneError, 1%nat)
              else if (sz <=? 2)%nat
              then (Z.lor (Z.shiftl (Z.land s0 31) 6) (Z.land b1 63), 2%nat)
              else
                match s2 with
                | [] => (RuneError, 1%nat)
                | c2 :: s3 =>
                    let b2 := byte c2 in
                    if negb (continuation b2) then (RuneError, 1%nat)
                    else if (sz <=? 3)%nat
                    then (Z.lor (Z.lor (Z.shiftl (Z.land s0 15) 12)
                                   (Z.shiftl (Z.land b1 63) 6))
                            (Z.land b2 63), 3%nat)
                    else
                      match s3 with
                      | [] => (RuneError, 1%nat)
                      | c3 :: _ =>
                          let b3 := byte c3 in
                          if negb (continuation b3) then (RuneError, 1%nat)
                          else (Z.lor (Z.lor (Z.lor (Z.shiftl (Z.land s0 7) 18)
                                                 (Z.shiftl (Z.land b1 63) 12))
                                          (Z.shiftl (Z.land b2 63) 6))
                                  (Z.land b3 63), 4%nat)
                      end
                end
          end
  end.

(** [utf8.RuneStart]. *)
Definition RuneStart (c : ascii) : bool := negb (Z.land (byte c) 192 =? 128).

(** The loop of [utf8.DecodeLastRuneInString] that walks [start] back from
    the last byte to a byte that starts a rune, no further than [UTFMax]
    bytes from the end: the value of [end - start] after
    [if start < 0 { start = 0 }].  [before] holds the bytes before
    [s[start]], nearest first, [k] is [end - start] for the head of
    [before], and [steps] bounds the iterations left. *)
Fixpoint rune_start_back (before : list ascii) (k : nat) (steps : nat) : nat :=
  match before with
  | [] => pred k
  | c :: before' =>
      match steps with
      | O => k
      | S steps' => if RuneStart c then k else rune_start_back before' (S k) steps'
      end
  end.

(** [utf8.DecodeLastRuneInString]. *)
Definition DecodeLastRuneInString (s : list ascii) : Z * nat :=
  match rev s with
  | [] => (RuneError, 0%nat)
  | c :: before =>
      if byte c <? RuneSelf then (byte c, 1%nat)
      else
        let start := (length s - rune_start_back before 2 3)%nat in
        let '(r, size) := DecodeRuneInString (drop start s) in
        if (start + size =? length s)%nat then (r, size) else (RuneError, 1%nat)
  end.

(** [indexFunc(s, unicode.IsSpace, false)] and [strings.TrimLeftFunc]: the
    string from its first rune that is not a space. *)
Fixpoint TrimLeftFunc_fuel (fuel : nat) (s : list ascii) : list ascii :=
  match fuel with
  | O => s
  | S fuel' =>
      match s with
      | [] => []
      | _ =>
          let '(r, size) := DecodeRuneInString s in
          if IsSpace r then TrimLeftFunc_fuel fuel' (drop size s) else s
      end
  end.

Definition TrimLeftFunc (s : list ascii) : list ascii :=
  TrimLeftFunc_fuel (length s) s.

(** [lastIndexFunc(s, unicode.IsSpace, false)]: the index of the last rune
    that is not a space, [None] for [-1]. *)
Fixpoint lastIndexFunc_fuel (fuel : nat) (s : list ascii) (i : nat) : option nat :=
  match fuel with
  | O => None
  | S fuel' =>
      match i with
      | O => None
      | _ =>
          let '(r, size) := DecodeLastRuneInString (take i s) in
          let i := (i - size)%nat in
          if IsSpace r then lastIndexFunc_fuel fuel' s i else Some i
      end
  end.

Definition TrimRightFunc (s : list ascii) : list ascii :=
  match lastIndexFunc_fuel (length s) s (length s) with
  | Some i =>
      if RuneSelf <=? byte (nth i s zero)
      then take (i + snd (DecodeRuneInString (drop i s))) s
      else take (S i) s
  | None => []
  end.

Definition TrimFunc (s : list ascii) : list ascii := TrimRightFunc (TrimLeftFunc s).

(** The first loop of [TrimSpace]: [inl] of the string from its first byte
    that is no ASCII space, [inr] of the string from its first byte that is
    not ASCII, if that comes first. *)
Fixpoint trim_ascii_start (s : list ascii) : list ascii + list ascii :=
  match s with
  | [] => inl []
  | c :: s' =>
      if RuneSelf <=? byte c then inr s
      else if asciiSpace c then trim_ascii_start s'
      else inl s
  end.

(** The second loop, on the reversed string. *)
Fixpoint trim_ascii_stop (rev_s : list ascii) : list ascii + list ascii :=
  match rev_s with
  | [] => inl []
  | c :: rev_s' =>
      if RuneSelf <=? byte c then inr (rev rev_s)
      else if asciiSpace c then trim_ascii_stop rev_s'
      else inl (rev rev_s)
  end.

Definition TrimSpace (s : string) : string :=
  string_of_list_ascii
    match trim_ascii_start (list_ascii_of_string s) with
    | inr rest => TrimFunc rest
    | inl rest =>
        match trim_ascii_stop (rev rest) with
        | inr rest' => TrimRightFunc rest'
        | inl rest' => rest'
        end
    end.

(** [strings.Repeat]. *)
Fixpoint Repeat (s : string) (count : nat) : string :=
  match count with
  | O => EmptyString
  | S n => String.append s (Repeat s n)
  end.

(** ** [internal/domain] *)

Module domain.

Module Post.
Record t : Type := mk {
  ID : string;
  Title : string;
  Content : string;
  AuthorID : string;
  CommentsEnabled : bool;
  CreatedAt : Time
}.
End Post.

Module Comment.
Record t : Type := mk {
  ID : string;
  PostID : string;
  ParentID : option string;
  AuthorID : string;
  Content : string;
  CreatedAt : Time
}.
End Comment.

End domain.

Import domain.

(** The comparison both stores hand to the sorter:
    [children[i].CreatedAt.Before(children[j].CreatedAt)]. *)
Definition created_before (a b : Comment.t) : bool :=
  Before (Comment.CreatedAt a) (Comment.CreatedAt b).

(** ** [internal/storage]: pagination arguments and the store contract *)

Module storage.

Record PaginationArgs : Type := mkArgs {
  Limit : Z;
  Cursor : option string
}.

(** The [Storage] interface ([GetPosts], which none of the resolvers
    modelled below calls, is left out).  [uuid.NewString()] (or
    [gen_random_uuid()]) and [time.Now().UTC()] (or [now()]) are inputs of
    the environment: a mutation receives the fresh identifier and the
    current time as arguments. *)
Class Storage (S : Type) := {
  GetPostByID : S → string → outcome Post.t;
  CreatePost : S → Post.t → string → Time → S * outcome Post.t;
  ToggleComments : S → string → bool → S * outcome Post.t;
  CreateComment : S → Comment.t → string → Time → S * outcome Comment.t;
  GetCommentByID : S → string → outcome Comment.t;
  GetCommentsByPostID : S → string → PaginationArgs → outcome (list Comment.t);
  GetCommentsByParentID : S → string → PaginationArgs → outcome (list Comment.t);
  GetCommentsByParentIDs : S → list string → outcome (gmap string (list Comment.t))
}.

End storage.

(** ** [internal/storage/inmemory] *)

Module inmemory.

Import storage.

Record Store : Type := mkStore {
  posts : gmap string Post.t;
  comments : gmap string Comment.t;
  commentsByPost : gmap string (list string);
  commentsByParent : gmap string (list string)
}.

Definition New : Store := mkStore ∅ ∅ ∅ ∅.

Definition CreatePost (s : Store) (post : Post.t) (uuid : string) (now : Time)
  : Store * outcome Post.t :=
  let post := Post.mk uuid (Post.Title post) (Post.Content post)
                (Post.AuthorID post) (Post.CommentsEnabled post) now in
  (mkStore (<[uuid := post]> (posts s)) (comments s)
     (commentsByPost s) (commentsByParent s),
   Ok post).

Definition GetPostByID (s : Store) (id : string) : outcome Post.t :=
  match posts s !! id with
  | None => Err ("post with id " ++ id ++ " not found")%string
  | Some post => Ok post
  end.

Definition ToggleComments (s : Store) (postID : string) (enable : bool)
  : Store * outcome Post.t :=
  match posts s !! postID with
  | None => (s, Err ("post with id " ++ postID ++ " not found")%string)
  | Some post =>
      let post := Post.mk (Post.ID post) (Post.Title post) (Post.Content post)
                    (Post.AuthorID post) enable (Post.CreatedAt post) in
      (mkStore (<[postID := post]> (posts s)) (comments s)
         (commentsByPost s) (commentsByParent s),
       Ok post)
  end.

(** [if comment.ParentID != nil { if _, ok := s.comments[*comment.ParentID]; !ok ... } }] *)
Definition parent_missing (s : Store) (comment : Comment.t) : bool :=
  match Comment.ParentID comment with
  | Some parentID =>
      match comments s !! parentID with
      | Some _ => false
      | None => true
      end
  | None => false
  end.

Definition CreateComment (s : Store) (comment : Comment.t) (uuid : string) (now : Time)
  : Store * outcome Comment.t :=
  match posts s !! Comment.PostID comment with
  | None => (s, Err (errors_New "post not found"))
  | Some post =>
      if negb (Post.CommentsEnabled post)
      then (s, Err (errors_New "comments are disabled for this post"))
      else if 2000 <? strlen (Comment.Content comment)
      then (s, Err (errors_New "comment content is too long"))
      else if String.eqb (TrimSpace (Comment.Content comment)) ""
      then (s, Err (errors_New "comment content cannot be empty"))
      else if parent_missing s comment
      then (s, Err (errors_New "parent comment not found"))
      else
        let comment := Comment.mk uuid (Comment.PostID comment)
                         (Comment.ParentID comment) (Comment.AuthorID comment)
                         (Comment.Content comment) now in
        let comments' := <[uuid := comment]> (comments s) in
        match Comment.ParentID comment with
        | None =>
            let postID := Comment.PostID comment in
            (mkStore (posts s) comments'
               (<[postID := (default [] (commentsByPost s !! postID) ++ [uuid])%list]>
                  (commentsByPost s))
               (commentsByParent s),
             Ok comment)
        | Some parentID =>
            (mkStore (posts s) comments'
               (commentsByPost s)
               (<[parentID := (default [] (commentsByParent s !! parentID) ++ [uuid])%list]>
                  (commentsByParent s)),
             Ok comment)
        end
  end.

Definition GetCommentByID (s : Store) (id : string) : outcome Comment.t :=
  match comments s !! id with
  | None => Err (errors_New "comment not found")
  | Some comment => Ok comment
  end.

(** The loop [for i, c := range allComments] of [paginateComments]: the value
    of [startIndex] when it ends, [i] being the index of the head of [cs]. *)
Fixpoint find_start (cs : list Comment.t) (cursor : string) (i : nat) : Z :=
  match cs with
  | [] => 0
  | c :: cs' =>
      if String.eqb (Comment.ID c) cursor
      then int_add (Z.of_nat i) 1
      else find_start cs' cursor (S i)
  end.

Section WithSorter.
Context `{!Sorter}.

(** The comments an index slice refers to, in creation-time order: the
    first loop and the [sort.Slice] call of [paginateComments] and of
    [GetCommentsByParentIDs]. *)
Definition allComments (s : Store) (ids : list string) : list Comment.t :=
  sort_Slice created_before (omap (λ id, comments s !! id) ids).

Definition paginateComments (s : Store) (ids : list string) (args : PaginationArgs)
  : outcome (list Comment.t) :=
  let all := allComments s ids in
  let startIndex :=
    match Cursor args with
    | Some cursor => find_start all cursor 0
    | None => 0
    end in
  if len all <=? startIndex then Ok []
  else
    let endIndex := int_add startIndex (Limit args) in
    let endIndex := if len all <? endIndex then len all else endIndex in
    slice all startIndex endIndex.

Definition GetCommentsByPostID (s : Store) (postID : string) (args : PaginationArgs)
  : outcome (list Comment.t) :=
  match commentsByPost s !! postID with
  | None => Ok []
  | Some commentIDs => paginateComments s commentIDs args
  end.

Definition GetCommentsByParentID (s : Store) (parentID : string) (args : PaginationArgs)
  : outcome (list Comment.t) :=
  match commentsByParent s !! parentID with
  | None => Ok []
  | Some commentIDs => paginateComments s commentIDs args
  end.

Definition GetCommentsByParentIDs (s : Store) (parentIDs : list string)
  : outcome (gmap string (list Comment.t)) :=
  Ok (fold_left
        (λ results pID,
           let childIDs := default [] (commentsByParent s !! pID) in
           <[pID := allComments s childIDs]> results)
        parentIDs ∅).

(** [GetPosts]: the posts of the map in the order the loop visits them,
    sorted by [CreatedAt.After], then the window [[offset, offset+limit)]. *)
Definition created_after (a b : Post.t) : bool :=
  After (Post.CreatedAt a) (Post.CreatedAt b).

Definition GetPosts `{!MapRange} (s : Store) (limit offset : Z)
  : outcome (list Post.t) :=
  let allPosts := sort_Slice created_after (range_values (posts s)) in
  let start := offset in
  if len allPosts <=? start then Ok []
  else
    let end_ := int_add start limit in
    let end_ := if len allPosts <? end_ then len allPosts else end_ in
    slice allPosts start end_.

#[export] Instance Store_Storage : Storage Store := {
  storage.GetPostByID := GetPostByID;
  storage.GetCommentByID := GetCommentByID;
  storage.CreatePost := CreatePost;
  storage.ToggleComments := ToggleComments;
  storage.CreateComment := CreateComment;
  storage.GetCommentsByPostID := GetCommentsByPostID;
  storage.GetCommentsByParentID := GetCommentsByParentID;
  storage.GetCommentsByParentIDs := GetCommentsByParentIDs
}.

End WithSorter.

End inmemory.

(** ** [internal/storage/postgres]

    The database behind [*gorm.DB] is the state: the rows of the tables
    [posts] and [comments] that [AutoMigrate] creates.  A query is the
    list computation SQL defines for it (WHERE filters, ORDER BY sorts with
    ties in no fixed order, LIMIT truncates); a transaction that returns an
    error leaves the rows as they were.  Of the errors the server raises on
    its own account, [CreatePost] and [CreateComment] return two: a text
    that is no uuid where the column has the type [uuid] (the struct tags
    of [domain.Post] and [domain.Comment] give [id], [post_id] and
    [parent_id] that type), and a primary key that is taken.  A row holds
    its identifiers as texts, a new row those of the draft as they are, and
    the lookups and listings compare identifiers as texts: that is what the
    server does with identifiers in the form in which it writes a uuid.
    Faults of the connection and the length limits of the [varchar] columns
    are not modelled. *)

Module postgres.

Import storage.

Record Store : Type := mkStore {
  posts : list Post.t;
  comments : list Comment.t
}.

Definition is_nil {A : Type} (o : option A) : bool :=
  match o with
  | None => true
  | Some _ => false
  end.

(** *** The server's type [uuid]

    The store hands identifiers to the server as text.  The server reads a
    text as a uuid ([uuid_in]) when it consists of 32 hexadecimal digits,
    in either case, with an optional hyphen after any group of four digits
    and optional braces around the whole; it writes a uuid ([uuid_out]) in
    lower case in groups of 8-4-4-4-12.  Any other text makes the statement
    fail, and gorm hands the driver's error on unchanged. *)

Definition isxdigit (c : ascii) : bool :=
  let b := byte c in
  ((48 <=? b) && (b <=? 57)) || ((97 <=? b) && (b <=? 102))
  || ((65 <=? b) && (b <=? 70)).

Definition tolower (c : ascii) : ascii :=
  let b := byte c in
  if (65 <=? b) && (b <=? 90) then ascii_of_N (Z.to_N (b + 32)) else c.

(** The loop of the server's [string_to_uuid] over the 16 bytes of a uuid:
    [n] bytes are still to be read and [i] have been; a hyphen is skipped
    after a byte of odd index that is not the last.  It returns the digits
    read, in lower case, and the text that is left. *)
Fixpoint string_to_uuid (n i : nat) (src : list ascii)
  : option (list ascii * list ascii) :=
  match n with
  | O => Some ([], src)
  | S n' =>
      match src with
      | hi :: lo :: src' =>
          if isxdigit hi && isxdigit lo
          then
            let src' :=
              match src' with
              | c :: rest =>
                  if Ascii.eqb c "-" && Nat.odd i && (i <? 15)%nat then rest else src'
              | [] => src'
              end in
            match string_to_uuid n' (S i) src' with
            | Some (digits, rest) => Some (tolower hi :: tolower lo :: digits, rest)
            | None => None
            end
          else None
      | _ => None
      end
  end.

Definition uuid_out (digits : list ascii) : string :=
  string_of_list_ascii
    (take 8 digits ++ "-"%char :: take 4 (drop 8 digits)
     ++ "-"%char :: take 4 (drop 12 digits)
     ++ "-"%char :: take 4 (drop 16 digits)
     ++ "-"%char :: drop 20 digits)%list.

(** [uuid_in text]: the uuid the server reads [text] as, in the form the
    server writes it, or nothing when [text] is no uuid. *)
Definition uuid_in (text : string) : option string :=
  let src := list_ascii_of_string text in
  let braces := match src with
                | c :: _ => Ascii.eqb c "{"
                | [] => false
                end in
  match string_to_uuid 16 0 (if braces then drop 1 src else src) with
  | Some (digits, rest) =>
      match rest with
      | [] => if braces then None else Some (uuid_out digits)
      | [c] => if braces && Ascii.eqb c "}" then Some (uuid_out digits) else None
      | _ => None
      end
  | None => None
  end.

(** The driver's error for a text that is no uuid (SQLSTATE 22P02,
    [invalid_text_representation]). *)
Definition invalid_uuid (text : string) : error :=
  let quote := String (ascii_of_nat 34) "" in
  ("ERROR: invalid input syntax for type uuid: " ++ quote ++ text ++ quote
   ++ " (SQLSTATE 22P02)")%string.

Definition duplicate_key : error :=
  "ERROR: duplicate key value violates unique constraint (SQLSTATE 23505)".

(** [First(&post, "id = ?", id)] *)
Definition first_post (s : Store) (id : string) : option Post.t :=
  find (λ p, String.eqb (Post.ID p) id) (posts s).

(** [First(&comment, "id = ?", id)] *)
Definition first_comment (s : Store) (id : string) : option Comment.t :=
  find (λ c, String.eqb (Comment.ID c) id) (comments s).

Definition gorm_ErrRecordNotFound : error := "record not found".

(** [Create(post)]: a column with a default whose field is left at its zero
    value takes the default: [gen_random_uuid()] for [id], [now()] for
    [created_at], and [true] for [comments_enabled], so that a post is
    never created with its comments disabled.  The struct is updated with
    the values the row got.  An identifier the post brings along is read
    as a uuid. *)
Definition CreatePost (s : Store) (post : Post.t) (uuid : string) (now : Time)
  : Store * outcome Post.t :=
  let id := if String.eqb (Post.ID post) "" then uuid else Post.ID post in
  let commentsEnabled := if Post.CommentsEnabled post then Post.CommentsEnabled post
                         else true in
  let createdAt := if Post.CreatedAt post =? 0 then now else Post.CreatedAt post in
  let post := Post.mk id (Post.Title post) (Post.Content post)
                (Post.AuthorID post) commentsEnabled createdAt in
  if negb (String.eqb (Post.ID post) "") && is_nil (uuid_in id)
  then (s, Err (invalid_uuid id))
  else if existsb (λ p, String.eqb (Post.ID p) id) (posts s)
  then (s, Err duplicate_key)
  else (mkStore (posts s ++ [post])%list (comments s), Ok post).

Definition GetPostByID (s : Store) (id : string) : outcome Post.t :=
  match first_post s id with
  | None => Err gorm_ErrRecordNotFound
  | Some post => Ok post
  end.

Definition GetCommentByID (s : Store) (id : string) : outcome Comment.t :=
  match first_comment s id with
  | None => Err gorm_ErrRecordNotFound
  | Some comment => Ok comment
  end.

(** [tx.Save(&post)]: the row with the post's key is replaced. *)
Definition save_post (post : Post.t) (rows : list Post.t) : list Post.t :=
  map (λ p, if String.eqb (Post.ID p) (Post.ID post) then post else p) rows.

Definition ToggleComments (s : Store) (postID : string) (enable : bool)
  : Store * outcome Post.t :=
  match first_post s postID with
  | None => (s, Err gorm_ErrRecordNotFound)
  | Some post =>
      let post := Post.mk (Post.ID post) (Post.Title post) (Post.Content post)
                    (Post.AuthorID post) enable (Post.CreatedAt post) in
      (mkStore (save_post post (posts s)) (comments s), Ok post)
  end.

(** [Model(&domain.Comment{}).Where("id = ?", id).Count(&n)] *)
Definition count_comments (s : Store) (id : string) : Z :=
  len (List.filter (λ c, String.eqb (Comment.ID c) id) (comments s)).

(** [tx.Create(comment)]: the row is the draft with the defaults of [id]
    and [created_at] filled in; an identifier the draft brings along is
    read as a uuid. *)
Definition create_comment (s : Store) (comment : Comment.t) (uuid : string) (now : Time)
  : Store * outcome Comment.t :=
  let id := if String.eqb (Comment.ID comment) "" then uuid else Comment.ID comment in
  let createdAt := if Comment.CreatedAt comment =? 0 then now
                   else Comment.CreatedAt comment in
  let comment := Comment.mk id (Comment.PostID comment)
                   (Comment.ParentID comment) (Comment.AuthorID comment)
                   (Comment.Content comment) createdAt in
  if negb (String.eqb (Comment.ID comment) "") && is_nil (uuid_in id)
  then (s, Err (invalid_uuid id))
  else if existsb (λ c, String.eqb (Comment.ID c) id) (comments s)
  then (s, Err duplicate_key)
  else (mkStore (posts s) (comments s ++ [comment])%list, Ok comment).

Definition CreateComment (s : Store) (comment : Comment.t) (uuid : string) (now : Time)
  : Store * outcome Comment.t :=
  if 2000 <? strlen (Comment.Content comment)
  then (s, Err (errors_New "comment content is too long"))
  else if String.eqb (TrimSpace (Comment.Content comment)) ""
  then (s, Err (errors_New "comment content cannot be empty"))
  else
    match uuid_in (Comment.PostID comment) with
    | None => (s, Err (invalid_uuid (Comment.PostID comment)))
    | Some postID =>
        match first_post s postID with
        | None => (s, Err (errors_New "post not found"))
        | Some post =>
            if negb (Post.CommentsEnabled post)
            then (s, Err (errors_New "comments are disabled for this post"))
            else
              match Comment.ParentID comment with
              | Some parentID =>
                  match uuid_in parentID with
                  | None => (s, Err (invalid_uuid parentID))
                  | Some parentID =>
                      if count_comments s parentID =? 0
                      then (s, Err (errors_New "parent comment not found"))
                      else create_comment s comment uuid now
                  end
              | None => create_comment s comment uuid now
              end
        end
    end.

(** [Limit(n)]: gorm writes [LIMIT n] for [n >= 0] and no clause for a
    negative [n]. *)
Definition sql_limit {A : Type} (n : Z) (rows : list A) : list A :=
  if 0 <=? n then take (Z.to_nat n) rows else rows.

(** The cursor of both listings: when a comment with the cursor's
    identifier is found (in the whole table), the condition
    [created_at > cursorComment.CreatedAt] is added; otherwise none is. *)
Definition after_cursor (s : Store) (cursor : option string) (c : Comment.t) : bool :=
  match cursor with
  | Some id =>
      match first_comment s id with
      | Some cursorComment => Comment.CreatedAt cursorComment <? Comment.CreatedAt c
      | None => true
      end
  | None => true
  end.

Definition option_eqb (o : option string) (id : string) : bool :=
  match o with
  | None => false
  | Some x => String.eqb x id
  end.

(** [ORDER BY parent_id, created_at ASC] *)
Definition parent_then_created (a b : Comment.t) : bool :=
  let pa := default "" (Comment.ParentID a) in
  let pb := default "" (Comment.ParentID b) in
  String.ltb pa pb || (String.eqb pa pb && created_before a b).

Section WithSorter.
Context `{!Sorter}.

Definition GetCommentsByPostID (s : Store) (postID : string) (args : PaginationArgs)
  : outcome (list Comment.t) :=
  Ok (sql_limit (Limit args)
        (sort_Slice created_before
           (List.filter
              (λ c, String.eqb (Comment.PostID c) postID
                    && is_nil (Comment.ParentID c)
                    && after_cursor s (Cursor args) c)
              (comments s)))).

Definition GetCommentsByParentID (s : Store) (parentID : string) (args : PaginationArgs)
  : outcome (list Comment.t) :=
  Ok (sql_limit (Limit args)
        (sort_Slice created_before
           (List.filter
              (λ c, option_eqb (Comment.ParentID c) parentID
                    && after_cursor s (Cursor args) c)
              (comments s)))).

(** The loop [for _, c := range comments] that groups the rows. *)
Definition group_by_parent (rows : list Comment.t) : gmap string (list Comment.t) :=
  fold_left
    (λ result c,
       match Comment.ParentID c with
       | Some parentID =>
           <[parentID := (default [] (result !! parentID) ++ [c])%list]> result
       | None => result
       end)
    rows ∅.

Definition GetCommentsByParentIDs (s : Store) (parentIDs : list string)
  : outcome (gmap string (list Comment.t)) :=
  Ok (group_by_parent
        (sort_Slice parent_then_created
           (List.filter
              (λ c, existsb (option_eqb (Comment.ParentID c)) parentIDs)
              (comments s)))).

(** [Offset(n)]: gorm writes [OFFSET n] for [n > 0] only. *)
Definition sql_offset {A : Type} (n : Z) (rows : list A) : list A :=
  if 0 <? n then drop (Z.to_nat n) rows else rows.

(** [ORDER BY created_at DESC] *)
Definition created_after (a b : Post.t) : bool :=
  After (Post.CreatedAt a) (Post.CreatedAt b).

Definition GetPosts (s : Store) (limit offset : Z) : outcome (list Post.t) :=
  Ok (sql_limit limit (sql_offset offset (sort_Slice created_after (posts s)))).

#[export] Instance Store_Storage : Storage Store := {
  storage.GetPostByID := GetPostByID;
  storage.GetCommentByID := GetCommentByID;
  storage.CreatePost := CreatePost;
  storage.ToggleComments := ToggleComments;
  storage.CreateComment := CreateComment;
  storage.GetCommentsByPostID := GetCommentsByPostID;
  storage.GetCommentsByParentID := GetCommentsByParentID;
  storage.GetCommentsByParentIDs := GetCommentsByParentIDs
}.

End WithSorter.

End postgres.

(** ** [graph]: the resolvers *)

(** Modelled from the spec: the package [graph/model], which gqlgen
    generates and which is not among the sources.  The records follow the
    schema's types [CommentEdge], [PageInfo], [CommentConnection] and
    [NewComment] (the specification's [Page<T> = { items, hasNextPage,
    endCursor }]), under the field names the resolvers use. *)
Module model.

Record CommentEdge : Type := mkEdge {
  Node : Comment.t;
  Cursor : string
}.

Module PageInfo.
Record t : Type := mk {
  HasNextPage : bool;
  EndCursor : option string
}.
End PageInfo.

Record CommentConnection : Type := mkConnection {
  Edges : list CommentEdge;
  PageInfo : PageInfo.t
}.

Record NewComment : Type := mkNewComment {
  PostID : string;
  ParentID : option string;
  AuthorID : string;
  Content : string
}.

Module NewPost.
Record t : Type := mk {
  Title : string;
  Content : string;
  AuthorID : string
}.
End NewPost.

End model.

Module graph.

Import storage model.

(** A subscriber's channel, [make(chan *domain.Comment, 1)]: its capacity
    and the comments buffered in it. *)
Record chan : Type := mkChan {
  cap : nat;
  buf : list Comment.t
}.

(** [select { case ch <- c: default: }]: the send happens when the buffer
    has room and is skipped otherwise. *)
Definition try_send (c : Comment.t) (ch : chan) : chan :=
  if (length (buf ch) <? cap ch)%nat
  then mkChan (cap ch) (buf ch ++ [c])%list
  else ch.

(** [CommentObserver]: [subs] maps a post to its subscribers' channels. *)
Record CommentObserver : Type := mkObserver {
  subs : gmap string (gmap string chan)
}.

Definition NewCommentObserver : CommentObserver := mkObserver ∅.

(** The notification of [CreateComment]: the goroutine's loop over
    [postSubs], run to its end. *)
Definition notify (o : CommentObserver) (c : Comment.t) : CommentObserver :=
  match subs o !! Comment.PostID c with
  | Some postSubs =>
      mkObserver (<[Comment.PostID c := try_send c <$> postSubs]> (subs o))
  | None => o
  end.

Section Resolvers.
Context {S : Type} `{!Storage S}.

(** The tail both listing resolvers share, from [hasNextPage := ...] on. *)
Definition connection (l : Z) (comments : list Comment.t) : outcome CommentConnection :=
  let hasNextPage := l <? len comments in
  let* comments := (if hasNextPage then slice comments 0 l else Ok comments) in
  let edges := (λ c, mkEdge c (Comment.ID c)) <$> comments in
  let endCursor := Cursor <$> last edges in
  Ok (mkConnection edges (PageInfo.mk hasNextPage endCursor)).

Definition wrap_error {A : Type} (msg : string) (m : outcome A) : outcome A :=
  match m with
  | Err e => Err (msg ++ e)%string
  | _ => m
  end.

Definition Children (st : S) (obj : Comment.t) (limit : option Z) (cursor : option string)
  : outcome CommentConnection :=
  let l := default 5 limit in
  let* comments :=
    wrap_error "failed to get children comments: "
      (GetCommentsByParentID st (Comment.ID obj) (mkArgs (int_add l 1) cursor)) in
  connection l comments.

Definition Comments (st : S) (obj : Post.t) (limit : option Z) (cursor : option string)
  : outcome CommentConnection :=
  let l := default 10 limit in
  let* comments :=
    wrap_error "failed to get post comments: "
      (GetCommentsByPostID st (Post.ID obj) (mkArgs (int_add l 1) cursor)) in
  connection l comments.

(** The mutation: the store's [CreateComment], then the notification of the
    post's subscribers.  This is the mutation in the runs in which the
    goroutine that delivers the notification goes to its end before any
    other goroutine touches the registry; [server] below has all runs. *)
Definition CreateComment (st : S) (o : CommentObserver) (input : NewComment)
  (uuid : string) (now : Time) : S * CommentObserver * outcome Comment.t :=
  let comment := Comment.mk "" (PostID input) (ParentID input) (AuthorID input)
                   (Content input) 0 in
  match storage.CreateComment st comment uuid now with
  | (st', Ok newComment) => (st', notify o newComment, Ok newComment)
  | (st', Err e) => (st', o, Err e)
  | (st', Panic) => (st', o, Panic)
  end.

(** The subscription: a channel of capacity 1 registered under a fresh
    subscriber identifier. *)
Definition CommentAdded (st : S) (o : CommentObserver) (postID subID : string)
  : CommentObserver * outcome chan :=
  match GetPostByID st postID with
  | Ok _ =>
      let ch := mkChan 1 [] in
      (mkObserver (<[postID := <[subID := ch]> (default ∅ (subs o !! postID))]> (subs o)),
       Ok ch)
  | _ => (o, Err (errors_New "post not found"))
  end.

(** [commentResolver.Parent] *)
Definition Parent (st : S) (obj : Comment.t) : outcome (option Comment.t) :=
  match Comment.ParentID obj with
  | None => Ok None
  | Some parentID => let* parent := GetCommentByID st parentID in Ok (Some parent)
  end.

(** [mutationResolver.CreatePost] *)
Definition CreatePost (st : S) (input : NewPost.t) (uuid : string) (now : Time)
  : S * outcome Post.t :=
  storage.CreatePost st
    (Post.mk "" (NewPost.Title input) (NewPost.Content input)
       (NewPost.AuthorID input) true 0)
    uuid now.

(** [mutationResolver.ToggleComments] *)
Definition ToggleComments (st : S) (postID : string) (enable : bool)
  : S * outcome Post.t :=
  match GetPostByID st postID with
  | Ok _ => storage.ToggleComments st postID enable
  | Err _ => (st, Err (errors_New "post not found"))
  | Panic => (st, Panic)
  end.

End Resolvers.

(** The goroutine [CommentAdded] starts, from [<-ctx.Done()] on: the
    subscriber is removed, and with the last subscriber the entry of the
    post. *)
Definition cleanup (o : CommentObserver) (postID subID : string) : CommentObserver :=
  match subs o !! postID with
  | Some postSubs =>
      let postSubs := delete subID postSubs in
      if (size postSubs =? 0)%nat
      then mkObserver (delete postID (subs o))
      else mkObserver (<[postID := postSubs]> (subs o))
  | None => o
  end.

End graph.

(** ** [internal/dataloader]: the batch function of [Middleware] *)

Module dataloader.

Import storage.

(** [dataloader.Result]: [Data] holds a slice of comments or is [nil]; an
    absent key of the map reads as the [nil] slice, which stands here with
    the empty one. *)
Record Result : Type := mkResult {
  Data : option (list Comment.t);
  Error : option error
}.

Definition batchFn {S : Type} `{!Storage S} (store : S) (keys : list string)
  : outcome (list Result) :=
  let parentIDs := keys in
  match GetCommentsByParentIDs store parentIDs with
  | Err err => Ok ((λ _, mkResult None (Some err)) <$> keys)
  | Ok commentsMap =>
      Ok ((λ parentID, mkResult (Some (default [] (commentsMap !! parentID))) None)
            <$> parentIDs)
  | Panic => Panic
  end.

End dataloader.

(** ** [graph]: the resolvers as goroutines

    [graph.CreateComment] above is the mutation in the run in which the
    notification goes to its end before anything else touches the
    registry.  The server runs every request in a goroutine of its own, the
    mutation starts one more for the notification ([go func(c) ...]) and a
    subscription one for its cleanup; all of them share the store, which
    guards itself with its own mutex, and the observer: the mutex [mu], the
    map [subs], the maps of the subscribers of each post and the channels.
    Here a step of a goroutine is one access to what is shared, and a run
    is any interleaving of such steps. *)

Module server.

Import storage model graph.

(** Maps and channels are references: [postSubs] in the goroutine of
    [CreateComment] is the very map that [subs] holds for the post.  The
    maps and channels made so far are kept in two lists; an address is a
    position in its list. *)
Abbreviation addr := nat (only parsing).

(** A Go map as the runtime keeps it: the entries and the flag
    [hashWriting], which [mapassign] and [mapdelete] set when they begin
    and clear when they are done.  Maps are not safe for concurrent use:
    [mapaccess], [mapiternext], [mapassign] and [mapdelete] test the flag
    and, finding it set, stop the process ([fatal("concurrent map read and
    map write")], [... iteration and map write], [... map writes]).  So a
    write to a map takes two steps here: the flag is set; the entry is
    written and the flag cleared. *)
Record gomap (V : Type) : Type := mkMap {
  entries : gmap string V;
  writing : bool
}.
Arguments mkMap {V} _ _.
Arguments entries {V} _.
Arguments writing {V} _.

(** [sync.RWMutex]: the number of readers that hold it, and whether a
    writer does. *)
Record RWMutex : Type := mkMutex {
  readers : nat;
  writer : bool
}.

(** A goroutine is the statement it is about to execute, with its local
    variables.  The names are those of the function and of the statement. *)
Inductive goroutine : Type :=
(* mutationResolver.CreateComment, part_000 l.93-123 *)
| CreateComment_store (input : NewComment) (uuid : string) (now : Time)  (* l.94-104 *)
| CreateComment_RLock (newComment : Comment.t)                           (* l.107 *)
| CreateComment_lookup (newComment : Comment.t)                          (* l.108 *)
| CreateComment_go (newComment : Comment.t) (postSubs : addr)            (* l.110 *)
| CreateComment_RUnlock (newComment : Comment.t)                         (* l.120 *)
| CreateComment_return (newComment : Comment.t)                          (* l.122 *)
| CreateComment_returned (r : outcome Comment.t)
(* the goroutine it starts, l.110-118 *)
| notify_range (c : Comment.t) (postSubs : addr)                         (* l.111 *)
| notify_next (c : Comment.t) (postSubs : addr) (keys : list string)     (* l.111 *)
| notify_select (c : Comment.t) (postSubs : addr) (keys : list string) (ch : addr)
                                                                         (* l.112-116 *)
| notify_done
(* subscriptionResolver.CommentAdded, l.183-213 *)
| CommentAdded_store (postID subID : string)                             (* l.185-190 *)
| CommentAdded_Lock (postID subID : string) (ch : addr)                  (* l.192 *)
| CommentAdded_lookup (postID subID : string) (ch : addr)                (* l.193 *)
| CommentAdded_make (postID subID : string) (ch : addr)                  (* l.194 *)
| CommentAdded_make_end (postID subID : string) (ch : addr) (postSubs : addr)
| CommentAdded_index (postID subID : string) (ch : addr)                 (* l.196 *)
| CommentAdded_assign (postID subID : string) (ch : addr) (postSubs : addr)
| CommentAdded_assign_end (postID subID : string) (ch : addr) (postSubs : addr)
| CommentAdded_Unlock (postID subID : string) (ch : addr)                (* l.197 *)
| CommentAdded_go (postID subID : string) (ch : addr)                    (* l.200 *)
| CommentAdded_return (ch : addr)                                        (* l.212 *)
| CommentAdded_returned (r : outcome addr)
(* the goroutine it starts, l.200-210 *)
| cleanup_Done (postID subID : string)                                   (* l.201 *)
| cleanup_Lock (postID subID : string)                                   (* l.202 *)
| cleanup_lookup (postID subID : string)                                 (* l.203 *)
| cleanup_delete (postID subID : string) (postSubs : addr)               (* l.204 *)
| cleanup_delete_end (postID subID : string) (postSubs : addr)
| cleanup_len (postID : string) (postSubs : addr)                        (* l.205 *)
| cleanup_delete_post (postID : string)                                  (* l.206 *)
| cleanup_delete_post_end (postID : string)
| cleanup_Unlock                                                         (* l.209 *)
| cleanup_done.

(** The first key of [keys] that the map still has, with its value: what
    the next step of a [range] produces when [keys] are the keys it has
    not reached yet. *)
Fixpoint next_entry {V : Type} (m : gmap string V) (keys : list string)
  : option (V * list string) :=
  match keys with
  | [] => None
  | k :: keys =>
      match m !! k with
      | Some v => Some (v, keys)
      | None => next_entry m keys
      end
  end.

Section Runs.
Context {S : Type} `{!Storage S} `{!MapRange}.

(** The order in which a [range] that starts now visits the keys. *)
Definition range_keys {V : Type} (m : gmap string V) : list string :=
  range_values (map_imap (λ k _, Some k) m).

(** What the goroutines share, and the goroutines. *)
Record World : Type := mkWorld {
  store : S;
  mu : RWMutex;
  subs : gomap addr;
  maps : list (gomap addr);
  chans : list chan;
  goroutines : list goroutine
}.

Definition set_store (st : S) (w : World) : World :=
  mkWorld st (mu w) (subs w) (maps w) (chans w) (goroutines w).
Definition set_mu (m : RWMutex) (w : World) : World :=
  mkWorld (store w) m (subs w) (maps w) (chans w) (goroutines w).
Definition set_subs (m : gomap addr) (w : World) : World :=
  mkWorld (store w) (mu w) m (maps w) (chans w) (goroutines w).
Definition set_map (a : addr) (m : gomap addr) (w : World) : World :=
  mkWorld (store w) (mu w) (subs w) (<[a := m]> (maps w)) (chans w) (goroutines w).
Definition set_chan (a : addr) (ch : chan) (w : World) : World :=
  mkWorld (store w) (mu w) (subs w) (maps w) (<[a := ch]> (chans w)) (goroutines w).
Definition make_map (w : World) : World :=
  mkWorld (store w) (mu w) (subs w) (maps w ++ [mkMap ∅ false]) (chans w) (goroutines w).
Definition make_chan (capacity : nat) (w : World) : World :=
  mkWorld (store w) (mu w) (subs w) (maps w) (chans w ++ [mkChan capacity []])
    (goroutines w).
(** [go f()]: one more goroutine. *)
Definition go (g : goroutine) (w : World) : World :=
  mkWorld (store w) (mu w) (subs w) (maps w) (chans w) (goroutines w ++ [g]).
(** Goroutine [i] goes on with [g]. *)
Definition goto (i : nat) (g : goroutine) (w : World) : World :=
  mkWorld (store w) (mu w) (subs w) (maps w) (chans w) (<[i := g]> (goroutines w)).

(** What a step leads to: the next world; the end of the process by a fatal
    error of the runtime, raised in the world given; or nothing, when the
    goroutine cannot take a step now (it waits for the mutex, it has come
    to its end, or it holds an address at which nothing was made). *)
Inductive transition : Type :=
| Step (w : World)
| Fatal (msg : string) (w : World)
| Disabled.

Definition Lock (w : World) (next : World → World) : transition :=
  if writer (mu w) || negb (readers (mu w) =? 0)%nat then Disabled
  else Step (next (set_mu (mkMutex (readers (mu w)) true) w)).

Definition Unlock (w : World) : World := set_mu (mkMutex (readers (mu w)) false) w.

Definition RLock (w : World) (next : World → World) : transition :=
  if writer (mu w) then Disabled
  else Step (next (set_mu (mkMutex (Datatypes.S (readers (mu w))) (writer (mu w))) w)).

Definition RUnlock (w : World) : World :=
  set_mu (mkMutex (Nat.pred (readers (mu w))) (writer (mu w))) w.

(** [m[k]], read.  (The runtime answers for an empty map before it looks
    at the flag; so do [delete] and [range].) *)
Definition mapaccess {V : Type} (w : World) (m : gomap V) (k : string)
    (next : option V → World) : transition :=
  if writing m && negb (size (entries m) =? 0)%nat
  then Fatal "concurrent map read and map write" w
  else Step (next (entries m !! k)).

(** The step goroutine [i] takes when it is about to execute [g].  A call
    of the store is one step: the store serialises its callers.  An
    assignment to an entry of a map that is not there panics; the panic
    leaves the resolver with the mutex held. *)
Definition exec (w : World) (i : nat) (g : goroutine) : transition :=
  match g with
  | CreateComment_store input uuid now =>
      let comment := Comment.mk "" (PostID input) (ParentID input) (AuthorID input)
                       (Content input) 0 in
      match storage.CreateComment (store w) comment uuid now with
      | (st, Ok newComment) => Step (goto i (CreateComment_RLock newComment) (set_store st w))
      | (st, Err e) => Step (goto i (CreateComment_returned (Err e)) (set_store st w))
      | (st, Panic) => Step (goto i (CreateComment_returned Panic) (set_store st w))
      end
  | CreateComment_RLock c => RLock w (goto i (CreateComment_lookup c))
  | CreateComment_lookup c =>
      mapaccess w (subs w) (Comment.PostID c)
        (λ found, match found with
                  | Some postSubs => goto i (CreateComment_go c postSubs) w
                  | None => goto i (CreateComment_RUnlock c) w
                  end)
  | CreateComment_go c postSubs =>
      Step (goto i (CreateComment_RUnlock c) (go (notify_range c postSubs) w))
  | CreateComment_RUnlock c => Step (goto i (CreateComment_return c) (RUnlock w))
  | CreateComment_return c => Step (goto i (CreateComment_returned (Ok c)) w)
  | CreateComment_returned _ => Disabled
  | notify_range c postSubs =>
      match maps w !! postSubs with
      | Some m =>
          if (size (entries m) =? 0)%nat then Step (goto i notify_done w)
          else Step (goto i (notify_next c postSubs (range_keys (entries m))) w)
      | None => Disabled
      end
  | notify_next c postSubs keys =>
      match maps w !! postSubs with
      | Some m =>
          if writing m then Fatal "concurrent map iteration and map write" w
          else match next_entry (entries m) keys with
               | Some (ch, keys) => Step (goto i (notify_select c postSubs keys ch) w)
               | None => Step (goto i notify_done w)
               end
      | None => Disabled
      end
  | notify_select c postSubs keys ch =>
      match chans w !! ch with
      | Some q => Step (goto i (notify_next c postSubs keys) (set_chan ch (try_send c q) w))
      | None => Disabled
      end
  | notify_done => Disabled
  | CommentAdded_store postID subID =>
      match GetPostByID (store w) postID with
      | Ok _ => Step (goto i (CommentAdded_Lock postID subID (length (chans w)))
                        (make_chan 1 w))
      | _ => Step (goto i (CommentAdded_returned (Err (errors_New "post not found"))) w)
      end
  | CommentAdded_Lock postID subID ch => Lock w (goto i (CommentAdded_lookup postID subID ch))
  | CommentAdded_lookup postID subID ch =>
      mapaccess w (subs w) postID
        (λ found, match found with
                  | Some _ => goto i (CommentAdded_index postID subID ch) w
                  | None => goto i (CommentAdded_make postID subID ch) w
                  end)
  | CommentAdded_make postID subID ch =>
      if writing (subs w) then Fatal "concurrent map writes" w
      else Step (goto i (CommentAdded_make_end postID subID ch (length (maps w)))
                   (set_subs (mkMap (entries (subs w)) true) (make_map w)))
  | CommentAdded_make_end postID subID ch postSubs =>
      Step (goto i (CommentAdded_index postID subID ch)
              (set_subs (mkMap (<[postID := postSubs]> (entries (subs w))) false) w))
  | CommentAdded_index postID subID ch =>
      mapaccess w (subs w) postID
        (λ found, match found with
                  | Some postSubs => goto i (CommentAdded_assign postID subID ch postSubs) w
                  | None => goto i (CommentAdded_returned Panic) w
                  end)
  | CommentAdded_assign postID subID ch postSubs =>
      match maps w !! postSubs with
      | Some m =>
          if writing m then Fatal "concurrent map writes" w
          else Step (goto i (CommentAdded_assign_end postID subID ch postSubs)
                       (set_map postSubs (mkMap (entries m) true) w))
      | None => Disabled
      end
  | CommentAdded_assign_end postID subID ch postSubs =>
      match maps w !! postSubs with
      | Some m =>
          Step (goto i (CommentAdded_Unlock postID subID ch)
                  (set_map postSubs (mkMap (<[subID := ch]> (entries m)) false) w))
      | None => Disabled
      end
  | CommentAdded_Unlock postID subID ch =>
      Step (goto i (CommentAdded_go postID subID ch) (Unlock w))
  | CommentAdded_go postID subID ch =>
      Step (goto i (CommentAdded_return ch) (go (cleanup_Done postID subID) w))
  | CommentAdded_return ch => Step (goto i (CommentAdded_returned (Ok ch)) w)
  | CommentAdded_returned _ => Disabled
  | cleanup_Done postID subID => Step (goto i (cleanup_Lock postID subID) w)
  | cleanup_Lock postID subID => Lock w (goto i (cleanup_lookup postID subID))
  | cleanup_lookup postID subID =>
      mapaccess w (subs w) postID
        (λ found, match found with
                  | Some postSubs => goto i (cleanup_delete postID subID postSubs) w
                  | None => goto i cleanup_Unlock w
                  end)
  | cleanup_delete postID subID postSubs =>
      match maps w !! postSubs with
      | Some m =>
          if (size (entries m) =? 0)%nat then Step (goto i (cleanup_len postID postSubs) w)
          else if writing m then Fatal "concurrent map writes" w
          else Step (goto i (cleanup_delete_end postID subID postSubs)
                       (set_map postSubs (mkMap (entries m) true) w))
      | None => Disabled
      end
  | cleanup_delete_end postID subID postSubs =>
      match maps w !! postSubs with
      | Some m =>
          Step (goto i (cleanup_len postID postSubs)
                  (set_map postSubs (mkMap (delete subID (entries m)) false) w))
      | None => Disabled
      end
  | cleanup_len postID postSubs =>
      match maps w !! postSubs with
      | Some m =>
          if (size (entries m) =? 0)%nat then Step (goto i (cleanup_delete_post postID) w)
          else Step (goto i cleanup_Unlock w)
      | None => Disabled
      end
  | cleanup_delete_post postID =>
      if (size (entries (subs w)) =? 0)%nat then Step (goto i cleanup_Unlock w)
      else if writing (subs w) then Fatal "concurrent map writes" w
      else Step (goto i (cleanup_delete_post_end postID)
                   (set_subs (mkMap (entries (subs w)) true) w))
  | cleanup_delete_post_end postID =>
      Step (goto i cleanup_Unlock
              (set_subs (mkMap (delete postID (entries (subs w))) false) w))
  | cleanup_Unlock => Step (goto i cleanup_done (Unlock w))
  | cleanup_done => Disabled
  end.

(** What happens next is a step of one of the goroutines, or the transport
    that serves a subscription taking a comment out of its channel. *)
Inductive event : Type :=
| Run (i : nat)
| Receive (ch : addr).

Definition step (w : World) (e : event) : transition :=
  match e with
  | Run i =>
      match goroutines w !! i with
      | Some g => exec w i g
      | None => Disabled
      end
  | Receive ch =>
      match chans w !! ch with
      | Some q =>
          match buf q with
          | _ :: rest => Step (set_chan ch (mkChan (cap q) rest) w)
          | [] => Disabled
          end
      | None => Disabled
      end
  end.

(** A run: the events in the order in which they happen.  A fatal error
    ends it. *)
Fixpoint run (schedule : list event) (w : World) : transition :=
  match schedule with
  | [] => Step w
  | e :: schedule =>
      match step w e with
      | Step w => run schedule w
      | t => t
      end
  end.

(** The server as [main] starts it: a store, the empty observer, and the
    requests that are being served. *)
Definition serve (st : S) (requests : list goroutine) : World :=
  mkWorld st (mkMutex 0 false) (mkMap ∅ false) [] [] requests.

(** The registry as [graph.CommentObserver] has it: each post with the
    channels of its subscribers. *)
Definition observer (w : World) : CommentObserver :=
  mkObserver
    (omap (λ postSubs : addr,
             m ← maps w !! postSubs;
             Some (omap (λ ch : addr, chans w !! ch) (entries m)))
       (entries (subs w))).

End Runs.

Arguments World S : clear implicits.
Arguments transition S : clear implicits.

End server.

(** * What the specification talks about *)

(** ** The failures of [CreateComment]

    The specification names the failures; the code tells them apart by
    their messages. *)

Inductive Failure : Type :=
| PostNotFound
| CommentsDisabled
| InvalidBody
| ParentNotFound.

Definition classify (e : error) : option Failure :=
  if String.eqb e "post not found" then Some PostNotFound
  else if String.eqb e "comments are disabled for this post" then Some CommentsDisabled
  else if String.eqb e "comment content is too long" then Some InvalidBody
  else if String.eqb e "comment content cannot be empty" then Some InvalidBody
  else if String.eqb e "parent comment not found" then Some ParentNotFound
  else None.

(** The body checks of both stores, in the order both make them. *)
Definition body_error (content : string) : option error :=
  if 2000 <? strlen content then Some "comment content is too long"
  else if String.eqb (TrimSpace content) "" then Some "comment content cannot be empty"
  else None.

(** ** The in-memory store: its states *)

Section InMemoryStates.
Import inmemory.

(** The store [CreateComment] leaves behind when every check passes. *)
Definition inserted (s : Store) (comment : Comment.t) (uuid : string) (now : Time)
  : Store * Comment.t :=
  let stored := Comment.mk uuid (Comment.PostID comment) (Comment.ParentID comment)
                  (Comment.AuthorID comment) (Comment.Content comment) now in
  (match Comment.ParentID comment with
   | None =>
       mkStore (posts s) (<[uuid := stored]> (comments s))
         (<[Comment.PostID comment :=
              (default [] (commentsByPost s !! Comment.PostID comment) ++ [uuid])%list]>
            (commentsByPost s))
         (commentsByParent s)
   | Some parentID =>
       mkStore (posts s) (<[uuid := stored]> (comments s))
         (commentsByPost s)
         (<[parentID :=
              (default [] (commentsByParent s !! parentID) ++ [uuid])%list]>
            (commentsByParent s))
   end, stored).

(** The states the store goes through: it starts empty and changes by its
    three mutations only.  [uuid.NewString()] hands [CreateComment] an
    identifier no comment has yet. *)
Inductive reachable : Store → Prop :=
| reachable_New : reachable New
| reachable_CreatePost s post uuid now :
    reachable s → reachable (CreatePost s post uuid now).1
| reachable_ToggleComments s postID enable :
    reachable s → reachable (ToggleComments s postID enable).1
| reachable_CreateComment s comment uuid now :
    reachable s → comments s !! uuid = None →
    reachable (CreateComment s comment uuid now).1.

(** An index slice lists each identifier once, and only identifiers of
    stored comments. *)
Definition index_ok (cs : gmap string Comment.t) (index : gmap string (list string))
  : Prop :=
  ∀ k ids, index !! k = Some ids →
    NoDup ids ∧ ∀ id, id ∈ ids → is_Some (cs !! id).

Record wf (s : Store) : Prop := mkWf {
  wf_post_index : ∀ postID ids,
    commentsByPost s !! postID = Some ids → is_Some (posts s !! postID);
  wf_parent_index : ∀ parentID ids,
    commentsByParent s !! parentID = Some ids → is_Some (comments s !! parentID);
  wf_key : ∀ id c, comments s !! id = Some c → Comment.ID c = id;
  wf_post_ids : index_ok (comments s) (commentsByPost s);
  wf_parent_ids : index_ok (comments s) (commentsByParent s)
}.

End InMemoryStates.

(** ** The Paginator of the specification

    Modelled after the specification's words (section 4.2), to compare the
    resolvers with: given the ordered candidates, an optional cursor and a
    limit, the page holds the next [limit] items strictly after the cursor
    (from the start if there is no cursor, or if the cursor is not among
    the candidates), [hasNextPage] says that more than [limit] items come
    after the cursor, and [endCursor] is the identifier of the last item
    returned. *)

Fixpoint after_id (cursor : string) (ordered : list Comment.t)
  : option (list Comment.t) :=
  match ordered with
  | [] => None
  | c :: rest =>
      if String.eqb (Comment.ID c) cursor then Some rest else after_id cursor rest
  end.

Definition remaining (cursor : option string) (ordered : list Comment.t)
  : list Comment.t :=
  match cursor with
  | None => ordered
  | Some id => default ordered (after_id id ordered)
  end.

Record Page : Type := mkPage {
  items : list Comment.t;
  hasNextPage : bool;
  endCursor : option string
}.

Definition Paginator (ordered : list Comment.t) (cursor : option string) (limit : Z)
  : Page :=
  let rest := remaining cursor ordered in
  let items := take (Z.to_nat limit) rest in
  mkPage items (limit <? len rest) (Comment.ID <$> last items).

(** The connection that carries a page. *)
Definition connection_of (p : Page) : model.CommentConnection :=
  model.mkConnection
    ((λ c, model.mkEdge c (Comment.ID c)) <$> items p)
    (model.PageInfo.mk (hasNextPage p) (endCursor p)).

(** ** Bounds on the inputs

    A [limit] argument is a GraphQL [Int] (the schema declares
    [limit: Int = 10] and [limit: Int = 5]), a signed 32-bit value; and no
    slice of a 64-bit Go program has more than [2^48] elements (the
    runtime's [maxAlloc]).  Within these bounds the additions
    [l + 1] and [startIndex + args.Limit] do not wrap around. *)
Definition GraphQLInt (z : Z) : Prop := - 2 ^ 31 ≤ z < 2 ^ 31.

Definition fits_memory {A : Type} (s : list A) : Prop := len s ≤ 2 ^ 48.

(** ** The in-memory store: the sibling lists *)

Section InMemorySiblings.
Import inmemory.
Context `{!Sorter}.

(** The full ordered sibling lists: the root comments of a post and the
    children of a comment. *)
Definition root_comments (s : Store) (postID : string) : list Comment.t :=
  allComments s (default [] (commentsByPost s !! postID)).

Definition child_comments (s : Store) (parentID : string) : list Comment.t :=
  allComments s (default [] (commentsByParent s !! parentID)).

End InMemorySiblings.

(** ** Orders on comments *)

(** Ascending by creation time. *)
Definition created_le (a b : Comment.t) : Prop :=
  Comment.CreatedAt a ≤ Comment.CreatedAt b.

(** Ascending by creation time, ties broken by identifier. *)
Definition created_then_id (a b : Comment.t) : Prop :=
  Comment.CreatedAt a < Comment.CreatedAt b
  ∨ (Comment.CreatedAt a = Comment.CreatedAt b
     ∧ String.leb (Comment.ID a) (Comment.ID b) = true).

(** The failure a call ended with, if any. *)
Definition failure {A : Type} (r : outcome A) : option Failure :=
  match r with
  | Err e => classify e
  | _ => None
  end.

(** ** Example states *)

Module examples.

(** Identifiers as [uuid.NewString()] and [gen_random_uuid()] draw them,
    and instants of one afternoon. *)
Definition P : string := "5c0fd6d4-6b8e-4a55-9d0c-3f7a2b1e9c01".
Definition Q : string := "0e7a91b3-2c4d-4f6e-8a1b-5d3c7e9f2a02".
Definition id_a : string := "a1f0c2d3-4e5b-4a6c-8d7e-9f0a1b2c3d4e".
Definition id_b : string := "b7e6d5c4-3b2a-4f1e-9d8c-7b6a5f4e3d2c".
Definition id_r : string := "c4d3e2f1-0a9b-4c8d-8e7f-6a5b4c3d2e1f".
Definition id_c1 : string := "1d2e3f4a-5b6c-4d7e-8f9a-0b1c2d3e4f5a".
Definition id_c2 : string := "2e3f4a5b-6c7d-4e8f-9a0b-1c2d3e4f5a6b".
Definition id_x : string := "9f8e7d6c-5b4a-4392-8171-605f4e3d2c1b".
Definition unknown : string := "ffffffff-ffff-4fff-8fff-ffffffffffff".
Definition sub_1 : string := "6a5b4c3d-2e1f-4a0b-9c8d-7e6f5a4b3c2d".
Definition sub_2 : string := "3c2d1e0f-9a8b-4c7d-8e6f-5a4b3c2d1e0f".

Definition noon : Time := 63897595200000000000.

Definition test_post : Post.t := Post.mk "" "Test Post" "Content" "user-1" true 0.
Definition post_P : Post.t := Post.mk P "Test Post" "Content" "user-1" true noon.

Definition draft (postID : string) (parentID : option string) (content : string)
  : Comment.t :=
  Comment.mk "" postID parentID "user-2" content 0.

(** The in-memory store with one post. *)
Definition one_post : inmemory.Store :=
  (inmemory.CreatePost inmemory.New test_post P noon).1.

(** Two root comments created at the same instant; the identifier drawn
    first is the greater one. *)
Definition same_instant : inmemory.Store :=
  let s := (inmemory.CreateComment one_post (draft P None "first") id_b (noon + 20)).1 in
  (inmemory.CreateComment s (draft P None "second") id_a (noon + 20)).1.

Definition first_comment : Comment.t :=
  Comment.mk id_b P None "user-2" "first" (noon + 20).
Definition second_comment : Comment.t :=
  Comment.mk id_a P None "user-2" "second" (noon + 20).

(** A root comment with one reply. *)
Definition with_reply : inmemory.Store :=
  let s := (inmemory.CreateComment one_post (draft P None "first") id_b (noon + 20)).1 in
  (inmemory.CreateComment s (draft P (Some id_b) "reply") id_r (noon + 30)).1.

(** A body of 2001 bytes, all but the first of them blanks. *)
Definition padded_body : string := String.append "a" (Repeat " " 2000).

(** The database with no rows. *)
Definition pg_empty : postgres.Store := postgres.mkStore [] [].

(** A database with two posts: [P] has the root comments [c1] and [c2],
    [Q] has the root comment [x], created between them. *)
Definition pg_two_posts : postgres.Store :=
  let s := (postgres.CreatePost pg_empty test_post P noon).1 in
  let s := (postgres.CreatePost s test_post Q (noon + 1)).1 in
  let s := (postgres.CreateComment s (draft P None "one") id_c1 (noon + 100)).1 in
  let s := (postgres.CreateComment s (draft Q None "other") id_x (noon + 150)).1 in
  (postgres.CreateComment s (draft P None "two") id_c2 (noon + 200)).1.

Definition pg_c1 : Comment.t := Comment.mk id_c1 P None "user-2" "one" (noon + 100).
Definition pg_c2 : Comment.t := Comment.mk id_c2 P None "user-2" "two" (noon + 200).

(** A subscriber of [P] whose channel is full, and one with room. *)
Definition busy_observer : graph.CommentObserver :=
  graph.mkObserver
    {[ P := {[ sub_1 := graph.mkChan 1 [first_comment];
               sub_2 := graph.mkChan 1 [] ]} ]}.

(** The server with one subscription to [P] being made (goroutine 2), a
    comment on [P] being created (goroutine 0), and one more subscription
    to [P] being made (goroutine 1). *)
Definition subscribing : server.World inmemory.Store :=
  server.serve one_post
    [server.CreateComment_store (model.mkNewComment P None "user-2" "first") id_b
       (noon + 20);
     server.CommentAdded_store P sub_2;
     server.CommentAdded_store P sub_1].

(** That server once the first subscription is made. *)
Definition subscribed : server.World inmemory.Store :=
  server.mkWorld one_post (server.mkMutex 0 false)
    (server.mkMap {[ P := 0%nat ]} false)
    [server.mkMap {[ sub_1 := 0%nat ]} false]
    [graph.mkChan 1 []]
    [server.CreateComment_store (model.mkNewComment P None "user-2" "first") id_b
       (noon + 20);
     server.CommentAdded_store P sub_2;
     server.CommentAdded_returned (Ok 0%nat);
     server.cleanup_Done P sub_1].

(** And once the mutation has returned, too: the notification (goroutine 4)
    is about to begin. *)
Definition announcing : server.World inmemory.Store :=
  server.mkWorld
    (inmemory.CreateComment one_post (draft P None "first") id_b (noon + 20)).1
    (server.mkMutex 0 false)
    (server.mkMap {[ P := 0%nat ]} false)
    [server.mkMap {[ sub_1 := 0%nat ]} false]
    [graph.mkChan 1 []]
    [server.CreateComment_returned (Ok first_comment);
     server.CommentAdded_store P sub_2;
     server.CommentAdded_returned (Ok 0%nat);
     server.cleanup_Done P sub_1;
     server.notify_range first_comment 0%nat].

End examples.

(** ** Further notions: integrity of the in-memory store, walking pages *)

Section InMemoryIntegrity.
Import inmemory.

(** What the maps of the store say of one another: a post is stored under
    its identifier; a stored comment names a stored post and, if any, a
    stored parent, and has a body that passed the checks; a comment
    without parent is listed in the index slice of its post and a reply in
    that of its parent, and the index slices list nothing else. *)
Record consistent (s : Store) : Prop := mkConsistent {
  posts_keyed : ∀ id post, posts s !! id = Some post → Post.ID post = id;
  comment_post : ∀ id c,
    comments s !! id = Some c → is_Some (posts s !! Comment.PostID c);
  comment_parent : ∀ id c parentID,
    comments s !! id = Some c → Comment.ParentID c = Some parentID →
    is_Some (comments s !! parentID);
  comment_body : ∀ id c,
    comments s !! id = Some c → body_error (Comment.Content c) = None;
  root_indexed : ∀ id c,
    comments s !! id = Some c → Comment.ParentID c = None →
    ∃ ids, commentsByPost s !! Comment.PostID c = Some ids ∧ id ∈ ids;
  child_indexed : ∀ id c parentID,
    comments s !! id = Some c → Comment.ParentID c = Some parentID →
    ∃ ids, commentsByParent s !! parentID = Some ids ∧ id ∈ ids;
  post_index_sound : ∀ postID ids id,
    commentsByPost s !! postID = Some ids → id ∈ ids →
    ∃ c, comments s !! id = Some c
         ∧ Comment.PostID c = postID ∧ Comment.ParentID c = None;
  parent_index_sound : ∀ parentID ids id,
    commentsByParent s !! parentID = Some ids → id ∈ ids →
    ∃ c, comments s !! id = Some c ∧ Comment.ParentID c = Some parentID
}.

End InMemoryIntegrity.

(** A client that reads a whole listing page by page: it asks for a page,
    and while [hasNextPage] is set asks again with the [endCursor] it was
    given.  [fuel] bounds the number of requests. *)
Fixpoint walk_pages (fuel : nat)
    (fetch : option string → outcome model.CommentConnection)
    (cursor : option string) : outcome (list Comment.t) :=
  match fuel with
  | O => Err "too many pages"
  | S fuel' =>
      let* page := fetch cursor in
      let nodes := model.Node <$> model.Edges page in
      if model.PageInfo.HasNextPage (model.PageInfo page)
      then let* rest := walk_pages fuel' fetch
                          (model.PageInfo.EndCursor (model.PageInfo page)) in
           Ok (nodes ++ rest)
      else Ok nodes
  end.

(** Descending by creation time. *)
Definition created_ge (a b : Post.t) : Prop :=
  Post.CreatedAt b ≤ Post.CreatedAt a.

(** A registry keeps no post without subscribers, and no channel holds
    more than its capacity. *)
Definition registry_ok (o : graph.CommentObserver) : Prop :=
  ∀ postID postSubs, graph.subs o !! postID = Some postSubs →
    postSubs ≠ ∅
    ∧ ∀ subID ch, postSubs !! subID = Some ch →
        (length (graph.buf ch) ≤ graph.cap ch)%nat.

(** ** Further notions: runs of the server *)

Section ServerNotions.
Import storage model graph server.
Context {S : Type}.

(** The goroutines of the mutation and of its notification. *)
Definition notifies (g : goroutine) : bool :=
  match g with
  | CreateComment_store _ _ _ | CreateComment_RLock _ | CreateComment_lookup _
  | CreateComment_go _ _ | CreateComment_RUnlock _ | CreateComment_return _
  | CreateComment_returned _
  | notify_range _ _ | notify_next _ _ _ | notify_select _ _ _ _ | notify_done => true
  | _ => false
  end.

(** A world in which no subscription is being made or cleaned up: nobody
    holds the mutex for writing, no map is being written, and all
    goroutines are mutations and their notifications. *)
Record quiet (w : World S) : Prop := mkQuiet {
  quiet_mu : writer (mu w) = false;
  quiet_subs : writing (subs w) = false;
  quiet_maps : Forall (λ m, writing m = false) (maps w);
  quiet_goroutines : Forall (λ g, notifies g = true) (goroutines w)
}.

(** The run in which a subscription arrives while a comment is being
    announced.  Goroutine 0 is the mutation, goroutine 1 the subscription
    and [n] the one the mutation starts: the subscription looks for the
    post; the mutation stores the comment, finds subscribers under the
    read lock, starts the notification and releases the lock; the
    notification begins its [range]; the subscription takes the lock and
    begins to write its channel into the map of the post; the [range]
    takes its next step. *)
Definition race (n : nat) : list event :=
  [Run 1; Run 0; Run 0; Run 0; Run 0; Run 0; Run n; Run 1; Run 1; Run 1; Run 1; Run n]%nat.

(** The registry as [CommentAdded] builds it: the map of a post and the
    channel of a subscriber exist, every post has a map of its own and
    every subscriber a channel of its own. *)
Record sound (w : World S) : Prop := mkSound {
  sound_map : ∀ postID postSubs,
    entries (subs w) !! postID = Some postSubs → is_Some (maps w !! postSubs);
  sound_own_map : ∀ postID1 postID2 postSubs,
    entries (subs w) !! postID1 = Some postSubs →
    entries (subs w) !! postID2 = Some postSubs → postID1 = postID2;
  sound_chan : ∀ postSubs m sub ch,
    maps w !! postSubs = Some m → entries m !! sub = Some ch →
    is_Some (chans w !! ch);
  sound_own_chan : ∀ postSubs1 m1 sub1 postSubs2 m2 sub2 ch,
    maps w !! postSubs1 = Some m1 → entries m1 !! sub1 = Some ch →
    maps w !! postSubs2 = Some m2 → entries m2 !! sub2 = Some ch →
    postSubs1 = postSubs2 ∧ sub1 = sub2
}.

(** The statements of the mutation before its return. *)
Definition in_CreateComment (g : goroutine) : bool :=
  match g with
  | CreateComment_store _ _ _ | CreateComment_RLock _ | CreateComment_lookup _
  | CreateComment_go _ _ | CreateComment_RUnlock _ | CreateComment_return _ => true
  | _ => false
  end.

(** The channels after [c] was offered on those of [keys], one after the
    other. *)
Fixpoint offered (c : Comment.t) (m : gmap string addr) (keys : list string)
    (q : list chan) : list chan :=
  match keys with
  | [] => q
  | k :: keys =>
      match m !! k ≫= λ ch, (ch,.) <$> q !! ch with
      | Some (ch, x) => offered c m keys (<[ch := try_send c x]> q)
      | None => offered c m keys q
      end
  end.

End ServerNotions.

(** * Properties *)

(** ** Go integers and slices *)

Lemma wrap_int_id (z : Z) : int_min ≤ z ≤ int_max → wrap_int z = z.
Proof.
  unfold int_min, int_max, wrap_int. intros Hz.
  rewrite Z.mod_small; lia.
Qed.

Lemma len_nonneg {A : Type} (s : list A) : 0 ≤ len s.
Proof. unfold len. lia. Qed.

Lemma slice_in_range {A : Type} (s : list A) (lo hi : Z) :
  0 ≤ lo → lo ≤ hi → hi ≤ len s →
  slice s lo hi = Ok (take (Z.to_nat (hi - lo)) (drop (Z.to_nat lo) s)).
Proof.
  intros H1 H2 H3. unfold slice.
  rewrite (proj2 (Z.leb_le 0 lo) H1), (proj2 (Z.leb_le lo hi) H2),
    (proj2 (Z.leb_le hi (len s)) H3).
  reflexivity.
Qed.

Lemma slice_negative {A : Type} (s : list A) (hi : Z) :
  hi < 0 → slice s 0 hi = Panic.
Proof.
  intros Hhi. unfold slice.
  rewrite (proj2 (Z.leb_gt 0 hi) Hhi). reflexivity.
Qed.

(** ** The insertion sort meets the contract of [sort.Slice] *)

Section InsertionSort.
Context {A : Type} (less : A → A → bool).

Lemma insert_back_perm (x : A) (l : list A) : insert_back less x l ≡ₚ x :: l.
Proof.
  induction l as [|y l IH]; simpl; [done|].
  destruct (less x y); [|done].
  rewrite IH. apply Permutation_swap.
Qed.

Lemma fold_insert_back_perm (s acc : list A) :
  fold_left (λ acc x, insert_back less x acc) s acc ≡ₚ s ++ acc.
Proof.
  revert acc. induction s as [|x s IH]; intros acc; simpl; [done|].
  rewrite IH, insert_back_perm. by rewrite Permutation_middle.
Qed.

Lemma insertionSort_perm (s : list A) : insertionSort less s ≡ₚ s.
Proof.
  unfold insertionSort. rewrite <- Permutation_rev.
  rewrite fold_insert_back_perm. by rewrite app_nil_r.
Qed.

Hypothesis less_negtrans :
  ∀ x y z, less x y = false → less y z = false → less x z = false.
Hypothesis less_asym : ∀ x y, less x y = true → less y x = false.

(** The reversed prefix is kept in descending order. *)
Lemma insert_back_desc (x : A) (l : list A) :
  StronglySorted (λ a b, less a b = false) l →
  StronglySorted (λ a b, less a b = false) (insert_back less x l).
Proof.
  induction l as [|y l IH]; simpl; intros Hl.
  - repeat constructor.
  - apply StronglySorted_inv in Hl as [Hl Hy].
    destruct (less x y) eqn:Hxy.
    + constructor; [by apply IH|].
      rewrite insert_back_perm. constructor; [by apply less_asym|done].
    + constructor; [by constructor|].
      constructor; [done|].
      eapply Forall_impl; [exact Hy|]. intros z Hz. simpl in Hz. eauto.
Qed.

Lemma fold_insert_back_desc (s acc : list A) :
  StronglySorted (λ a b, less a b = false) acc →
  StronglySorted (λ a b, less a b = false)
    (fold_left (λ acc x, insert_back less x acc) s acc).
Proof.
  revert acc. induction s as [|x s IH]; intros acc Hacc; simpl; [done|].
  by apply IH, insert_back_desc.
Qed.

Lemma StronglySorted_rev_flip (R : A → A → Prop) (l : list A) :
  StronglySorted R l → StronglySorted (λ a b, R b a) (rev l).
Proof.
  induction 1 as [|x l Hl IH Hx]; simpl; [constructor|].
  apply StronglySorted_app; split_and!.
  - intros a b Ha Hb. apply list_elem_of_singleton in Hb as ->.
    rewrite Forall_forall in Hx. apply Hx.
    apply list_elem_of_In, in_rev in Ha. by apply list_elem_of_In.
  - done.
  - repeat constructor.
Qed.

Lemma insertionSort_sorted (s : list A) :
  StronglySorted (λ a b, less b a = false) (insertionSort less s).
Proof.
  unfold insertionSort.
  apply (StronglySorted_rev_flip (λ a b, less a b = false)).
  apply fold_insert_back_desc. constructor.
Qed.

End InsertionSort.

#[export] Instance insertion_Sorter : Sorter := {
  sort_Slice := @insertionSort;
  sort_Slice_perm := @insertionSort_perm;
  sort_Slice_sorted := λ A less s Htrans Hasym,
    insertionSort_sorted less Htrans Hasym s
}.

(** A [range] that visits the keys in the order of the map's own listing. *)
#[export] Instance map_to_list_MapRange : MapRange := {
  range_values := λ V m, (map_to_list m).*2;
  range_values_perm := λ V m, reflexivity _
}.

Lemma body_error_None (content : string) :
  body_error content = None ↔ strlen content ≤ 2000 ∧ TrimSpace content ≠ "".
Proof.
  unfold body_error.
  destruct (Z.ltb_spec 2000 (strlen content)) as [Hlen|Hlen].
  - split; [done|lia].
  - destruct (String.eqb_spec (TrimSpace content) "") as [Htrim|Htrim].
    + split; [done|]. intros [_ Hne]. done.
    + split; [done|]. done.
Qed.

Lemma body_error_classified (content : string) (e : error) :
  body_error content = Some e → classify e = Some InvalidBody.
Proof.
  unfold body_error. intros He.
  repeat (case_match; simplify_eq); reflexivity.
Qed.

(** ** The in-memory store: [CreateComment] *)

Section InMemoryCreate.
Import inmemory.

(** The checks of [CreateComment], one after the other. *)
Lemma CreateComment_no_post s comment uuid now :
  posts s !! Comment.PostID comment = None →
  CreateComment s comment uuid now = (s, Err "post not found").
Proof. intros Hp. unfold CreateComment. by rewrite Hp. Qed.

Lemma CreateComment_disabled s comment uuid now post :
  posts s !! Comment.PostID comment = Some post →
  Post.CommentsEnabled post = false →
  CreateComment s comment uuid now = (s, Err "comments are disabled for this post").
Proof. intros Hp He. unfold CreateComment. by rewrite Hp, He. Qed.

Lemma CreateComment_body s comment uuid now post e :
  posts s !! Comment.PostID comment = Some post →
  Post.CommentsEnabled post = true →
  body_error (Comment.Content comment) = Some e →
  CreateComment s comment uuid now = (s, Err e).
Proof.
  intros Hp He Hb. unfold CreateComment, errors_New.
  unfold body_error in Hb.
  rewrite Hp, He. simpl.
  repeat (case_match; simplify_eq); done.
Qed.

Lemma CreateComment_no_parent s comment uuid now post :
  posts s !! Comment.PostID comment = Some post →
  Post.CommentsEnabled post = true →
  body_error (Comment.Content comment) = None →
  parent_missing s comment = true →
  CreateComment s comment uuid now = (s, Err "parent comment not found").
Proof.
  intros Hp He Hb Hm. unfold CreateComment, errors_New.
  unfold body_error in Hb.
  rewrite Hp, He, Hm. simpl.
  repeat (case_match; simplify_eq); done.
Qed.

Lemma CreateComment_ok s comment uuid now post :
  posts s !! Comment.PostID comment = Some post →
  Post.CommentsEnabled post = true →
  body_error (Comment.Content comment) = None →
  parent_missing s comment = false →
  CreateComment s comment uuid now =
    ((inserted s comment uuid now).1, Ok (inserted s comment uuid now).2).
Proof.
  intros Hp He Hb Hm. unfold CreateComment, inserted, errors_New.
  unfold body_error in Hb.
  rewrite Hp, He, Hm. simpl.
  repeat (case_match; simplify_eq); done.
Qed.

(** Every call ends in one of the five ways above. *)
Lemma CreateComment_cases s comment uuid now :
  (∃ e, CreateComment s comment uuid now = (s, Err e) ∧ is_Some (classify e))
  ∨ (∃ post, posts s !! Comment.PostID comment = Some post
       ∧ Post.CommentsEnabled post = true
       ∧ body_error (Comment.Content comment) = None
       ∧ parent_missing s comment = false
       ∧ CreateComment s comment uuid now =
           ((inserted s comment uuid now).1, Ok (inserted s comment uuid now).2)).
Proof.
  destruct (posts s !! Comment.PostID comment) as [post|] eqn:Hp.
  2:{ left. eexists. split; [by apply CreateComment_no_post|]. by eexists. }
  destruct (Post.CommentsEnabled post) eqn:He.
  2:{ left. eexists. split; [by eapply CreateComment_disabled|]. by eexists. }
  destruct (body_error (Comment.Content comment)) as [e|] eqn:Hb.
  { left. exists e. split; [by eapply CreateComment_body|].
    erewrite body_error_classified by done. by eexists. }
  destruct (parent_missing s comment) eqn:Hm.
  { left. eexists. split; [by eapply CreateComment_no_parent|]. by eexists. }
  right. exists post. split_and!; try done. by eapply CreateComment_ok.
Qed.

End InMemoryCreate.

(** ** The in-memory store: reachable states and their invariant *)

Section InMemoryInvariant.
Import inmemory.

Lemma index_ok_empty (cs : gmap string Comment.t) : index_ok cs ∅.
Proof. intros k ids Hk. by rewrite lookup_empty in Hk. Qed.

Lemma index_ok_insert_comment cs index uuid c :
  index_ok cs index → index_ok (<[uuid := c]> cs) index.
Proof.
  intros Hok k ids Hk. destruct (Hok k ids Hk) as [Hnd Hin].
  split; [done|]. intros id Hid.
  destruct (decide (uuid = id)) as [->|Hne].
  - rewrite lookup_insert_eq. by eexists.
  - rewrite lookup_insert_ne by done. by apply Hin.
Qed.

Lemma index_ok_append cs index uuid c k :
  cs !! uuid = None →
  index_ok cs index →
  index_ok (<[uuid := c]> cs)
    (<[k := (default [] (index !! k) ++ [uuid])%list]> index).
Proof.
  intros Hfresh Hok k' ids Hk'.
  destruct (decide (k = k')) as [->|Hne].
  - rewrite lookup_insert_eq in Hk'. simplify_eq.
    assert (NoDup (default [] (index !! k'))
            ∧ ∀ id, id ∈ default [] (index !! k') → is_Some (cs !! id)) as [Hnd Hin].
    { destruct (index !! k') as [old|] eqn:Hold; simpl.
      - by apply (Hok k').
      - split; [constructor|]. intros id Hid. by apply elem_of_nil in Hid. }
    split.
    + apply NoDup_app. split_and!; [done| |apply NoDup_singleton].
      intros id Hid Hid'. apply list_elem_of_singleton in Hid' as ->.
      apply Hin in Hid as [? Hid]. congruence.
    + intros id Hid. apply elem_of_app in Hid as [Hid|Hid].
      * destruct (decide (uuid = id)) as [->|Hne].
        -- rewrite lookup_insert_eq. by eexists.
        -- rewrite lookup_insert_ne by done. by apply Hin.
      * apply list_elem_of_singleton in Hid as ->.
        rewrite lookup_insert_eq. by eexists.
  - rewrite lookup_insert_ne in Hk' by done.
    by eapply index_ok_insert_comment.
Qed.

Lemma wf_New : wf New.
Proof.
  split; simpl; intros *; rewrite ?lookup_empty; try done;
    apply index_ok_empty.
Qed.

Lemma wf_CreatePost s post uuid now : wf s → wf (CreatePost s post uuid now).1.
Proof.
  intros [H1 H2 H3 H4 H5]. split; simpl; try done.
  intros postID ids Hids. destruct (decide (uuid = postID)) as [->|Hne].
  - rewrite lookup_insert_eq. by eexists.
  - rewrite lookup_insert_ne by done. by eapply H1.
Qed.

Lemma wf_ToggleComments s postID enable :
  wf s → wf (ToggleComments s postID enable).1.
Proof.
  intros Hwf. unfold ToggleComments.
  destruct (posts s !! postID) as [post|] eqn:Hp; [|done].
  destruct Hwf as [H1 H2 H3 H4 H5]. split; simpl; try done.
  intros postID' ids Hids. destruct (decide (postID = postID')) as [->|Hne].
  - rewrite lookup_insert_eq. by eexists.
  - rewrite lookup_insert_ne by done. by eapply H1.
Qed.

Lemma lookup_insert_is_Some_keep {V : Type} (m : gmap string V) (k k' : string) (v : V) :
  is_Some (m !! k') → is_Some (<[k := v]> m !! k').
Proof.
  intros Hk. destruct (decide (k = k')) as [->|Hne].
  - rewrite lookup_insert_eq. by eexists.
  - by rewrite lookup_insert_ne.
Qed.

Lemma wf_inserted s comment uuid now post :
  wf s →
  comments s !! uuid = None →
  posts s !! Comment.PostID comment = Some post →
  parent_missing s comment = false →
  wf (inserted s comment uuid now).1.
Proof.
  intros [H1 H2 H3 H4 H5] Hfresh Hp Hm.
  unfold inserted, parent_missing in *.
  destruct (Comment.ParentID comment) as [parentID|] eqn:Hparent; simpl.
  - destruct (comments s !! parentID) as [parent|] eqn:Hpar; [|done].
    split; simpl.
    + done.
    + intros k ids Hk. apply lookup_insert_is_Some_keep.
      destruct (decide (parentID = k)) as [->|Hne]; [by eexists|].
      rewrite lookup_insert_ne in Hk by done. by eapply H2.
    + intros id c Hc. destruct (decide (uuid = id)) as [->|Hne].
      * rewrite lookup_insert_eq in Hc. by simplify_eq.
      * rewrite lookup_insert_ne in Hc by done. by apply H3.
    + by apply index_ok_insert_comment.
    + by apply index_ok_append.
  - split; simpl.
    + intros k ids Hk. destruct (decide (Comment.PostID comment = k)) as [<-|Hne].
      * by eexists.
      * rewrite lookup_insert_ne in Hk by done. by eapply H1.
    + intros k ids Hk. apply lookup_insert_is_Some_keep. by eapply H2.
    + intros id c Hc. destruct (decide (uuid = id)) as [->|Hne].
      * rewrite lookup_insert_eq in Hc. by simplify_eq.
      * rewrite lookup_insert_ne in Hc by done. by apply H3.
    + by apply index_ok_append.
    + by apply index_ok_insert_comment.
Qed.

Lemma wf_CreateComment s comment uuid now :
  wf s → comments s !! uuid = None → wf (CreateComment s comment uuid now).1.
Proof.
  intros Hwf Hfresh.
  destruct (CreateComment_cases s comment uuid now)
    as [(e & -> & _)|(post & Hp & _ & _ & Hm & ->)]; [done|].
  simpl. by eapply wf_inserted.
Qed.

Lemma reachable_wf s : reachable s → wf s.
Proof.
  induction 1; auto using wf_New, wf_CreatePost, wf_ToggleComments, wf_CreateComment.
Qed.

End InMemoryInvariant.

(** ** The in-memory store: pagination *)

Section InMemoryPagination.
Import storage inmemory.
Context `{!Sorter}.

Lemma created_before_negtrans (x y z : Comment.t) :
  created_before x y = false → created_before y z = false →
  created_before x z = false.
Proof. unfold created_before, Before. rewrite !Z.ltb_ge. lia. Qed.

Lemma created_before_asym (x y : Comment.t) :
  created_before x y = true → created_before y x = false.
Proof. unfold created_before, Before. rewrite Z.ltb_lt, Z.ltb_ge. lia. Qed.

Lemma allComments_perm s ids :
  allComments s ids ≡ₚ omap (λ id, comments s !! id) ids.
Proof. apply sort_Slice_perm. Qed.

Lemma allComments_nil s : allComments s [] = [].
Proof. apply Permutation_nil_r. apply (allComments_perm s []). Qed.

Lemma length_omap_le {A B : Type} (f : A → option B) (l : list A) :
  (length (omap f l) ≤ length l)%nat.
Proof.
  induction l as [|x l IH]; csimpl; [done|].
  destruct (f x); csimpl; lia.
Qed.

Lemma allComments_len s ids : len (allComments s ids) ≤ len ids.
Proof.
  unfold len. rewrite (Permutation_length (allComments_perm s ids)).
  pose proof (length_omap_le (λ id, comments s !! id) ids). lia.
Qed.

(** The cursor loop finds what [after_id] describes. *)
Lemma find_start_not_found cs cursor i :
  after_id cursor cs = None → find_start cs cursor i = 0.
Proof.
  revert i. induction cs as [|c cs IH]; intros i; simpl; [done|].
  destruct (String.eqb (Comment.ID c) cursor); [done|]. apply IH.
Qed.

Lemma find_start_found cs cursor i rest :
  after_id cursor cs = Some rest →
  Z.of_nat i + len cs ≤ int_max →
  ∃ k : nat, find_start cs cursor i = Z.of_nat i + Z.of_nat k
             ∧ (0 < k ≤ length cs)%nat ∧ rest = drop k cs.
Proof.
  revert i. induction cs as [|c cs IH]; intros i; simpl; [done|].
  unfold len in *. simpl length. intros Hrest Hi.
  destruct (String.eqb (Comment.ID c) cursor).
  - simplify_eq. exists 1%nat. split_and!; [|lia|lia|done].
    unfold int_add. rewrite wrap_int_id; [lia|]. unfold int_min, int_max in *. lia.
  - destruct (IH (S i) Hrest) as (k & Hk & Hlen & ->); [lia|].
    exists (S k). split_and!; [lia|lia|lia|done].
Qed.

Lemma take_min_len {A : Type} (l : list A) (n : Z) :
  0 ≤ n →
  take (Z.to_nat (if len l <? n then len l else n)) l = take (Z.to_nat n) l.
Proof.
  intros Hn. unfold len. destruct (Z.ltb_spec (Z.of_nat (length l)) n); [|done].
  rewrite !take_ge; [done|lia|lia].
Qed.

(** Within the bounds, [paginateComments] returns the next [n] candidates
    after the cursor. *)
Lemma paginateComments_spec s ids n cursor :
  0 ≤ n → len ids + n ≤ int_max →
  paginateComments s ids (mkArgs n cursor) =
    Ok (take (Z.to_nat n) (remaining cursor (allComments s ids))).
Proof.
  intros Hn Hfit. unfold paginateComments. simpl.
  pose proof (allComments_len s ids) as Hlen.
  pose proof (len_nonneg (allComments s ids)) as Hpos.
  set (all := allComments s ids) in *.
  assert (∀ rest,
    (∃ k : nat, (k ≤ length all)%nat ∧ rest = drop k all) →
    (if len all <=? Z.of_nat (length all - length rest)
     then Ok []
     else
       slice all (Z.of_nat (length all - length rest))
         (if len all <? int_add (Z.of_nat (length all - length rest)) n
          then len all
          else int_add (Z.of_nat (length all - length rest)) n))
    = Ok (take (Z.to_nat n) rest)) as Hgen.
  { intros rest (k & Hk & ->). rewrite length_drop.
    replace (length all - (length all - k))%nat with k by lia.
    unfold int_add. rewrite wrap_int_id.
    2:{ unfold len, int_min, int_max in *. lia. }
    unfold len in *.
    destruct (Z.leb_spec (Z.of_nat (length all)) (Z.of_nat k)) as [Hge|Hlt].
    - rewrite drop_ge by lia. by rewrite take_nil.
    - rewrite slice_in_range.
      + f_equal.
        destruct (Z.ltb_spec (Z.of_nat (length all)) (Z.of_nat k + n)) as [Hbig|Hsmall].
        * rewrite Nat2Z.id. rewrite !take_ge; [done| |]; rewrite length_drop; lia.
        * rewrite Nat2Z.id. f_equal. lia.
      + lia.
      + destruct (Z.ltb_spec (Z.of_nat (length all)) (Z.of_nat k + n)); lia.
      + unfold len.
        destruct (Z.ltb_spec (Z.of_nat (length all)) (Z.of_nat k + n)); lia. }
  assert (∀ start, start = 0 →
    (if len all <=? start then Ok []
     else slice all start
            (if len all <? int_add start n then len all else int_add start n))
    = Ok (take (Z.to_nat n) all)) as Hzero.
  { intros start ->. specialize (Hgen all).
    rewrite Nat.sub_diag in Hgen. apply Hgen. exists 0%nat. split; [lia|done]. }
  destruct cursor as [cursor|]; simpl; [|by apply Hzero].
  destruct (after_id cursor all) as [rest|] eqn:Hafter; simpl.
  - destruct (find_start_found all cursor 0 rest Hafter) as (k & -> & Hk & ->).
    { unfold len, int_max in *. lia. }
    specialize (Hgen (drop k all)). rewrite length_drop in Hgen.
    replace (length all - (length all - k))%nat with k in Hgen by lia.
    simpl. apply Hgen. exists k. split; [lia|done].
  - apply Hzero. by apply find_start_not_found.
Qed.

(** A cursor that is not among the candidates changes nothing, whatever
    the limit. *)
Lemma paginateComments_unknown_cursor s ids n cursor :
  cursor ∉ Comment.ID <$> allComments s ids →
  paginateComments s ids (mkArgs n (Some cursor)) =
    paginateComments s ids (mkArgs n None).
Proof.
  intros Hnot. unfold paginateComments. simpl.
  rewrite find_start_not_found; [done|].
  induction (allComments s ids) as [|c cs IH]; simpl; [done|].
  rewrite fmap_cons, not_elem_of_cons in Hnot. destruct Hnot as [Hne Hnot].
  destruct (String.eqb_spec (Comment.ID c) cursor); [done|]. by apply IH.
Qed.

End InMemoryPagination.

(** ** The listing resolvers *)

Section Connection.
Context {S : Type} `{!storage.Storage S}.

Lemma connection_negative (l : Z) (comments : list Comment.t) :
  l < 0 → graph.connection l comments = Panic.
Proof.
  intros Hl. unfold graph.connection.
  pose proof (len_nonneg comments).
  rewrite (proj2 (Z.ltb_lt l (len comments))) by lia.
  by rewrite slice_negative.
Qed.

Lemma last_edges (cs : list Comment.t) :
  model.Cursor <$> last ((λ c, model.mkEdge c (Comment.ID c)) <$> cs)
  = Comment.ID <$> last cs.
Proof. rewrite fmap_last. by destruct (last cs). Qed.

(** Handed [l + 1] candidates, the resolvers build the page of the
    Paginator. *)
Lemma connection_take (l : Z) (rest : list Comment.t) :
  0 ≤ l →
  graph.connection l (take (Z.to_nat (l + 1)) rest)
  = Ok (connection_of
          (mkPage (take (Z.to_nat l) rest) (l <? len rest)
             (Comment.ID <$> last (take (Z.to_nat l) rest)))).
Proof.
  intros Hl. unfold graph.connection, connection_of, len. simpl.
  rewrite length_take.
  destruct (Z.ltb_spec l (Z.of_nat (length rest))) as [Hmore|Hless].
  - rewrite (proj2 (Z.ltb_lt l _)) by lia.
    rewrite slice_in_range; [|lia|lia|unfold len; rewrite length_take; lia].
    simpl. rewrite drop_0, Z.sub_0_r, take_take.
    replace (Z.to_nat l `min` Z.to_nat (l + 1))%nat with (Z.to_nat l) by lia.
    by rewrite last_edges.
  - rewrite (proj2 (Z.ltb_ge l _)) by lia. simpl.
    rewrite !take_ge by lia. by rewrite last_edges.
Qed.

End Connection.

Section InMemoryResolvers.
Import storage inmemory.
Context `{!Sorter}.

Lemma GetCommentsByPostID_spec s postID n cursor :
  0 ≤ n → len (default [] (commentsByPost s !! postID)) + n ≤ int_max →
  GetCommentsByPostID s postID (mkArgs n cursor)
  = Ok (take (Z.to_nat n) (remaining cursor (root_comments s postID))).
Proof.
  intros Hn Hfit. unfold GetCommentsByPostID, root_comments.
  destruct (commentsByPost s !! postID) as [ids|]; simpl in *.
  - by apply paginateComments_spec.
  - rewrite allComments_nil. destruct cursor; simpl; by rewrite take_nil.
Qed.

Lemma GetCommentsByParentID_spec s parentID n cursor :
  0 ≤ n → len (default [] (commentsByParent s !! parentID)) + n ≤ int_max →
  GetCommentsByParentID s parentID (mkArgs n cursor)
  = Ok (take (Z.to_nat n) (remaining cursor (child_comments s parentID))).
Proof.
  intros Hn Hfit. unfold GetCommentsByParentID, child_comments.
  destruct (commentsByParent s !! parentID) as [ids|]; simpl in *.
  - by apply paginateComments_spec.
  - rewrite allComments_nil. destruct cursor; simpl; by rewrite take_nil.
Qed.

Lemma limit_plus_one (l : Z) : GraphQLInt l → int_add l 1 = l + 1.
Proof.
  unfold GraphQLInt, int_add. intros Hl.
  apply wrap_int_id. unfold int_min, int_max. lia.
Qed.

Lemma Comments_spec s obj limit cursor :
  let l := default 10 limit in
  0 ≤ l → GraphQLInt l →
  fits_memory (default [] (commentsByPost s !! Post.ID obj)) →
  graph.Comments s obj limit cursor
  = Ok (connection_of (Paginator (root_comments s (Post.ID obj)) cursor l)).
Proof.
  intros l Hl Hint Hfit. unfold graph.Comments. fold l.
  rewrite limit_plus_one by done. simpl.
  rewrite GetCommentsByPostID_spec.
  - simpl. by rewrite connection_take.
  - lia.
  - unfold fits_memory, GraphQLInt, int_max in *. lia.
Qed.

Lemma Children_spec s obj limit cursor :
  let l := default 5 limit in
  0 ≤ l → GraphQLInt l →
  fits_memory (default [] (commentsByParent s !! Comment.ID obj)) →
  graph.Children s obj limit cursor
  = Ok (connection_of (Paginator (child_comments s (Comment.ID obj)) cursor l)).
Proof.
  intros l Hl Hint Hfit. unfold graph.Children. fold l.
  rewrite limit_plus_one by done. simpl.
  rewrite GetCommentsByParentID_spec.
  - simpl. by rewrite connection_take.
  - lia.
  - unfold fits_memory, GraphQLInt, int_max in *. lia.
Qed.

(** A negative limit makes both resolvers panic: [comments[:l]]. *)
Lemma Comments_negative s obj l cursor page :
  l < 0 → graph.Comments s obj (Some l) cursor ≠ Ok page.
Proof.
  intros Hl. unfold graph.Comments. simpl.
  destruct (GetCommentsByPostID s (Post.ID obj) _) as [comments|e|]; simpl; try done.
  by rewrite connection_negative.
Qed.

Lemma Children_negative s obj l cursor page :
  l < 0 → graph.Children s obj (Some l) cursor ≠ Ok page.
Proof.
  intros Hl. unfold graph.Children. simpl.
  destruct (GetCommentsByParentID s (Comment.ID obj) _) as [comments|e|]; simpl; try done.
  by rewrite connection_negative.
Qed.

End InMemoryResolvers.

(** ** Two consecutive pages *)

Section TwoPages.

Lemma after_id_app (pre post : list Comment.t) (c : Comment.t) :
  Comment.ID c ∉ Comment.ID <$> pre →
  after_id (Comment.ID c) (pre ++ c :: post) = Some post.
Proof.
  induction pre as [|x pre IH]; simpl; intros Hnot.
  - by rewrite String.eqb_refl.
  - apply not_elem_of_cons in Hnot as [Hne Hnot].
    destruct (String.eqb_spec (Comment.ID x) (Comment.ID c)); [congruence|].
    by apply IH.
Qed.

Lemma take_length_take {A : Type} (l : list A) (k : nat) :
  take (length (take k l)) l = take k l.
Proof.
  rewrite length_take. destruct (decide (k ≤ length l)%nat).
  - by rewrite Nat.min_l.
  - rewrite Nat.min_r by lia. rewrite !take_ge; [done|lia|lia].
Qed.

(** The page after a first page starts where the first page ended. *)
Lemma Paginator_next_page (ordered : list Comment.t) (L L2 : Z) :
  NoDup (Comment.ID <$> ordered) →
  let p1 := Paginator ordered None L in
  let p2 := Paginator ordered (endCursor p1) L2 in
  items p1 ++ items p2 = take (length (items p1 ++ items p2)) ordered.
Proof.
  intros Hnd. simpl.
  set (n := Z.to_nat L). set (m := Z.to_nat L2).
  assert (∃ k, take n ordered
                 ++ take m (remaining (Comment.ID <$> last (take n ordered)) ordered)
               = take k ordered) as [k Hk].
  { destruct (last (take n ordered)) as [c|] eqn:Hlast; simpl.
    - apply last_Some in Hlast as [pre Hpre].
      assert (length (take n ordered) = S (length pre)) as Hlen.
      { rewrite Hpre, length_app. simpl. lia. }
      assert (take (S (length pre)) ordered = take n ordered) as Htake.
      { rewrite <- Hlen. apply take_length_take. }
      remember (drop (S (length pre)) ordered) as post eqn:Hpost.
      assert (ordered = pre ++ c :: post) as Hsplit.
      { rewrite <- (take_drop (S (length pre)) ordered), <- Hpost.
        rewrite Htake, Hpre. by rewrite <- app_assoc. }
      assert (after_id (Comment.ID c) ordered = Some post) as ->.
      { rewrite Hsplit. apply after_id_app.
        rewrite Hsplit, fmap_app, fmap_cons in Hnd.
        apply NoDup_app in Hnd as (_ & Hdisj & _).
        intros Hin. apply (Hdisj _ Hin). left. }
      simpl. exists (S (length pre) + m)%nat.
      rewrite <- Htake, Hpost. apply take_take_drop.
    - apply last_None in Hlast. rewrite Hlast. simpl. by exists m. }
  rewrite Hk. by rewrite take_length_take.
Qed.

(** The second page holds the items right after those of the first. *)
Lemma Paginator_second_page (ordered : list Comment.t) (L L2 : Z) :
  NoDup (Comment.ID <$> ordered) →
  let p1 := Paginator ordered None L in
  let p2 := Paginator ordered (endCursor p1) L2 in
  items p2 = take (Z.to_nat L2) (drop (length (items p1)) ordered).
Proof.
  intros Hnd. simpl.
  set (n := Z.to_nat L).
  destruct (last (take n ordered)) as [c|] eqn:Hlast; simpl.
  - apply last_Some in Hlast as [pre Hpre].
    assert (length (take n ordered) = S (length pre)) as Hlen.
    { rewrite Hpre, length_app. simpl. lia. }
    assert (take (S (length pre)) ordered = take n ordered) as Htake.
    { rewrite <- Hlen. apply take_length_take. }
    remember (drop (S (length pre)) ordered) as post eqn:Hpost.
    assert (ordered = pre ++ c :: post) as Hsplit.
    { rewrite <- (take_drop (S (length pre)) ordered), <- Hpost.
      rewrite Htake, Hpre. by rewrite <- app_assoc. }
    assert (after_id (Comment.ID c) ordered = Some post) as ->.
    { rewrite Hsplit. apply after_id_app.
      rewrite Hsplit, fmap_app, fmap_cons in Hnd.
      apply NoDup_app in Hnd as (_ & Hdisj & _).
      intros Hin. apply (Hdisj _ Hin). left. }
    simpl. by rewrite Hlen, Hpost.
  - apply last_None in Hlast. by rewrite Hlast.
Qed.

Lemma NoDup_take_fmap {A B : Type} (f : A → B) (l : list A) (k : nat) :
  NoDup (f <$> l) → NoDup (f <$> take k l).
Proof.
  intros Hnd. rewrite fmap_take.
  apply (sublist_NoDup _ (f <$> l)); [exact Hnd|apply sublist_take].
Qed.

End TwoPages.

Section InMemoryClaims.
Import storage inmemory.
Context `{!Sorter}.

(** In a reachable state the candidates of a listing have pairwise
    different identifiers. *)
Lemma omap_comments_ids s (ids : list string) :
  wf s →
  Comment.ID <$> omap (λ id, comments s !! id) ids
  = filter (λ id, is_Some (comments s !! id)) ids.
Proof.
  intros Hwf. induction ids as [|id ids IH]; csimpl; [done|].
  destruct (comments s !! id) as [c|] eqn:Hc; csimpl.
  - rewrite filter_cons_True by (rewrite Hc; by eexists).
    rewrite IH. f_equal. by eapply wf_key.
  - rewrite filter_cons_False; [done|]. rewrite Hc. by intros [? ?].
Qed.

Lemma allComments_ids_NoDup s ids :
  wf s → NoDup ids → NoDup (Comment.ID <$> allComments s ids).
Proof.
  intros Hwf Hnd.
  rewrite (allComments_perm s ids), omap_comments_ids by done.
  by apply NoDup_filter.
Qed.

Lemma root_comments_ids_NoDup s postID :
  wf s → NoDup (Comment.ID <$> root_comments s postID).
Proof.
  intros Hwf. apply allComments_ids_NoDup; [done|].
  destruct (commentsByPost s !! postID) as [ids|] eqn:Hids; simpl.
  - by apply (wf_post_ids s Hwf postID).
  - constructor.
Qed.

Lemma child_comments_ids_NoDup s parentID :
  wf s → NoDup (Comment.ID <$> child_comments s parentID).
Proof.
  intros Hwf. apply allComments_ids_NoDup; [done|].
  destruct (commentsByParent s !! parentID) as [ids|] eqn:Hids; simpl.
  - by apply (wf_parent_ids s Hwf parentID).
  - constructor.
Qed.

Lemma edges_nodes (cs : list Comment.t) :
  model.Node <$> ((λ c, model.mkEdge c (Comment.ID c)) <$> cs) = cs.
Proof. rewrite <- list_fmap_compose. apply list_fmap_id. Qed.

(** C4. For every list of sibling comments (the children of [obj] in any
    store), every cursor and every positive limit, the page [Children]
    returns has [hasNextPage] true exactly when strictly more than [limit]
    items come after the cursor position in the ordered candidate list, and
    the page holds exactly [min(limit, remaining)] items: the first ones
    after the cursor. *)
Theorem Children_hasNextPage_iff
    (s : Store) (obj : Comment.t) (limit : option Z) (cursor : option string) :
  0 < default 5 limit →
  GraphQLInt (default 5 limit) →
  fits_memory (default [] (commentsByParent s !! Comment.ID obj)) →
  ∃ page,
    graph.Children s obj limit cursor = Ok page
    ∧ (model.PageInfo.HasNextPage (model.PageInfo page) = true
       ↔ default 5 limit < len (remaining cursor (child_comments s (Comment.ID obj))))
    ∧ len (model.Edges page)
      = Z.min (default 5 limit)
          (len (remaining cursor (child_comments s (Comment.ID obj))))
    ∧ model.Node <$> model.Edges page
      = take (Z.to_nat (default 5 limit))
          (remaining cursor (child_comments s (Comment.ID obj))).
Proof.
  intros Hpos Hint Hfit. eexists. split.
  { apply Children_spec; [lia|done|done]. }
  simpl. split_and!.
  - apply Z.ltb_lt.
  - unfold len. rewrite length_fmap, length_take. lia.
  - apply edges_nodes.
Qed.

(** The same for the root comments of a post. *)
Lemma Comments_hasNextPage_iff
    (s : Store) (obj : Post.t) (limit : option Z) (cursor : option string) :
  0 < default 10 limit →
  GraphQLInt (default 10 limit) →
  fits_memory (default [] (commentsByPost s !! Post.ID obj)) →
  ∃ page,
    graph.Comments s obj limit cursor = Ok page
    ∧ (model.PageInfo.HasNextPage (model.PageInfo page) = true
       ↔ default 10 limit < len (remaining cursor (root_comments s (Post.ID obj))))
    ∧ len (model.Edges page)
      = Z.min (default 10 limit)
          (len (remaining cursor (root_comments s (Post.ID obj)))).
Proof.
  intros Hpos Hint Hfit. eexists. split.
  { apply Comments_spec; [lia|done|done]. }
  simpl. split.
  - apply Z.ltb_lt.
  - unfold len. rewrite length_fmap, length_take. lia.
Qed.

(** C5. For a fixed set of root comments (one reachable state of the store)
    and limits [L] and [L2]: a request for the first page with limit [L]
    and a request for the next page, with the first page's [endCursor],
    both return a page when the limits are not negative; and whenever they
    return pages, the first page holds the first [min(L, n)] of the [n]
    ordered root comments, the second page the [min(L2, rest)] that come
    right after them, so that the two pages one after the other are the
    full ordered sibling list cut to the number of items retrieved: no
    comment is skipped, and none occurs twice. *)
Theorem Comments_two_pages_prefix (s : Store) (obj : Post.t) (L L2 : Z) :
  reachable s →
  GraphQLInt L → GraphQLInt L2 →
  fits_memory (default [] (commentsByPost s !! Post.ID obj)) →
  (0 ≤ L → 0 ≤ L2 →
   ∃ p1 p2,
     graph.Comments s obj (Some L) None = Ok p1
     ∧ graph.Comments s obj (Some L2) (model.PageInfo.EndCursor (model.PageInfo p1)) = Ok p2)
  ∧ (∀ p1 p2,
       graph.Comments s obj (Some L) None = Ok p1 →
       graph.Comments s obj (Some L2) (model.PageInfo.EndCursor (model.PageInfo p1)) = Ok p2 →
       let first := model.Node <$> model.Edges p1 in
       let second := model.Node <$> model.Edges p2 in
       let both := first ++ second in
       first = take (Z.to_nat L) (root_comments s (Post.ID obj))
       ∧ second = take (Z.to_nat L2) (drop (length first) (root_comments s (Post.ID obj)))
       ∧ len first = Z.min L (len (root_comments s (Post.ID obj)))
       ∧ len second = Z.min L2 (len (root_comments s (Post.ID obj)) - len first)
       ∧ both = take (length both) (root_comments s (Post.ID obj))
       ∧ both `prefix_of` root_comments s (Post.ID obj)
       ∧ NoDup (Comment.ID <$> both)).
Proof.
  intros Hreach HL HL2 Hfit.
  assert (0 ≤ L → 0 ≤ L2 →
    graph.Comments s obj (Some L) None
    = Ok (connection_of (Paginator (root_comments s (Post.ID obj)) None L))
    ∧ graph.Comments s obj (Some L2)
        (endCursor (Paginator (root_comments s (Post.ID obj)) None L))
      = Ok (connection_of
              (Paginator (root_comments s (Post.ID obj))
                 (endCursor (Paginator (root_comments s (Post.ID obj)) None L)) L2)))
    as Hboth.
  { intros H0 H2. split; by apply Comments_spec. }
  split.
  - intros H0 H2. destruct (Hboth H0 H2) as [H1 H2'].
    eexists _, _. split; [exact H1|]. exact H2'.
  - intros p1 p2 Hp1 Hp2.
    destruct (Z.lt_ge_cases L 0) as [Hneg|H0].
    { by apply Comments_negative in Hp1. }
    destruct (Z.lt_ge_cases L2 0) as [Hneg|H2].
    { by apply Comments_negative in Hp2. }
    destruct (Hboth H0 H2) as [H1 H2'].
    rewrite H1 in Hp1. injection Hp1 as <-.
    change (model.PageInfo.EndCursor (model.PageInfo (connection_of ?p)))
      with (endCursor p) in Hp2.
    rewrite H2' in Hp2. injection Hp2 as <-.
    simpl. rewrite !edges_nodes.
    pose proof (root_comments_ids_NoDup s (Post.ID obj) (reachable_wf s Hreach)) as Hnd.
    pose proof (Paginator_next_page (root_comments s (Post.ID obj)) L L2 Hnd) as Hnext.
    pose proof (Paginator_second_page (root_comments s (Post.ID obj)) L L2 Hnd) as Hsecond.
    simpl in Hnext, Hsecond. split_and!.
    + done.
    + exact Hsecond.
    + unfold len. rewrite length_take. lia.
    + rewrite Hsecond. unfold len.
      rewrite ?length_take, ?length_drop, ?length_take. lia.
    + exact Hnext.
    + rewrite Hnext. apply prefix_take.
    + rewrite Hnext. by apply NoDup_take_fmap.
Qed.

(** The lenient cursor of the in-memory store: a cursor that is the
    identifier of none of the candidates is as good as no cursor. *)
Lemma GetCommentsByPostID_unknown_cursor s postID n cursor :
  cursor ∉ Comment.ID <$> root_comments s postID →
  GetCommentsByPostID s postID (mkArgs n (Some cursor))
  = GetCommentsByPostID s postID (mkArgs n None).
Proof.
  intros Hnot. unfold GetCommentsByPostID, root_comments in *.
  destruct (commentsByPost s !! postID) as [ids|]; [|done].
  by apply paginateComments_unknown_cursor.
Qed.

Lemma GetCommentsByParentID_unknown_cursor s parentID n cursor :
  cursor ∉ Comment.ID <$> child_comments s parentID →
  GetCommentsByParentID s parentID (mkArgs n (Some cursor))
  = GetCommentsByParentID s parentID (mkArgs n None).
Proof.
  intros Hnot. unfold GetCommentsByParentID, child_comments in *.
  destruct (commentsByParent s !! parentID) as [ids|]; [|done].
  by apply paginateComments_unknown_cursor.
Qed.

Lemma GetCommentsByPostID_unknown_cursor_first_items s postID n cursor :
  cursor ∉ Comment.ID <$> root_comments s postID →
  0 ≤ n → len (default [] (commentsByPost s !! postID)) + n ≤ int_max →
  GetCommentsByPostID s postID (mkArgs n (Some cursor))
  = Ok (take (Z.to_nat n) (root_comments s postID)).
Proof.
  intros Hnot Hn Hfit. rewrite GetCommentsByPostID_unknown_cursor by done.
  by rewrite GetCommentsByPostID_spec.
Qed.

End InMemoryClaims.

(** ** The order of the listings *)

Section Sortedness.
Context {A : Type}.

Lemma StronglySorted_weaken (R R' : A → A → Prop) (l : list A) :
  (∀ x y, R x y → R' x y) → StronglySorted R l → StronglySorted R' l.
Proof.
  intros HR. induction 1 as [|x l Hl IH Hx]; constructor; [done|].
  eapply Forall_impl; [exact Hx|]. intros y. apply HR.
Qed.

Lemma StronglySorted_take_drop (R : A → A → Prop) (l : list A) (n k : nat) :
  StronglySorted R l → StronglySorted R (take n (drop k l)).
Proof.
  intros Hl.
  rewrite <- (take_drop k l) in Hl. apply StronglySorted_app_1_r in Hl.
  rewrite <- (take_drop n (drop k l)) in Hl. by apply StronglySorted_app_1_l in Hl.
Qed.

Lemma slice_sorted (R : A → A → Prop) (l r : list A) (lo hi : Z) :
  slice l lo hi = Ok r → StronglySorted R l → StronglySorted R r.
Proof.
  unfold slice. intros Hr Hl.
  destruct ((0 <=? lo) && (lo <=? hi) && (hi <=? len l)); [|done].
  injection Hr as <-. by apply StronglySorted_take_drop.
Qed.

End Sortedness.

Section InMemoryListings.
Import storage inmemory.
Context `{!Sorter}.

Lemma allComments_sorted s ids : StronglySorted created_le (allComments s ids).
Proof.
  unfold allComments.
  eapply StronglySorted_weaken;
    [|apply (sort_Slice_sorted created_before);
      [apply created_before_negtrans|apply created_before_asym]].
  intros x y. unfold created_before, Before, created_le. simpl.
  rewrite Z.ltb_ge. lia.
Qed.

Lemma paginateComments_sorted s ids args l :
  paginateComments s ids args = Ok l → StronglySorted created_le l.
Proof.
  unfold paginateComments. intros Hl.
  destruct (len (allComments s ids) <=? _).
  - injection Hl as <-. constructor.
  - eapply slice_sorted; [exact Hl|apply allComments_sorted].
Qed.

(** The map [GetCommentsByParentIDs] builds, key by key. *)
Lemma batch_lookup s (parentIDs : list string) (acc : gmap string (list Comment.t)) p :
  fold_left
    (λ results pID,
       <[pID := allComments s (default [] (commentsByParent s !! pID))]> results)
    parentIDs acc !! p
  = if decide (p ∈ parentIDs) then Some (child_comments s p) else acc !! p.
Proof.
  revert acc. induction parentIDs as [|x parentIDs IH]; intros acc; cbn [fold_left].
  - destruct (decide (p ∈ [])) as [Hin|_]; [|done]. by apply elem_of_nil in Hin.
  - rewrite IH.
    destruct (decide (p ∈ parentIDs)) as [Hin|Hnot];
      destruct (decide (p ∈ x :: parentIDs)) as [Hin'|Hnot']; try done.
    + exfalso. apply Hnot'. by right.
    + apply elem_of_cons in Hin' as [->|?]; [|done].
      by rewrite lookup_insert_eq.
    + apply not_elem_of_cons in Hnot' as [Hne _].
      by rewrite lookup_insert_ne.
Qed.

Lemma GetCommentsByParentIDs_lookup s parentIDs :
  ∃ m, GetCommentsByParentIDs s parentIDs = Ok m
       ∧ ∀ p, m !! p = if decide (p ∈ parentIDs)
                       then Some (child_comments s p) else None.
Proof.
  eexists. split; [reflexivity|]. intros p.
  by rewrite batch_lookup, lookup_empty.
Qed.

(** The batch lookup of the in-memory store: one entry per requested
    parent, the empty list for a parent without children, each list what
    the unpaginated listing of that parent returns, in creation-time
    order. *)
Lemma GetCommentsByParentIDs_entries s parentIDs :
  NoDup parentIDs →
  ∃ m, GetCommentsByParentIDs s parentIDs = Ok m
    ∧ size m = length parentIDs
    ∧ ∀ p, p ∈ parentIDs →
        m !! p = Some (child_comments s p)
        ∧ StronglySorted created_le (child_comments s p)
        ∧ (commentsByParent s !! p = None → m !! p = Some [])
        ∧ ∀ n, len (child_comments s p) ≤ n →
               len (default [] (commentsByParent s !! p)) + n ≤ int_max →
               GetCommentsByParentID s p (mkArgs n None) = Ok (child_comments s p).
Proof.
  intros Hnd. destruct (GetCommentsByParentIDs_lookup s parentIDs) as (m & Hm & Hlookup).
  exists m. split_and!; [done| |].
  - rewrite <- size_dom, <- (size_list_to_set (C:=gset string)) by done.
    f_equal. apply set_eq. intros p.
    rewrite elem_of_dom, elem_of_list_to_set, Hlookup.
    destruct (decide (p ∈ parentIDs)) as [Hin|Hnot]; split; intros Hx; try done;
      (by eexists) || (by destruct Hx).
  - intros p Hp. rewrite Hlookup, decide_True by done. split_and!.
    + done.
    + apply allComments_sorted.
    + intros Hnone. unfold child_comments. rewrite Hnone. simpl.
      by rewrite allComments_nil.
    + intros n Hn Hfit. pose proof (len_nonneg (child_comments s p)).
      rewrite GetCommentsByParentID_spec by lia. simpl.
      rewrite take_ge; [done|]. unfold len in Hn. lia.
Qed.

(** C8 (as amended). The root comments of a post and the children of a
    comment come out of every listing in ascending order of creation time.
    Nothing orders two siblings with the same creation time by their
    identifiers. *)
Theorem listings_sorted_by_creation_time (s : Store) :
  (∀ postID args l,
     GetCommentsByPostID s postID args = Ok l → StronglySorted created_le l)
  ∧ (∀ parentID args l,
       GetCommentsByParentID s parentID args = Ok l → StronglySorted created_le l)
  ∧ (∀ parentIDs m parentID l,
       GetCommentsByParentIDs s parentIDs = Ok m → m !! parentID = Some l →
       StronglySorted created_le l).
Proof.
  split_and!.
  - intros postID args l. unfold GetCommentsByPostID.
    destruct (commentsByPost s !! postID).
    + apply paginateComments_sorted.
    + intros [= <-]. constructor.
  - intros parentID args l. unfold GetCommentsByParentID.
    destruct (commentsByParent s !! parentID).
    + apply paginateComments_sorted.
    + intros [= <-]. constructor.
  - intros parentIDs m parentID l Hm Hl.
    destruct (GetCommentsByParentIDs_lookup s parentIDs) as (m' & Hm' & Hlookup).
    rewrite Hm in Hm'. injection Hm' as <-.
    rewrite Hlookup in Hl. destruct (decide (parentID ∈ parentIDs)); [|done].
    injection Hl as <-. apply allComments_sorted.
Qed.

(** C10. For an identifier that is the identifier of no post
    (respectively, of no comment) of a reachable state, listing the root
    comments of that post (respectively, the children of that parent)
    succeeds with the empty list, whatever the pagination arguments: no
    error tells a missing target from one without comments. *)
Theorem listing_unknown_target_is_empty (s : Store) (id : string) (args : PaginationArgs) :
  reachable s →
  (posts s !! id = None → GetCommentsByPostID s id args = Ok [])
  ∧ (comments s !! id = None → GetCommentsByParentID s id args = Ok []).
Proof.
  intros Hwf%reachable_wf. split; intros Hnone.
  - unfold GetCommentsByPostID.
    destruct (commentsByPost s !! id) as [ids|] eqn:Hids; [|done].
    apply (wf_post_index s Hwf) in Hids as [post Hpost]. congruence.
  - unfold GetCommentsByParentID.
    destruct (commentsByParent s !! id) as [ids|] eqn:Hids; [|done].
    apply (wf_parent_index s Hwf) in Hids as [c Hc]. congruence.
Qed.

End InMemoryListings.

(** ** [CreateComment]: failures *)

Lemma body_error_Some (content : string) :
  is_Some (body_error content) ↔ 2000 < strlen content ∨ TrimSpace content = "".
Proof.
  unfold body_error.
  destruct (Z.ltb_spec 2000 (strlen content)) as [Hlen|Hlen].
  - split; [by left|by eexists].
  - destruct (String.eqb_spec (TrimSpace content) "") as [Htrim|Htrim].
    + split; [by right|by eexists].
    + split; [by intros [? ?]|]. intros [?|?]; [lia|done].
Qed.

Section PostgresCreate.
Import postgres.

(** The database checks the body before it looks for the post. *)
Lemma postgres_CreateComment_body s comment uuid now e :
  body_error (Comment.Content comment) = Some e →
  CreateComment s comment uuid now = (s, Err e).
Proof.
  unfold body_error, CreateComment, errors_New. intros He.
  repeat (case_match; simplify_eq); done.
Qed.

Lemma classify_invalid_uuid (text : string) : classify (invalid_uuid text) = None.
Proof. reflexivity. Qed.

Lemma create_comment_unclassified s comment uuid now :
  failure (create_comment s comment uuid now).2 = None.
Proof. unfold create_comment. repeat case_match; done. Qed.

Lemma create_comment_failure_keeps_rows s comment uuid now e :
  (create_comment s comment uuid now).2 = Err e →
  (create_comment s comment uuid now).1 = s.
Proof. unfold create_comment. repeat case_match; done. Qed.

(** A post identifier that is no uuid: the driver's error. *)
Lemma postgres_CreateComment_no_uuid s comment uuid now :
  body_error (Comment.Content comment) = None →
  uuid_in (Comment.PostID comment) = None →
  CreateComment s comment uuid now = (s, Err (invalid_uuid (Comment.PostID comment))).
Proof.
  unfold body_error, CreateComment, errors_New. intros Hb Hu. rewrite Hu.
  repeat (case_match; simplify_eq); done.
Qed.

Lemma postgres_CreateComment_no_post s comment uuid now postID :
  body_error (Comment.Content comment) = None →
  uuid_in (Comment.PostID comment) = Some postID →
  first_post s postID = None →
  CreateComment s comment uuid now = (s, Err "post not found").
Proof.
  unfold body_error, CreateComment, errors_New. intros Hb Hu Hp. rewrite Hu, Hp.
  repeat (case_match; simplify_eq); done.
Qed.

Lemma postgres_CreateComment_disabled s comment uuid now postID post :
  body_error (Comment.Content comment) = None →
  uuid_in (Comment.PostID comment) = Some postID →
  first_post s postID = Some post →
  Post.CommentsEnabled post = false →
  CreateComment s comment uuid now = (s, Err "comments are disabled for this post").
Proof.
  unfold body_error, CreateComment, errors_New. intros Hb Hu Hp He.
  rewrite Hu, Hp, He.
  repeat (case_match; simplify_eq); done.
Qed.

(** With a valid body, no failure of the database is an [InvalidBody]. *)
Lemma postgres_CreateComment_valid_body s comment uuid now :
  body_error (Comment.Content comment) = None →
  failure (CreateComment s comment uuid now).2 ≠ Some InvalidBody.
Proof.
  unfold body_error, CreateComment, errors_New. intros Hb.
  repeat (case_match; simplify_eq);
    rewrite ?create_comment_unclassified; done.
Qed.

(** A failed call leaves the rows as they were. *)
Lemma postgres_CreateComment_failure_keeps_rows s comment uuid now e :
  (CreateComment s comment uuid now).2 = Err e →
  (CreateComment s comment uuid now).1 = s.
Proof.
  unfold CreateComment.
  repeat (case_match; simplify_eq);
    try done; apply create_comment_failure_keeps_rows.
Qed.

End PostgresCreate.

Section InMemoryFailures.
Import inmemory.

(** The in-memory store reports the first violated precondition, in the
    order [PostNotFound], [CommentsDisabled], [InvalidBody],
    [ParentNotFound]. *)
Lemma inmemory_CreateComment_order s comment uuid now :
  match posts s !! Comment.PostID comment with
  | None => failure (CreateComment s comment uuid now).2 = Some PostNotFound
  | Some post =>
      if negb (Post.CommentsEnabled post)
      then failure (CreateComment s comment uuid now).2 = Some CommentsDisabled
      else if bool_decide (is_Some (body_error (Comment.Content comment)))
      then failure (CreateComment s comment uuid now).2 = Some InvalidBody
      else if parent_missing s comment
      then failure (CreateComment s comment uuid now).2 = Some ParentNotFound
      else ∃ stored, (CreateComment s comment uuid now).2 = Ok stored
  end.
Proof.
  destruct (posts s !! Comment.PostID comment) as [post|] eqn:Hp.
  2:{ by rewrite CreateComment_no_post. }
  destruct (Post.CommentsEnabled post) eqn:He; simpl.
  2:{ by erewrite CreateComment_disabled. }
  destruct (body_error (Comment.Content comment)) as [e|] eqn:Hb.
  { rewrite bool_decide_true by by eexists.
    erewrite CreateComment_body by done. simpl. by eapply body_error_classified. }
  rewrite bool_decide_false by by intros [? ?].
  destruct (parent_missing s comment) eqn:Hm.
  - by erewrite CreateComment_no_parent.
  - erewrite CreateComment_ok by done. by eexists.
Qed.

(** C2. Whenever [CreateComment] fails, with whichever of its errors, the
    store after the call is the store before the call: the posts, the
    comments and both child indexes are unchanged. *)
Theorem CreateComment_failure_keeps_store
    (s : Store) (comment : Comment.t) (uuid : string) (now : Time) (e : error) :
  (CreateComment s comment uuid now).2 = Err e →
  (CreateComment s comment uuid now).1 = s
  ∧ posts (CreateComment s comment uuid now).1 = posts s
  ∧ comments (CreateComment s comment uuid now).1 = comments s
  ∧ commentsByPost (CreateComment s comment uuid now).1 = commentsByPost s
  ∧ commentsByParent (CreateComment s comment uuid now).1 = commentsByParent s
  ∧ is_Some (classify e).
Proof.
  destruct (CreateComment_cases s comment uuid now)
    as [(e' & -> & Hclass)|(post & _ & _ & _ & _ & ->)]; simpl; [|done].
  intros [= <-]. by split_and!.
Qed.

End InMemoryFailures.

(** C3 (as amended). For a draft whose post exists and has comments
    enabled, [CreateComment] (of either store) fails with [InvalidBody]
    exactly when the body as given, untrimmed, is longer than 2000 (its
    [len]), or the body trimmed of white space is empty. *)
Theorem CreateComment_InvalidBody_iff :
  (∀ s comment uuid now post,
     inmemory.posts s !! Comment.PostID comment = Some post →
     Post.CommentsEnabled post = true →
     failure (inmemory.CreateComment s comment uuid now).2 = Some InvalidBody
     ↔ 2000 < strlen (Comment.Content comment)
       ∨ TrimSpace (Comment.Content comment) = "")
  ∧ (∀ s comment uuid now post,
       postgres.first_post s (Comment.PostID comment) = Some post →
       Post.CommentsEnabled post = true →
       failure (postgres.CreateComment s comment uuid now).2 = Some InvalidBody
       ↔ 2000 < strlen (Comment.Content comment)
         ∨ TrimSpace (Comment.Content comment) = "").
Proof.
  split; intros s comment uuid now post Hp He; rewrite <- body_error_Some.
  - destruct (body_error (Comment.Content comment)) as [e|] eqn:Hb.
    + erewrite CreateComment_body by done. simpl.
      split; [by eexists|]. intros _. by eapply body_error_classified.
    + split; [|by intros [? ?]]. intros Hfail. exfalso.
      destruct (inmemory.parent_missing s comment) eqn:Hm.
      * by erewrite CreateComment_no_parent in Hfail.
      * by erewrite CreateComment_ok in Hfail.
  - destruct (body_error (Comment.Content comment)) as [e|] eqn:Hb.
    + erewrite postgres_CreateComment_body by done. simpl.
      split; [by eexists|]. intros _. by eapply body_error_classified.
    + split; [|by intros [? ?]]. intros Hfail.
      by apply postgres_CreateComment_valid_body in Hfail.
Qed.

(** ** The mutation and the subscribers *)

Section Runs.
Import server.
Context {S : Type} `{!storage.Storage S} `{!MapRange}.

Lemma run_cons (e : event) (schedule : list event) (w w' : World S) :
  step w e = Step w' → run (e :: schedule) w = run schedule w'.
Proof. intros Hstep. simpl. by rewrite Hstep. Qed.

Lemma run_app (schedule1 schedule2 : list event) (w : World S) :
  run (schedule1 ++ schedule2) w
  = match run schedule1 w with
    | Step w' => run schedule2 w'
    | t => t
    end.
Proof.
  revert w. induction schedule1 as [|e schedule1 IH]; intros w; simpl; [done|].
  destruct (step w e); [apply IH|done|done].
Qed.

Lemma insert_snoc {A : Type} (l : list A) (x y : A) :
  <[length l := y]> (l ++ [x]) = l ++ [y].
Proof.
  rewrite insert_app_r_alt by lia. by rewrite Nat.sub_diag.
Qed.

Lemma lookup_snoc {A : Type} (l : list A) (x : A) : (l ++ [x]) !! length l = Some x.
Proof. by apply list_lookup_middle. Qed.

End Runs.

(** The setters of a world, unfolded. *)
Ltac world_simpl :=
  simpl;
  cbv [server.goto server.go server.set_store server.set_mu server.set_subs
       server.set_map server.set_chan server.make_map server.make_chan
       server.Lock server.Unlock server.RLock server.RUnlock server.mapaccess];
  simpl.

(** One step of a run: the step is computed, with [tac] to bring in what
    is known of the world. *)
Ltac run_step tac :=
  match goal with
  | |- context [server.run (?e :: ?schedule) ?w] =>
      let Hstep := fresh "Hstep" in
      eassert (server.step w e = server.Step _) as Hstep;
      [ world_simpl; tac; world_simpl; reflexivity
      | rewrite (run_cons _ _ _ _ Hstep); clear Hstep ]
  end.

Section NotificationRuns.
Import storage model graph server.
Context {S : Type} `{!Storage S} `{!MapRange}.

(** Where no subscription is being made or cleaned up, a step never ends
    in a fatal error, and the world it leads to is as quiet as the one
    before: the mutation and its notification only read the maps. *)
Lemma quiet_step (w : World S) (e : event) :
  quiet w →
  match step w e with
  | Step w' => quiet w'
  | Fatal _ _ => False
  | Disabled => True
  end.
Proof.
  intros [Hmu Hsubs Hmaps Hgs]. destruct e as [i|ch]; simpl.
  - destruct (goroutines w !! i) as [g|] eqn:Hg; [|done].
    pose proof (proj1 (Forall_lookup _ _) Hgs i g Hg) as Hnotifies.
    assert (∀ a m, maps w !! a = Some m → writing m = false) as Hflag.
    { intros a m Hm. exact (proj1 (Forall_lookup _ _) Hmaps a m Hm). }
    destruct g; try discriminate; simpl; unfold RLock, mapaccess;
      rewrite ?Hmu, ?Hsubs;
      repeat case_match; simplify_eq; try done;
      try (match goal with
           | Hm : _ !! _ = Some ?m, Hw : writing ?m = true |- _ =>
               rewrite (Hflag _ _ Hm) in Hw; discriminate
           end);
      (split; simpl; [done|done|done|]);
      (apply Forall_insert; [|done]); rewrite ?Forall_app; repeat split; try done;
      by repeat constructor.
  - destruct (chans w !! ch) as [q|]; [|done].
    destruct (buf q); [done|]. by split.
Qed.

(** While no subscription is made or cleaned up, no run ends in a fatal
    error, whatever the registry holds: however the steps of the mutations,
    of their notifications and of the subscribers' transports interleave. *)
Lemma quiet_run (schedule : list event) (w : World S) :
  quiet w →
  match run schedule w with
  | Step w' => quiet w'
  | Fatal _ _ => False
  | Disabled => True
  end.
Proof.
  revert w. induction schedule as [|e schedule IH]; intros w Hquiet; simpl; [done|].
  pose proof (quiet_step w e Hquiet) as Hstep.
  destruct (step w e) as [w'| |]; [by apply IH|done|done].
Qed.

(** C9. The creation of a comment is to be independent of the subscribers
    and never to fail on their account.  The mutation starts the
    notification under the read lock, but the goroutine it starts ranges
    over the post's map of subscribers without any lock, while
    [CommentAdded] writes to that very map under the write lock.  Whenever
    the store accepts the draft, the registry holds a subscriber of the
    comment's post, and a subscription to that post is requested at the
    same time, there is a run in which the runtime stops the process with
    "concurrent map iteration and map write": the comment is stored, and
    the mutation has not returned it.  From the same store and the same
    registry without that request no run ends in a fatal error. *)
Theorem notification_races_with_subscription
    (st st' : S) (input : NewComment) (uuid : string) (now : Time) (c : Comment.t)
    (post : Post.t) (subID : string)
    (registry : gomap addr) (inner : list (gomap addr)) (channels : list chan)
    (others : list goroutine) (postSubs : addr) (m : gomap addr) :
  storage.CreateComment st
    (Comment.mk "" (PostID input) (ParentID input) (AuthorID input) (Content input) 0)
    uuid now = (st', Ok c) →
  GetPostByID st (Comment.PostID c) = Ok post →
  writing registry = false →
  entries registry !! Comment.PostID c = Some postSubs →
  inner !! postSubs = Some m →
  Forall (λ m, writing m = false) inner →
  size (entries m) ≠ 0%nat →
  (∃ w,
     run (race (2 + length others))
       (mkWorld st (mkMutex 0 false) registry inner channels
          (CreateComment_store input uuid now
           :: CommentAdded_store (Comment.PostID c) subID :: others))
     = Fatal "concurrent map iteration and map write" w
     ∧ store w = st'
     ∧ goroutines w !! 0%nat = Some (CreateComment_return c)
     ∧ goroutines w !! 1%nat
       = Some (CommentAdded_assign_end (Comment.PostID c) subID (length channels)
                 postSubs))
  ∧ ∀ schedule msg w,
      run schedule
        (mkWorld st (mkMutex 0 false) registry inner channels
           [CreateComment_store input uuid now])
      ≠ Fatal msg w.
Proof.
  intros Hstore Hpost Hreg Hsubs Hinner Hflags Hsize.
  assert (writing m = false) as Hm.
  { exact (proj1 (Forall_lookup _ _) Hflags _ _ Hinner). }
  assert ((size (entries m) =? 0)%nat = false) as Hsize' by by apply Nat.eqb_neq.
  split.
  - unfold race.
    run_step ltac:(rewrite Hpost).
    run_step ltac:(rewrite Hstore).
    run_step idtac.
    run_step ltac:(rewrite Hreg, Hsubs).
    run_step idtac.
    run_step idtac.
    run_step ltac:(rewrite lookup_snoc; world_simpl; rewrite Hinner, Hsize', insert_snoc).
    run_step idtac.
    run_step ltac:(rewrite Hreg, Hsubs).
    run_step ltac:(rewrite Hreg, Hsubs).
    run_step ltac:(rewrite Hinner, Hm).
    eexists. split.
    + world_simpl. rewrite lookup_snoc. world_simpl.
      rewrite list_lookup_insert_eq by by eapply lookup_lt_Some.
      reflexivity.
    + by split_and!.
  - intros schedule msg w Hrun.
    pose proof (quiet_run schedule
                  (mkWorld st (mkMutex 0 false) registry inner channels
                     [CreateComment_store input uuid now])) as Hquiet.
    rewrite Hrun in Hquiet. apply Hquiet.
    split; simpl; [done|done|done|by repeat constructor].
Qed.

(** The mutation waits for nothing but the write lock: a step of it is
    possible unless it is about to take the read lock while a subscription
    or a cleanup holds the mutex; and it ends in a fatal error only when it
    reads [subs] while that map is being written.  No subscriber's channel
    can hold it up: it never touches one. *)
Lemma CreateComment_waits_for_writer_only (w : World S) (i : nat) (g : goroutine) :
  goroutines w !! i = Some g →
  in_CreateComment g = true →
  match step w (Run i) with
  | Step _ => True
  | Fatal _ _ => (∃ c, g = CreateComment_lookup c) ∧ writing (subs w) = true
  | Disabled => (∃ c, g = CreateComment_RLock c) ∧ writer (mu w) = true
  end.
Proof.
  intros Hg Hin. simpl. rewrite Hg.
  destruct g; try discriminate; simpl; unfold RLock, mapaccess;
    repeat case_match; simplify_eq; try done;
    try (match goal with
         | Hflag : _ && _ = true |- _ => apply andb_prop in Hflag as [Hflag _]
         end);
    by eauto.
Qed.

(** [select { case ch <- c: default: }] takes its step whatever the channel
    holds, and leaves in it no more than its capacity. *)
Lemma notify_select_never_waits
    (w : World S) (i : nat) (c : Comment.t) (postSubs : addr) (keys : list string)
    (ch : addr) (q : chan) :
  goroutines w !! i = Some (notify_select c postSubs keys ch) →
  chans w !! ch = Some q →
  (length (buf q) ≤ cap q)%nat →
  ∃ w' q',
    step w (Run i) = Step w'
    ∧ chans w' !! ch = Some q'
    ∧ (length (buf q') ≤ cap q')%nat
    ∧ (buf q' = buf q ∨ buf q' = buf q ++ [c])
    ∧ goroutines w' !! i = Some (notify_next c postSubs keys).
Proof.
  intros Hg Hq Hbound. simpl. rewrite Hg. simpl. rewrite Hq.
  eexists _, _. split; [reflexivity|]. simpl.
  rewrite !list_lookup_insert_eq by by eapply lookup_lt_Some.
  split_and!; try done.
  - unfold try_send. destruct (Nat.ltb_spec (length (buf q)) (cap q)); simpl; [|done].
    rewrite length_app. simpl. lia.
  - unfold try_send. destruct (length (buf q) <? cap q)%nat; simpl; auto.
Qed.

End NotificationRuns.

(** ** The database store: the batch lookup *)

Section PostgresBatch.
Import postgres.
Context `{!Sorter}.

Lemma group_by_parent_no_rows (rows : list Comment.t) (p : string)
    (acc : gmap string (list Comment.t)) :
  (∀ c, c ∈ rows → Comment.ParentID c ≠ Some p) →
  fold_left
    (λ result c,
       match Comment.ParentID c with
       | Some parentID =>
           <[parentID := (default [] (result !! parentID) ++ [c])%list]> result
       | None => result
       end)
    rows acc !! p
  = acc !! p.
Proof.
  revert acc. induction rows as [|c rows IH]; intros acc Hrows; simpl; [done|].
  rewrite IH.
  - destruct (Comment.ParentID c) as [parentID|] eqn:Hparent; [|done].
    rewrite lookup_insert_ne; [done|]. intros ->.
    apply (Hrows c); [left|done].
  - intros c' Hc'. apply Hrows. by right.
Qed.

(** Whatever the rows, a requested parent that no row names as its parent
    has no entry in the map the database store returns. *)
Lemma postgres_batch_no_entry_without_children s parentIDs p :
  (∀ c, c ∈ comments s → Comment.ParentID c ≠ Some p) →
  ∃ m, GetCommentsByParentIDs s parentIDs = Ok m ∧ m !! p = None.
Proof.
  intros Hnone. eexists. split; [reflexivity|].
  unfold group_by_parent. rewrite group_by_parent_no_rows; [apply lookup_empty|].
  intros c Hc. apply Hnone.
  rewrite sort_Slice_perm in Hc.
  apply list_elem_of_In, filter_In in Hc as [Hc _]. by apply list_elem_of_In.
Qed.

End PostgresBatch.

(** ** The two stores side by side, and the claims on concrete states *)

Section Examples.
Import storage inmemory postgres examples.

Lemma one_post_reachable : reachable one_post.
Proof. apply reachable_CreatePost, reachable_New. Qed.

Lemma same_instant_reachable : reachable same_instant.
Proof.
  cbv beta zeta delta [same_instant].
  apply reachable_CreateComment; [|reflexivity].
  apply reachable_CreateComment; [|reflexivity].
  apply one_post_reachable.
Qed.

Lemma with_reply_reachable : reachable with_reply.
Proof.
  cbv beta zeta delta [with_reply].
  apply reachable_CreateComment; [|reflexivity].
  apply reachable_CreateComment; [|reflexivity].
  apply one_post_reachable.
Qed.

(** C1. [CreateComment] is to fail with the first violated precondition in
    the order [PostNotFound], [CommentsDisabled], [InvalidBody],
    [ParentNotFound].  The in-memory store does
    ([inmemory_CreateComment_order]); the database store checks the body
    first: for a draft with a blank body against a post that does not
    exist it answers [InvalidBody], where the in-memory store answers
    [PostNotFound]. *)
Theorem postgres_CreateComment_checks_body_first :
  postgres.first_post pg_empty unknown = None
  ∧ postgres.CreateComment pg_empty (draft unknown None "   ") id_a (noon + 20)
    = (pg_empty, Err "comment content cannot be empty")
  ∧ failure (postgres.CreateComment pg_empty (draft unknown None "   ") id_a (noon + 20)).2
    = Some InvalidBody
  ∧ inmemory.posts inmemory.New !! unknown = None
  ∧ failure (inmemory.CreateComment inmemory.New (draft unknown None "   ") id_a (noon + 20)).2
    = Some PostNotFound.
Proof. split_and!; reflexivity. Qed.

Lemma CreateComment_failure_keeps_store_witness :
  (inmemory.CreateComment one_post (draft P (Some unknown) "hello") id_a (noon + 20)).2
  = Err "parent comment not found"
  ∧ (inmemory.CreateComment one_post (draft P (Some unknown) "hello") id_a (noon + 20)).1
    = one_post.
Proof.
  split; [reflexivity|].
  apply (CreateComment_failure_keeps_store one_post
           (draft P (Some unknown) "hello") id_a (noon + 20) "parent comment not found").
  reflexivity.
Defined.

(** A body of 2001 bytes whose trimmed form is the single byte [a] is
    rejected as too long: the length checked is that of the body as given. *)
Lemma padded_body_rejected_for_length :
  Post.CommentsEnabled <$> inmemory.posts one_post !! P = Some true
  ∧ TrimSpace padded_body = "a"
  ∧ strlen (TrimSpace padded_body) = 1
  ∧ inmemory.CreateComment one_post (draft P None padded_body) id_a (noon + 20)
    = (one_post, Err "comment content is too long")
  ∧ ¬ (failure (inmemory.CreateComment one_post (draft P None padded_body) id_a (noon + 20)).2
       = Some InvalidBody
       ↔ TrimSpace padded_body = "" ∨ 2000 < strlen (TrimSpace padded_body)).
Proof.
  assert (TrimSpace padded_body = "a") as Htrim by (vm_compute; reflexivity).
  assert (inmemory.CreateComment one_post (draft P None padded_body) id_a (noon + 20)
          = (one_post, Err "comment content is too long")) as Hcall
    by (vm_compute; reflexivity).
  split_and!; [reflexivity|exact Htrim|by rewrite Htrim|exact Hcall|].
  rewrite Hcall, Htrim. simpl. intros [Hfail _].
  destruct (Hfail eq_refl) as [?|Hlen]; [done|]. vm_compute in Hlen. done.
Qed.

Lemma CreateComment_InvalidBody_iff_witness :
  failure (inmemory.CreateComment one_post (draft P None padded_body) id_a (noon + 20)).2
  = Some InvalidBody
  ↔ 2000 < strlen padded_body ∨ TrimSpace padded_body = "".
Proof.
  apply (proj1 CreateComment_InvalidBody_iff one_post (draft P None padded_body)
           id_a (noon + 20) post_P);
    reflexivity.
Defined.

Lemma Children_hasNextPage_iff_witness :
  ∃ page,
    graph.Children with_reply first_comment (Some 1) None = Ok page
    ∧ (model.PageInfo.HasNextPage (model.PageInfo page) = true
       ↔ 1 < len (remaining None (child_comments with_reply id_b)))
    ∧ len (model.Edges page)
      = Z.min 1 (len (remaining None (child_comments with_reply id_b)))
    ∧ model.Node <$> model.Edges page
      = take 1 (remaining None (child_comments with_reply id_b)).
Proof.
  apply (Children_hasNextPage_iff with_reply first_comment (Some 1) None).
  - simpl. lia.
  - unfold GraphQLInt. simpl. lia.
  - vm_compute. discriminate.
Defined.

Lemma Comments_two_pages_prefix_witness :
  ∃ p1 p2,
    graph.Comments same_instant post_P (Some 1) None = Ok p1
    ∧ graph.Comments same_instant post_P (Some 1)
        (model.PageInfo.EndCursor (model.PageInfo p1)) = Ok p2
    ∧ model.Node <$> model.Edges p1 = take 1 (root_comments same_instant P)
    ∧ model.Node <$> model.Edges p2
      = take 1 (drop (length (model.Node <$> model.Edges p1))
                  (root_comments same_instant P)).
Proof.
  destruct (Comments_two_pages_prefix same_instant post_P 1 1) as [Hpages Hcontents].
  - apply same_instant_reachable.
  - unfold GraphQLInt. lia.
  - unfold GraphQLInt. lia.
  - vm_compute. discriminate.
  - destruct Hpages as (p1 & p2 & Hp1 & Hp2); [lia|lia|].
    destruct (Hcontents p1 p2 Hp1 Hp2) as (Hfirst & Hsecond & _).
    exists p1, p2. split_and!; [exact Hp1|exact Hp2|exact Hfirst|exact Hsecond].
Defined.

(** The pages of that example: [b], then [a]. *)
Lemma same_instant_pages :
  graph.Comments same_instant post_P (Some 1) None
  = Ok (connection_of (mkPage [first_comment] true (Some id_b)))
  ∧ graph.Comments same_instant post_P (Some 1) (Some id_b)
    = Ok (connection_of (mkPage [second_comment] false (Some id_a))).
Proof. split; vm_compute; reflexivity. Qed.

(** The two siblings were created at the same instant; the one listed
    first has the greater identifier. *)
Lemma equal_timestamps_not_ordered_by_id :
  reachable same_instant
  ∧ inmemory.GetCommentsByPostID same_instant P (mkArgs 10 None)
    = Ok [first_comment; second_comment]
  ∧ Comment.CreatedAt first_comment = Comment.CreatedAt second_comment
  ∧ ¬ StronglySorted created_then_id [first_comment; second_comment].
Proof.
  split_and!; [apply same_instant_reachable|vm_compute; reflexivity|reflexivity|].
  intros Hsorted. apply StronglySorted_inv in Hsorted as [_ Hhead].
  apply Forall_inv in Hhead. destruct Hhead as [Hlt|[_ Hle]].
  - vm_compute in Hlt. discriminate.
  - vm_compute in Hle. discriminate.
Qed.

Lemma listings_sorted_by_creation_time_witness :
  StronglySorted created_le [first_comment; second_comment].
Proof.
  apply (proj1 (listings_sorted_by_creation_time same_instant) P (mkArgs 10 None)).
  vm_compute. reflexivity.
Defined.

Lemma listing_unknown_target_is_empty_witness :
  inmemory.GetCommentsByPostID same_instant Q (mkArgs 10 None) = Ok []
  ∧ inmemory.GetCommentsByParentID same_instant unknown (mkArgs 10 (Some id_b)) = Ok [].
Proof.
  split.
  - apply (listing_unknown_target_is_empty same_instant Q (mkArgs 10 None));
      [apply same_instant_reachable|reflexivity].
  - apply (listing_unknown_target_is_empty same_instant unknown (mkArgs 10 (Some id_b)));
      [apply same_instant_reachable|reflexivity].
Defined.

(** C6. The batch lookup is to return one entry per requested parent, an
    empty list for a parent without children.  The in-memory store does
    ([GetCommentsByParentIDs_entries]); the database store builds its map
    from the rows found, so a parent without children has no entry: asked
    for the children of [c1] and [c2], which have none, it returns the empty
    map. *)
Theorem postgres_batch_omits_childless_parents :
  (∃ c, postgres.GetCommentByID pg_two_posts id_c1 = Ok c)
  ∧ postgres.GetCommentsByParentID pg_two_posts id_c1 (mkArgs 10 None) = Ok []
  ∧ ∃ m, postgres.GetCommentsByParentIDs pg_two_posts [id_c1; id_c2] = Ok m
         ∧ size m = 0%nat
         ∧ m !! id_c1 = None.
Proof.
  split_and!.
  - eexists. vm_compute. reflexivity.
  - vm_compute. reflexivity.
  - exists ∅. split_and!; [vm_compute; reflexivity|reflexivity|reflexivity].
Qed.

(** The in-memory store on the like state: an entry with the empty list
    for each of the two. *)
Lemma inmemory_batch_keeps_childless_parents :
  ∃ m, inmemory.GetCommentsByParentIDs same_instant [id_b; id_a] = Ok m
       ∧ size m = 2%nat
       ∧ m !! id_b = Some []
       ∧ m !! id_a = Some [].
Proof.
  eexists. split; [reflexivity|].
  split_and!; vm_compute; reflexivity.
Qed.

(** C7. A cursor that is the identifier of no candidate is to be treated as
    no cursor.  The in-memory store does
    ([GetCommentsByPostID_unknown_cursor]); the database store looks the
    cursor up among all comments: the cursor [id_x], a comment of another
    post, makes the listing of the root comments of [P] start after the
    creation time of that comment, and [pg_c1] is left out. *)
Theorem postgres_foreign_cursor_filters :
  postgres.GetCommentsByPostID pg_two_posts P (mkArgs 10 None) = Ok [pg_c1; pg_c2]
  ∧ (id_x ∉ Comment.ID <$> [pg_c1; pg_c2])
  ∧ postgres.GetCommentsByPostID pg_two_posts P (mkArgs 10 (Some id_x)) = Ok [pg_c2].
Proof.
  split_and!; [vm_compute; reflexivity| |vm_compute; reflexivity].
  intros Hin. apply list_elem_of_In in Hin. simpl in Hin.
  destruct Hin as [?|[?|[]]]; discriminate.
Qed.

(** A cursor that no comment has is lenient in the database store, too. *)
Lemma postgres_unknown_cursor :
  postgres.GetCommentsByPostID pg_two_posts P (mkArgs 10 (Some unknown))
  = postgres.GetCommentsByPostID pg_two_posts P (mkArgs 10 None).
Proof. vm_compute. reflexivity. Qed.

(** The mutation with a subscriber whose channel is full: the comment is
    dropped for that subscriber, delivered to the other, and returned. *)
Lemma CreateComment_with_busy_subscriber :
  let '(st, o, r) :=
    graph.CreateComment one_post busy_observer
      (model.mkNewComment P None "user-2" "second") id_a (noon + 20) in
  r = Ok second_comment
  ∧ graph.buf <$> (graph.subs o !! P ≫= lookup sub_1) = Some [first_comment]
  ∧ graph.buf <$> (graph.subs o !! P ≫= lookup sub_2) = Some [second_comment].
Proof. vm_compute. split_and!; reflexivity. Qed.

(** [subscribed] is where the server gets to from [subscribing] when the
    first subscription runs to its return. *)
Lemma subscribing_subscribed :
  server.run (replicate 11 (server.Run 2)) subscribing = server.Step subscribed.
Proof. vm_compute. reflexivity. Qed.

(** The first subscription is made; then the comment is created while the
    second subscription is being made. *)
Lemma notification_races_with_subscription_witness :
  ∃ w,
    server.run (replicate 11 (server.Run 2) ++ race 4) subscribing
    = server.Fatal "concurrent map iteration and map write" w
    ∧ server.goroutines w !! 0%nat = Some (server.CreateComment_return first_comment).
Proof.
  rewrite run_app, subscribing_subscribed.
  destruct (notification_races_with_subscription one_post
              (inmemory.CreateComment one_post (draft P None "first") id_b (noon + 20)).1
              (model.mkNewComment P None "user-2" "first") id_b (noon + 20)
              first_comment post_P sub_2
              (server.mkMap {[ P := 0%nat ]} false)
              [server.mkMap {[ sub_1 := 0%nat ]} false]
              [graph.mkChan 1 []]
              [server.CommentAdded_returned (Ok 0%nat); server.cleanup_Done P sub_1]
              0%nat (server.mkMap {[ sub_1 := 0%nat ]} false))
    as [(w & Hrun & _ & Hmutation & _) _].
  - vm_compute. reflexivity.
  - vm_compute. reflexivity.
  - reflexivity.
  - vm_compute. reflexivity.
  - reflexivity.
  - by repeat constructor.
  - vm_compute. discriminate.
  - exists w. split; [exact Hrun|exact Hmutation].
Defined.

End Examples.

(** * Further properties *)

(** ** The in-memory store: integrity of reachable states *)

Section IntegrityProofs.
Import inmemory.

Lemma consistent_New : consistent New.
Proof. split; simpl; intros *; rewrite lookup_empty; done. Qed.

Lemma consistent_CreatePost s post uuid now :
  consistent s → consistent (CreatePost s post uuid now).1.
Proof.
  intros [H1 H2 H3 H4 H5 H6 H7 H8]. split; simpl; try done.
  - intros id p Hp. destruct (decide (uuid = id)) as [->|Hne].
    + rewrite lookup_insert_eq in Hp. by simplify_eq.
    + rewrite lookup_insert_ne in Hp by done. by apply H1.
  - intros id c Hc. apply lookup_insert_is_Some_keep. by eapply H2.
Qed.

Lemma consistent_ToggleComments s postID enable :
  consistent s → consistent (ToggleComments s postID enable).1.
Proof.
  intros Hs. unfold ToggleComments.
  destruct (posts s !! postID) as [post|] eqn:Hpost; [|done].
  destruct Hs as [H1 H2 H3 H4 H5 H6 H7 H8]. split; simpl; try done.
  - intros id p Hp. destruct (decide (postID = id)) as [->|Hne].
    + rewrite lookup_insert_eq in Hp. simplify_eq. simpl. by apply H1.
    + rewrite lookup_insert_ne in Hp by done. by apply H1.
  - intros id c Hc. apply lookup_insert_is_Some_keep. by eapply H2.
Qed.

(** An identifier listed in an index slice is not the fresh one. *)
Lemma indexed_not_fresh (cs : gmap string Comment.t) (uuid id : string) (c : Comment.t) :
  cs !! uuid = None → cs !! id = Some c → uuid ≠ id.
Proof. intros Hfresh Hc ->. congruence. Qed.

Lemma consistent_inserted s comment uuid now post :
  consistent s →
  comments s !! uuid = None →
  posts s !! Comment.PostID comment = Some post →
  body_error (Comment.Content comment) = None →
  parent_missing s comment = false →
  consistent (inserted s comment uuid now).1.
Proof.
  intros [H1 H2 H3 H4 H5 H6 H7 H8] Hfresh Hp Hb Hm.
  unfold inserted, parent_missing in *.
  destruct (Comment.ParentID comment) as [parentID|] eqn:Hparent; simpl.
  - destruct (comments s !! parentID) as [parent|] eqn:Hpar; [|done].
    split; simpl.
    + done.
    + intros id c Hc. destruct (decide (uuid = id)) as [->|Hne].
      * rewrite lookup_insert_eq in Hc. simplify_eq. simpl. by eexists.
      * rewrite lookup_insert_ne in Hc by done. by eapply H2.
    + intros id c p Hc Hcp. apply lookup_insert_is_Some_keep.
      destruct (decide (uuid = id)) as [->|Hne].
      * rewrite lookup_insert_eq in Hc. simplify_eq. simpl in Hcp. simplify_eq.
        by eexists.
      * rewrite lookup_insert_ne in Hc by done. by eapply H3.
    + intros id c Hc. destruct (decide (uuid = id)) as [->|Hne].
      * rewrite lookup_insert_eq in Hc. by simplify_eq.
      * rewrite lookup_insert_ne in Hc by done. by eapply H4.
    + intros id c Hc Hroot. destruct (decide (uuid = id)) as [->|Hne].
      * rewrite lookup_insert_eq in Hc. by simplify_eq.
      * rewrite lookup_insert_ne in Hc by done. by eapply H5.
    + intros id c p Hc Hcp. destruct (decide (uuid = id)) as [->|Hne].
      * rewrite lookup_insert_eq in Hc. simplify_eq. simpl in Hcp. simplify_eq.
        rewrite lookup_insert_eq. eexists. split; [done|].
        apply elem_of_app. right. by apply list_elem_of_singleton.
      * rewrite lookup_insert_ne in Hc by done.
        destruct (H6 id c p Hc Hcp) as (ids & Hids & Hin).
        destruct (decide (parentID = p)) as [->|Hnp].
        -- rewrite lookup_insert_eq, Hids. simpl. eexists. split; [done|].
           apply elem_of_app. by left.
        -- rewrite lookup_insert_ne by done. by eexists.
    + intros k ids id Hids Hin.
      destruct (H7 k ids id Hids Hin) as (c & Hc & Hk & Hroot).
      exists c. rewrite lookup_insert_ne; [done|]. by eapply indexed_not_fresh.
    + intros k ids id Hids Hin. destruct (decide (parentID = k)) as [->|Hnk].
      * rewrite lookup_insert_eq in Hids. simplify_eq.
        apply elem_of_app in Hin as [Hin|Hin].
        -- destruct (commentsByParent s !! k) as [old|] eqn:Hold; simpl in Hin;
             [|by apply elem_of_nil in Hin].
           destruct (H8 k old id Hold Hin) as (c & Hc & Hk).
           exists c. rewrite lookup_insert_ne; [done|]. by eapply indexed_not_fresh.
        -- apply list_elem_of_singleton in Hin as ->.
           rewrite lookup_insert_eq. by eexists.
      * rewrite lookup_insert_ne in Hids by done.
        destruct (H8 k ids id Hids Hin) as (c & Hc & Hk).
        exists c. rewrite lookup_insert_ne; [done|]. by eapply indexed_not_fresh.
  - split; simpl.
    + done.
    + intros id c Hc. destruct (decide (uuid = id)) as [->|Hne].
      * rewrite lookup_insert_eq in Hc. simplify_eq. simpl. by eexists.
      * rewrite lookup_insert_ne in Hc by done. by eapply H2.
    + intros id c p Hc Hcp. apply lookup_insert_is_Some_keep.
      destruct (decide (uuid = id)) as [->|Hne].
      * rewrite lookup_insert_eq in Hc. simplify_eq; try (simpl in *; congruence).
      * rewrite lookup_insert_ne in Hc by done. by eapply H3.
    + intros id c Hc. destruct (decide (uuid = id)) as [->|Hne].
      * rewrite lookup_insert_eq in Hc. by simplify_eq.
      * rewrite lookup_insert_ne in Hc by done. by eapply H4.
    + intros id c Hc Hroot. destruct (decide (uuid = id)) as [->|Hne].
      * rewrite lookup_insert_eq in Hc. simplify_eq. simpl.
        rewrite lookup_insert_eq. eexists. split; [done|].
        apply elem_of_app. right. by apply list_elem_of_singleton.
      * rewrite lookup_insert_ne in Hc by done.
        destruct (H5 id c Hc Hroot) as (ids & Hids & Hin).
        destruct (decide (Comment.PostID comment = Comment.PostID c)) as [Heq|Hnp].
        -- rewrite Heq, lookup_insert_eq, Hids. simpl. eexists. split; [done|].
           apply elem_of_app. by left.
        -- rewrite lookup_insert_ne by done. by eexists.
    + intros id c p Hc Hcp. destruct (decide (uuid = id)) as [->|Hne].
      * rewrite lookup_insert_eq in Hc. simplify_eq; try (simpl in *; congruence).
      * rewrite lookup_insert_ne in Hc by done. by eapply H6.
    + intros k ids id Hids Hin.
      destruct (decide (Comment.PostID comment = k)) as [<-|Hnk].
      * rewrite lookup_insert_eq in Hids. simplify_eq.
        apply elem_of_app in Hin as [Hin|Hin].
        -- destruct (commentsByPost s !! Comment.PostID comment) as [old|] eqn:Hold;
             simpl in Hin; [|by apply elem_of_nil in Hin].
           destruct (H7 _ old id Hold Hin) as (c & Hc & Hk & Hroot).
           exists c. rewrite lookup_insert_ne; [done|]. by eapply indexed_not_fresh.
        -- apply list_elem_of_singleton in Hin as ->.
           rewrite lookup_insert_eq. by eexists.
      * rewrite lookup_insert_ne in Hids by done.
        destruct (H7 k ids id Hids Hin) as (c & Hc & Hk & Hroot).
        exists c. rewrite lookup_insert_ne; [done|]. by eapply indexed_not_fresh.
    + intros k ids id Hids Hin.
      destruct (H8 k ids id Hids Hin) as (c & Hc & Hk).
      exists c. rewrite lookup_insert_ne; [done|]. by eapply indexed_not_fresh.
Qed.

Lemma consistent_CreateComment s comment uuid now :
  consistent s → comments s !! uuid = None →
  consistent (CreateComment s comment uuid now).1.
Proof.
  intros Hs Hfresh.
  destruct (CreateComment_cases s comment uuid now)
    as [(e & -> & _)|(post & Hp & _ & Hb & Hm & ->)]; [done|].
  simpl. by eapply consistent_inserted.
Qed.

Lemma reachable_consistent s : reachable s → consistent s.
Proof.
  induction 1; auto using consistent_New, consistent_CreatePost,
    consistent_ToggleComments, consistent_CreateComment.
Qed.

End IntegrityProofs.

Section InMemoryIntegrityTheorems.
Import storage inmemory.
Context `{!Sorter}.

(** X1. In every reachable state of the in-memory store a stored comment
    is stored under its own identifier, names a stored post, names as
    parent (when it has one) a stored comment, and has a body of at most
    2000 bytes that is not blank; a stored post is stored under its own
    identifier. *)
Theorem stored_comments_well_formed (s : Store) (id : string) (c : Comment.t) :
  reachable s →
  comments s !! id = Some c →
  Comment.ID c = id
  ∧ (∃ post, GetPostByID s (Comment.PostID c) = Ok post
             ∧ Post.ID post = Comment.PostID c)
  ∧ (∀ parentID, Comment.ParentID c = Some parentID →
       ∃ parent, GetCommentByID s parentID = Ok parent
                 ∧ Comment.ID parent = parentID)
  ∧ strlen (Comment.Content c) ≤ 2000
  ∧ TrimSpace (Comment.Content c) ≠ "".
Proof.
  intros Hreach Hc.
  pose proof (reachable_wf s Hreach) as Hwf.
  pose proof (reachable_consistent s Hreach) as Hcons.
  split_and!.
  - by eapply wf_key.
  - destruct (comment_post s Hcons id c Hc) as [post Hpost].
    exists post. unfold GetPostByID. rewrite Hpost. split; [done|].
    by eapply posts_keyed.
  - intros parentID Hparent.
    destruct (comment_parent s Hcons id c parentID Hc Hparent) as [parent Hpar].
    exists parent. unfold GetCommentByID. rewrite Hpar. split; [done|].
    by eapply wf_key.
  - by apply (body_error_None (Comment.Content c)), (comment_body s Hcons id).
  - by apply (body_error_None (Comment.Content c)), (comment_body s Hcons id).
Qed.

Lemma elem_of_allComments s (ids : list string) c :
  c ∈ allComments s ids ↔ ∃ id, id ∈ ids ∧ comments s !! id = Some c.
Proof. rewrite (allComments_perm s ids). apply list_elem_of_omap. Qed.

Lemma root_comments_exact s postID c :
  reachable s →
  c ∈ root_comments s postID
  ↔ comments s !! Comment.ID c = Some c
    ∧ Comment.PostID c = postID ∧ Comment.ParentID c = None.
Proof.
  intros Hreach.
  pose proof (reachable_wf s Hreach) as Hwf.
  pose proof (reachable_consistent s Hreach) as Hcons.
  unfold root_comments. rewrite elem_of_allComments. split.
  - intros (id & Hin & Hc).
    destruct (commentsByPost s !! postID) as [ids|] eqn:Hids; simpl in Hin;
      [|by apply elem_of_nil in Hin].
    destruct (post_index_sound s Hcons postID ids id Hids Hin) as (c' & Hc' & Hk & Hroot).
    simplify_eq. by rewrite (wf_key s Hwf id c Hc).
  - intros (Hc & Hk & Hroot).
    destruct (root_indexed s Hcons _ c Hc Hroot) as (ids & Hids & Hin).
    exists (Comment.ID c). rewrite Hk in Hids. by rewrite Hids.
Qed.

Lemma child_comments_exact s parentID c :
  reachable s →
  c ∈ child_comments s parentID
  ↔ comments s !! Comment.ID c = Some c ∧ Comment.ParentID c = Some parentID.
Proof.
  intros Hreach.
  pose proof (reachable_wf s Hreach) as Hwf.
  pose proof (reachable_consistent s Hreach) as Hcons.
  unfold child_comments. rewrite elem_of_allComments. split.
  - intros (id & Hin & Hc).
    destruct (commentsByParent s !! parentID) as [ids|] eqn:Hids; simpl in Hin;
      [|by apply elem_of_nil in Hin].
    destruct (parent_index_sound s Hcons parentID ids id Hids Hin) as (c' & Hc' & Hk).
    simplify_eq. by rewrite (wf_key s Hwf id c Hc).
  - intros (Hc & Hk).
    destruct (child_indexed s Hcons _ c parentID Hc Hk) as (ids & Hids & Hin).
    exists (Comment.ID c). by rewrite Hids.
Qed.

(** A listing with no cursor and a limit that covers the index slice
    returns the whole sibling list. *)
Lemma GetCommentsByPostID_unpaginated s postID n :
  len (default [] (commentsByPost s !! postID)) ≤ n →
  len (default [] (commentsByPost s !! postID)) + n ≤ int_max →
  GetCommentsByPostID s postID (mkArgs n None) = Ok (root_comments s postID).
Proof.
  intros Hn Hfit.
  pose proof (len_nonneg (default [] (commentsByPost s !! postID))).
  rewrite GetCommentsByPostID_spec by lia. simpl.
  rewrite take_ge; [done|].
  pose proof (allComments_len s (default [] (commentsByPost s !! postID))).
  unfold root_comments, len in *. lia.
Qed.

Lemma GetCommentsByParentID_unpaginated s parentID n :
  len (default [] (commentsByParent s !! parentID)) ≤ n →
  len (default [] (commentsByParent s !! parentID)) + n ≤ int_max →
  GetCommentsByParentID s parentID (mkArgs n None) = Ok (child_comments s parentID).
Proof.
  intros Hn Hfit.
  pose proof (len_nonneg (default [] (commentsByParent s !! parentID))).
  rewrite GetCommentsByParentID_spec by lia. simpl.
  rewrite take_ge; [done|].
  pose proof (allComments_len s (default [] (commentsByParent s !! parentID))).
  unfold child_comments, len in *. lia.
Qed.

(** X2. In every reachable state of the in-memory store, listing the root
    comments of a post with no cursor and a limit no smaller than the
    number of its root comments returns exactly the stored comments that
    name this post and have no parent; listing the children of a comment
    in the same way returns exactly the stored comments whose parent it
    is. *)
Theorem listings_hold_exactly_the_siblings (s : Store) (k : string) (n : Z) :
  reachable s →
  len (default [] (commentsByPost s !! k)) ≤ n →
  len (default [] (commentsByParent s !! k)) ≤ n →
  n < 2 ^ 62 →
  (∃ roots, GetCommentsByPostID s k (mkArgs n None) = Ok roots
     ∧ ∀ c, c ∈ roots
            ↔ comments s !! Comment.ID c = Some c
              ∧ Comment.PostID c = k ∧ Comment.ParentID c = None)
  ∧ (∃ children, GetCommentsByParentID s k (mkArgs n None) = Ok children
       ∧ ∀ c, c ∈ children
              ↔ comments s !! Comment.ID c = Some c
                ∧ Comment.ParentID c = Some k).
Proof.
  intros Hreach Hroots Hchildren Hn. split.
  - exists (root_comments s k). split.
    + apply GetCommentsByPostID_unpaginated; [done|]. unfold int_max. lia.
    + intros c. by apply root_comments_exact.
  - exists (child_comments s k). split.
    + apply GetCommentsByParentID_unpaginated; [done|]. unfold int_max. lia.
    + intros c. by apply child_comments_exact.
Qed.

(** Whatever the pagination arguments, a listing returns siblings only. *)
Lemma paginateComments_subset s ids args l c :
  paginateComments s ids args = Ok l → c ∈ l → c ∈ allComments s ids.
Proof.
  unfold paginateComments. intros Hl Hc.
  destruct (len (allComments s ids) <=? _).
  - injection Hl as <-. by apply elem_of_nil in Hc.
  - unfold slice in Hl. destruct (_ && _ && _); [|done]. injection Hl as <-.
    by apply subseteq_take, subseteq_drop in Hc.
Qed.

(** X3. In every reachable state, for a stored comment the [Parent]
    resolver never fails: it returns no parent for a root comment and, for
    a reply, the stored comment whose identifier the reply names; and every
    comment listed among the children of a comment, under any pagination
    arguments, has that comment as its [Parent]. *)
Theorem Parent_of_stored_comment (s : Store) (id : string) (c : Comment.t) :
  reachable s →
  comments s !! id = Some c →
  match Comment.ParentID c with
  | None => graph.Parent s c = Ok None
  | Some parentID =>
      ∃ parent, graph.Parent s c = Ok (Some parent)
                ∧ Comment.ID parent = parentID
                ∧ comments s !! parentID = Some parent
                ∧ ∀ args children,
                    GetCommentsByParentID s parentID args = Ok children →
                    ∀ child, child ∈ children →
                      graph.Parent s child = Ok (Some parent)
  end.
Proof.
  intros Hreach Hc.
  pose proof (reachable_wf s Hreach) as Hwf.
  pose proof (reachable_consistent s Hreach) as Hcons.
  unfold graph.Parent. simpl.
  destruct (Comment.ParentID c) as [parentID|] eqn:Hparent; [|done].
  destruct (comment_parent s Hcons id c parentID Hc Hparent) as [parent Hpar].
  exists parent. unfold GetCommentByID. rewrite Hpar. simpl.
  split_and!; [done|by eapply wf_key|done|].
  intros args children Hchildren child Hchild.
  assert (child ∈ child_comments s parentID) as Hin.
  { unfold GetCommentsByParentID, child_comments in *.
    destruct (commentsByParent s !! parentID) as [ids|]; simpl.
    - by eapply paginateComments_subset.
    - injection Hchildren as <-. by apply elem_of_nil in Hchild. }
  apply child_comments_exact in Hin as [_ Hk]; [|done].
  by rewrite Hk, Hpar.
Qed.

End InMemoryIntegrityTheorems.

(** ** The in-memory store: how the operations compose *)

Section InMemoryComposition.
Import storage inmemory.
Context `{!Sorter}.

(** X4. When the in-memory [CreateComment] succeeds with a fresh
    identifier, the comment it returns is the draft with the identifier and
    the time filled in; [GetCommentByID] finds it under that identifier and
    finds every other identifier as before; the store holds one comment
    more, and the posts are untouched. *)
Theorem CreateComment_round_trip
    (s : Store) (draft : Comment.t) (uuid : string) (now : Time) (c : Comment.t) :
  comments s !! uuid = None →
  (CreateComment s draft uuid now).2 = Ok c →
  c = Comment.mk uuid (Comment.PostID draft) (Comment.ParentID draft)
        (Comment.AuthorID draft) (Comment.Content draft) now
  ∧ GetCommentByID (CreateComment s draft uuid now).1 uuid = Ok c
  ∧ (∀ id, id ≠ uuid →
       GetCommentByID (CreateComment s draft uuid now).1 id = GetCommentByID s id)
  ∧ size (comments (CreateComment s draft uuid now).1) = S (size (comments s))
  ∧ posts (CreateComment s draft uuid now).1 = posts s.
Proof.
  intros Hfresh.
  destruct (CreateComment_cases s draft uuid now)
    as [(e & -> & _)|(post & _ & _ & _ & _ & ->)]; simpl; [done|].
  intros [= <-]. unfold inserted, GetCommentByID.
  destruct (Comment.ParentID draft); simpl;
    (split_and!;
     [done
     |by rewrite lookup_insert_eq
     |by intros id Hne; rewrite lookup_insert_ne
     |by apply map_size_insert_None
     |done]).
Qed.

Lemma omap_insert_fresh (cs : gmap string Comment.t) (uuid : string) (c : Comment.t)
    (ids : list string) :
  uuid ∉ ids →
  omap (λ id, <[uuid := c]> cs !! id) ids = omap (λ id, cs !! id) ids.
Proof.
  intros Hnot. apply list_omap_ext. apply Forall2_same_length_lookup_2; [done|].
  intros i x y Hx Hy. simplify_eq. rewrite lookup_insert_ne; [done|].
  intros ->. apply Hnot. by eapply list_elem_of_lookup_2.
Qed.

Lemma index_not_fresh (cs : gmap string Comment.t) (index : gmap string (list string))
    (uuid k : string) :
  index_ok cs index → cs !! uuid = None → uuid ∉ default [] (index !! k).
Proof.
  intros Hok Hfresh Hin. destruct (index !! k) as [ids|] eqn:Hids; simpl in Hin.
  - destruct (Hok k ids Hids) as [_ Hsome]. destruct (Hsome uuid Hin). congruence.
  - by apply elem_of_nil in Hin.
Qed.

Lemma allComments_insert_fresh s s' ids uuid c :
  comments s' = <[uuid := c]> (comments s) →
  uuid ∉ ids →
  allComments s' ids = allComments s ids.
Proof.
  intros Hs' Hnot. unfold allComments. by rewrite Hs', omap_insert_fresh.
Qed.

Lemma allComments_insert_last s s' ids uuid c :
  comments s' = <[uuid := c]> (comments s) →
  uuid ∉ ids →
  allComments s' (ids ++ [uuid]) ≡ₚ allComments s ids ++ [c].
Proof.
  intros Hs' Hnot.
  rewrite (allComments_perm s' (ids ++ [uuid])), (allComments_perm s ids).
  rewrite omap_app, Hs', omap_insert_fresh by done. csimpl.
  by rewrite lookup_insert_eq.
Qed.

(** X5. In a reachable state, after [CreateComment] has succeeded with a
    fresh identifier, the new comment is one more sibling where it
    belongs, and nothing else moves: a comment without parent joins the
    root comments of its post, a reply joins the children of its parent;
    the root comments of every other post and the children of every other
    comment are listed as before. *)
Theorem CreateComment_then_listed
    (s : Store) (draft : Comment.t) (uuid : string) (now : Time) (c : Comment.t) :
  reachable s →
  comments s !! uuid = None →
  (CreateComment s draft uuid now).2 = Ok c →
  match Comment.ParentID draft with
  | None =>
      root_comments (CreateComment s draft uuid now).1 (Comment.PostID draft)
      ≡ₚ root_comments s (Comment.PostID draft) ++ [c]
      ∧ (∀ k, k ≠ Comment.PostID draft →
           root_comments (CreateComment s draft uuid now).1 k = root_comments s k)
      ∧ ∀ k, child_comments (CreateComment s draft uuid now).1 k = child_comments s k
  | Some parentID =>
      child_comments (CreateComment s draft uuid now).1 parentID
      ≡ₚ child_comments s parentID ++ [c]
      ∧ (∀ k, k ≠ parentID →
           child_comments (CreateComment s draft uuid now).1 k = child_comments s k)
      ∧ ∀ k, root_comments (CreateComment s draft uuid now).1 k = root_comments s k
  end.
Proof.
  intros Hwf%reachable_wf Hfresh.
  destruct (CreateComment_cases s draft uuid now)
    as [(e & -> & _)|(post & _ & _ & _ & _ & ->)]; simpl; [done|].
  intros [= <-].
  pose proof (λ k, index_not_fresh _ _ uuid k (wf_post_ids s Hwf) Hfresh) as Hroot.
  pose proof (λ k, index_not_fresh _ _ uuid k (wf_parent_ids s Hwf) Hfresh) as Hchild.
  unfold inserted, root_comments, child_comments.
  destruct (Comment.ParentID draft) as [parentID|]; simpl; split_and!.
  - rewrite lookup_insert_eq. simpl. by apply allComments_insert_last.
  - intros k Hk. rewrite lookup_insert_ne by done.
    by eapply allComments_insert_fresh.
  - intros k. by eapply allComments_insert_fresh.
  - rewrite lookup_insert_eq. simpl. by apply allComments_insert_last.
  - intros k Hk. rewrite lookup_insert_ne by done.
    by eapply allComments_insert_fresh.
  - intros k. by eapply allComments_insert_fresh.
Qed.

(** X6. A post created through the mutation resolver has an identifier and
    a creation time of its own and comments enabled, whatever the input;
    [GetPostByID] finds it, and a comment without parent and with a valid
    body can be created on it at once. *)
Theorem created_post_accepts_comments
    (s : Store) (input : model.NewPost.t) (uuid : string) (now : Time)
    (draft : Comment.t) (uuid' : string) (now' : Time) :
  Comment.PostID draft = uuid →
  Comment.ParentID draft = None →
  strlen (Comment.Content draft) ≤ 2000 →
  TrimSpace (Comment.Content draft) ≠ "" →
  ∃ post c,
    (graph.CreatePost s input uuid now).2 = Ok post
    ∧ post = Post.mk uuid (model.NewPost.Title input) (model.NewPost.Content input)
               (model.NewPost.AuthorID input) true now
    ∧ GetPostByID (graph.CreatePost s input uuid now).1 uuid = Ok post
    ∧ (CreateComment (graph.CreatePost s input uuid now).1 draft uuid' now').2 = Ok c.
Proof.
  intros Hpost Hparent Hlen Htrim. eexists _, _. split_and!.
  - reflexivity.
  - reflexivity.
  - unfold GetPostByID. simpl. by rewrite lookup_insert_eq.
  - erewrite CreateComment_ok;
      [reflexivity
      |simpl; rewrite Hpost; apply lookup_insert_eq
      |done
      |by apply body_error_None
      |unfold parent_missing; by rewrite Hparent].
Qed.

(** X7. The [ToggleComments] resolver on the in-memory store: for an
    identifier that is no post's it fails with "post not found" and changes
    nothing; for a stored post it changes the flag of that post and nothing
    else.  Once the flag is off, every [CreateComment] on the post fails
    with [CommentsDisabled], whatever the draft; once it is on again, a
    draft without parent and with a valid body succeeds. *)
Theorem ToggleComments_gates_comments (s : Store) (postID : string) :
  (posts s !! postID = None →
   ∀ enable, graph.ToggleComments s postID enable = (s, Err "post not found"))
  ∧ (∀ post, posts s !! postID = Some post →
       (∀ enable,
          graph.ToggleComments s postID enable
          = (mkStore
               (<[postID := Post.mk (Post.ID post) (Post.Title post)
                              (Post.Content post) (Post.AuthorID post) enable
                              (Post.CreatedAt post)]> (posts s))
               (comments s) (commentsByPost s) (commentsByParent s),
             Ok (Post.mk (Post.ID post) (Post.Title post) (Post.Content post)
                   (Post.AuthorID post) enable (Post.CreatedAt post))))
       ∧ (∀ draft uuid now,
            Comment.PostID draft = postID →
            failure (CreateComment (graph.ToggleComments s postID false).1
                       draft uuid now).2
            = Some CommentsDisabled)
       ∧ (∀ draft uuid now,
            Comment.PostID draft = postID →
            Comment.ParentID draft = None →
            strlen (Comment.Content draft) ≤ 2000 →
            TrimSpace (Comment.Content draft) ≠ "" →
            ∃ c, (CreateComment
                    (graph.ToggleComments
                       (graph.ToggleComments s postID false).1 postID true).1
                    draft uuid now).2 = Ok c)).
Proof.
  split.
  - intros Hnone enable. unfold graph.ToggleComments. simpl.
    unfold GetPostByID. by rewrite Hnone.
  - intros post Hpost.
    assert (∀ s0 p0 enable, posts s0 !! postID = Some p0 →
      graph.ToggleComments s0 postID enable
      = (mkStore
           (<[postID := Post.mk (Post.ID p0) (Post.Title p0) (Post.Content p0)
                          (Post.AuthorID p0) enable (Post.CreatedAt p0)]> (posts s0))
           (comments s0) (commentsByPost s0) (commentsByParent s0),
         Ok (Post.mk (Post.ID p0) (Post.Title p0) (Post.Content p0)
               (Post.AuthorID p0) enable (Post.CreatedAt p0)))) as Htoggle.
    { intros s0 p0 enable Hp0. unfold graph.ToggleComments. simpl.
      unfold GetPostByID, ToggleComments. by rewrite Hp0. }
    split_and!.
    + intros enable. by apply Htoggle.
    + intros draft uuid now Hdraft. rewrite (Htoggle s post false Hpost). simpl.
      erewrite CreateComment_disabled;
        [done|simpl; rewrite Hdraft; apply lookup_insert_eq|done].
    + intros draft uuid now Hdraft Hparent Hlen Htrim.
      rewrite (Htoggle s post false Hpost). simpl.
      erewrite Htoggle by (simpl; apply lookup_insert_eq). simpl.
      erewrite CreateComment_ok;
        [by eexists
        |simpl; rewrite Hdraft; apply lookup_insert_eq
        |done
        |by apply body_error_None
        |unfold parent_missing; by rewrite Hparent].
Qed.

End InMemoryComposition.

(** ** Walking a listing page by page *)

Section Walk.

Lemma after_id_lookup (ordered : list Comment.t) (j : nat) (c : Comment.t) :
  NoDup (Comment.ID <$> ordered) →
  ordered !! j = Some c →
  after_id (Comment.ID c) ordered = Some (drop (S j) ordered).
Proof.
  intros Hnd Hj.
  pose proof (take_drop_middle ordered j c Hj) as Hsplit.
  rewrite <- Hsplit at 1. apply after_id_app.
  rewrite <- Hsplit, fmap_app, fmap_cons in Hnd.
  apply NoDup_app in Hnd as (_ & Hdisj & _).
  intros Hin. apply (Hdisj _ Hin). left.
Qed.

(** Where a walk stands after it has read [k] items: at the start with no
    cursor, or with the identifier of the last item it has read. *)
Definition cursor_at (ordered : list Comment.t) (k : nat) (cursor : option string) : Prop :=
  match k with
  | O => cursor = None
  | S j => ∃ c, ordered !! j = Some c ∧ cursor = Some (Comment.ID c)
  end.

Lemma remaining_at ordered k cursor :
  NoDup (Comment.ID <$> ordered) →
  cursor_at ordered k cursor →
  remaining cursor ordered = drop k ordered.
Proof.
  intros Hnd Hat. destruct k as [|j]; simpl in Hat.
  - by rewrite Hat.
  - destruct Hat as (c & Hc & ->). simpl. by rewrite (after_id_lookup ordered j c).
Qed.

Lemma walk_pages_from (ordered : list Comment.t) (L : Z)
    (fetch : option string → outcome model.CommentConnection) :
  NoDup (Comment.ID <$> ordered) →
  0 < L →
  (∀ cursor, fetch cursor = Ok (connection_of (Paginator ordered cursor L))) →
  ∀ fuel k cursor,
    (k ≤ length ordered)%nat →
    (length ordered - k < fuel)%nat →
    cursor_at ordered k cursor →
    walk_pages fuel fetch cursor = Ok (drop k ordered).
Proof.
  intros Hnd HL Hfetch fuel.
  induction fuel as [|fuel IH]; intros k cursor Hk Hfuel Hat; [lia|].
  simpl. rewrite Hfetch. simpl.
  rewrite edges_nodes, (remaining_at ordered k cursor) by done.
  unfold len. rewrite length_drop.
  destruct (Z.ltb_spec L (Z.of_nat (length ordered - k))) as [Hmore|Hless].
  - set (n := Z.to_nat L).
    assert (0 < n ∧ n < length ordered - k)%nat as [Hn0 Hn] by lia.
    rewrite (IH (k + n)%nat).
    + simpl. f_equal. rewrite <- (drop_drop ordered n k). apply take_drop.
    + lia.
    + lia.
    + destruct (lookup_lt_is_Some_2 ordered (k + n - 1)) as [c Hc]; [lia|].
      replace (k + n)%nat with (S (k + n - 1)) by lia. simpl.
      exists c. split; [done|].
      rewrite last_lookup, length_take, length_drop.
      replace (Init.Nat.pred (n `min` (length ordered - k))) with (n - 1)%nat by lia.
      rewrite lookup_take_lt by lia. rewrite lookup_drop.
      replace (k + (n - 1))%nat with (k + n - 1)%nat by lia.
      by rewrite Hc.
  - f_equal. apply take_ge. rewrite length_drop. lia.
Qed.

End Walk.

Section InMemoryWalk.
Import storage inmemory.
Context `{!Sorter}.

(** X8. In a reachable state of the in-memory store, a client that asks
    [Comments] (or [Children]) for pages of a positive limit, starting
    with no cursor and following each page's [endCursor] while
    [hasNextPage] is set, ends after at most one request per sibling (and
    one more) with every root comment of the post (every child of the
    comment) exactly once, in listing order. *)
Theorem walking_pages_reads_every_sibling
    (s : Store) (post : Post.t) (parent : Comment.t) (L : Z) (fuel : nat) :
  reachable s →
  0 < L → GraphQLInt L →
  fits_memory (default [] (commentsByPost s !! Post.ID post)) →
  fits_memory (default [] (commentsByParent s !! Comment.ID parent)) →
  ((length (root_comments s (Post.ID post)) < fuel)%nat →
   walk_pages fuel (graph.Comments s post (Some L)) None
   = Ok (root_comments s (Post.ID post)))
  ∧ ((length (child_comments s (Comment.ID parent)) < fuel)%nat →
     walk_pages fuel (graph.Children s parent (Some L)) None
     = Ok (child_comments s (Comment.ID parent))).
Proof.
  intros Hwf%reachable_wf HL Hint Hroots Hchildren. split; intros Hfuel.
  - rewrite (walk_pages_from (root_comments s (Post.ID post)) L _
               (root_comments_ids_NoDup s _ Hwf) HL) with (k := 0%nat).
    + done.
    + intros cursor. apply Comments_spec; [simpl; lia|done|done].
    + lia.
    + lia.
    + done.
  - rewrite (walk_pages_from (child_comments s (Comment.ID parent)) L _
               (child_comments_ids_NoDup s _ Hwf) HL) with (k := 0%nat).
    + done.
    + intros cursor. apply Children_spec; [simpl; lia|done|done].
    + lia.
    + lia.
    + done.
Qed.

End InMemoryWalk.

(** ** The in-memory store: [GetPosts] *)

Section InMemoryGetPosts.
Import storage inmemory.
Context `{!Sorter} `{!MapRange}.

Lemma created_after_negtrans (x y z : Post.t) :
  created_after x y = false → created_after y z = false →
  created_after x z = false.
Proof. unfold created_after, After. rewrite !Z.ltb_ge. lia. Qed.

Lemma created_after_asym (x y : Post.t) :
  created_after x y = true → created_after y x = false.
Proof. unfold created_after, After. rewrite Z.ltb_lt, Z.ltb_ge. lia. Qed.

(** The slice [GetPosts] cuts its window from. *)
Definition allPosts (s : Store) : list Post.t :=
  sort_Slice created_after (range_values (posts s)).

Lemma allPosts_length s : length (allPosts s) = size (posts s).
Proof.
  unfold allPosts.
  rewrite (Permutation_length (sort_Slice_perm _ _)).
  rewrite (Permutation_length (range_values_perm _)).
  by rewrite length_fmap, length_map_to_list.
Qed.

Lemma elem_of_allPosts s p : p ∈ allPosts s ↔ ∃ id, posts s !! id = Some p.
Proof.
  unfold allPosts. rewrite sort_Slice_perm, range_values_perm, list_elem_of_fmap.
  split.
  - intros ([id p'] & -> & Hin). exists id. by apply elem_of_map_to_list.
  - intros (id & Hid). exists (id, p). split; [done|]. by apply elem_of_map_to_list.
Qed.

Lemma allPosts_sorted s : StronglySorted created_ge (allPosts s).
Proof.
  unfold allPosts.
  eapply StronglySorted_weaken;
    [|apply (sort_Slice_sorted created_after);
      [apply created_after_negtrans|apply created_after_asym]].
  intros x y. unfold created_after, After, created_ge. simpl.
  rewrite Z.ltb_ge. lia.
Qed.

(** X9. For an offset and a limit that are not negative, the in-memory
    [GetPosts] returns, whatever the order in which the map is visited,
    [min(limit, n - offset)] posts ([n] the number of posts stored; none
    when the offset is [n] or more), each of them a stored post, with a
    post never listed before one created later. *)
Theorem GetPosts_window (s : Store) (limit offset : Z) :
  0 ≤ offset → 0 ≤ limit → offset + limit ≤ int_max →
  ∃ page,
    GetPosts s limit offset = Ok page
    ∧ len page = Z.min limit (Z.max 0 (Z.of_nat (size (posts s)) - offset))
    ∧ StronglySorted created_ge page
    ∧ ∀ p, p ∈ page → ∃ id, posts s !! id = Some p.
Proof.
  intros Hoffset Hlimit Hfit. unfold GetPosts. fold (allPosts s).
  pose proof (allPosts_length s) as Hlen.
  unfold len. rewrite Hlen.
  destruct (Z.leb_spec (Z.of_nat (size (posts s))) offset) as [Hout|Hin].
  - exists []. split_and!; [done|simpl; lia|constructor|].
    intros p Hp. by apply elem_of_nil in Hp.
  - unfold int_add. rewrite wrap_int_id by (unfold int_min, int_max in *; lia).
    rewrite slice_in_range.
    + eexists. split_and!; [reflexivity| | |].
      * rewrite length_take, length_drop, Hlen.
        destruct (Z.ltb_spec (Z.of_nat (size (posts s))) (offset + limit)); lia.
      * apply StronglySorted_take_drop, allPosts_sorted.
      * intros p Hp. apply subseteq_take, subseteq_drop in Hp.
        by apply elem_of_allPosts.
    + done.
    + destruct (Z.ltb_spec (Z.of_nat (size (posts s))) (offset + limit)); lia.
    + unfold len. rewrite Hlen.
      destruct (Z.ltb_spec (Z.of_nat (size (posts s))) (offset + limit)); lia.
Qed.

(** X10. The in-memory [GetPosts] panics on a negative offset, and on a
    negative limit whenever the offset is within the stored posts: the
    slice expression [allPosts[start:end]] is out of range. *)
Theorem GetPosts_negative_panics (s : Store) (limit offset : Z) :
  (offset < 0 → GetPosts s limit offset = Panic)
  ∧ (0 ≤ offset → offset < Z.of_nat (size (posts s)) → offset ≤ int_max →
     int_min ≤ limit → limit < 0 →
     GetPosts s limit offset = Panic).
Proof.
  unfold GetPosts. fold (allPosts s).
  pose proof (allPosts_length s) as Hlen. unfold len. rewrite Hlen.
  split.
  - intros Hneg.
    rewrite (proj2 (Z.leb_gt _ _)) by lia.
    unfold slice. by rewrite (proj2 (Z.leb_gt 0 offset)) by lia.
  - intros Hoffset Hin Hmax Hmin Hneg.
    rewrite (proj2 (Z.leb_gt _ _)) by lia.
    unfold int_add. rewrite wrap_int_id by (unfold int_min, int_max in *; lia).
    rewrite (proj2 (Z.ltb_ge _ _)) by lia.
    unfold slice. rewrite (proj2 (Z.leb_le 0 offset)) by lia.
    by rewrite (proj2 (Z.leb_gt offset (offset + limit))) by lia.
Qed.

End InMemoryGetPosts.

(** ** The database store *)

Section PostgresProperties.
Import storage postgres.
Context `{!Sorter}.

(** X11. The database [CreateComment] reports the first thing that is
    wrong with a draft in this order: the body ([InvalidBody]); a post
    identifier that is no uuid (the driver's error, handed on as it is and
    none of the four failures); no post with that identifier
    ([PostNotFound]); comments disabled ([CommentsDisabled]); a parent
    identifier that is no uuid (the driver's error again); no comment with
    the parent's identifier ([ParentNotFound]).  When none of these applies
    the only failure left is one of the insertion itself, which is none of
    the four either; and whenever an error is returned the rows are as
    before. *)
Theorem postgres_CreateComment_order
    (s : Store) (comment : Comment.t) (uuid : string) (now : Time) :
  match body_error (Comment.Content comment) with
  | Some _ => failure (CreateComment s comment uuid now).2 = Some InvalidBody
  | None =>
      match uuid_in (Comment.PostID comment) with
      | None =>
          (CreateComment s comment uuid now).2 = Err (invalid_uuid (Comment.PostID comment))
          ∧ failure (CreateComment s comment uuid now).2 = None
      | Some postID =>
          match first_post s postID with
          | None => failure (CreateComment s comment uuid now).2 = Some PostNotFound
          | Some post =>
              if negb (Post.CommentsEnabled post)
              then failure (CreateComment s comment uuid now).2 = Some CommentsDisabled
              else
                match Comment.ParentID comment with
                | None => failure (CreateComment s comment uuid now).2 = None
                | Some parentID =>
                    match uuid_in parentID with
                    | None =>
                        (CreateComment s comment uuid now).2 = Err (invalid_uuid parentID)
                        ∧ failure (CreateComment s comment uuid now).2 = None
                    | Some parentID =>
                        if count_comments s parentID =? 0
                        then failure (CreateComment s comment uuid now).2
                             = Some ParentNotFound
                        else failure (CreateComment s comment uuid now).2 = None
                    end
                end
          end
      end
  end
  ∧ ∀ e, (CreateComment s comment uuid now).2 = Err e →
         (CreateComment s comment uuid now).1 = s.
Proof.
  split; [|intros e; apply postgres_CreateComment_failure_keeps_rows].
  destruct (body_error (Comment.Content comment)) as [e|] eqn:Hb.
  { erewrite postgres_CreateComment_body by done. simpl.
    by eapply body_error_classified. }
  destruct (uuid_in (Comment.PostID comment)) as [postID|] eqn:Hu.
  2:{ by rewrite postgres_CreateComment_no_uuid. }
  destruct (first_post s postID) as [post|] eqn:Hp.
  2:{ by erewrite postgres_CreateComment_no_post. }
  destruct (Post.CommentsEnabled post) eqn:He; simpl.
  2:{ by erewrite postgres_CreateComment_disabled. }
  unfold body_error in Hb. unfold CreateComment, errors_New.
  rewrite Hu, Hp, He. simpl.
  repeat (case_match; simplify_eq);
    rewrite ?create_comment_unclassified; done.
Qed.






End PostgresProperties.

Section PostgresListings.
Import storage postgres.
Context `{!Sorter}.

Lemma sql_limit_length {A : Type} (n : Z) (rows : list A) :
  0 ≤ n → len (sql_limit n rows) = Z.min n (len rows).
Proof.
  intros Hn. unfold sql_limit, len.
  rewrite (proj2 (Z.leb_le 0 n)) by done. rewrite length_take. lia.
Qed.

Lemma sql_limit_subseteq {A : Type} (n : Z) (rows : list A) : sql_limit n rows ⊆ rows.
Proof. unfold sql_limit. destruct (0 <=? n); [apply subseteq_take|done]. Qed.

Lemma sql_limit_sorted {A : Type} (R : A → A → Prop) (n : Z) (rows : list A) :
  StronglySorted R rows → StronglySorted R (sql_limit n rows).
Proof.
  intros Hrows. unfold sql_limit. destruct (0 <=? n); [|done].
  rewrite <- (drop_0 rows). by apply StronglySorted_take_drop.
Qed.






Lemma created_after_pg_negtrans (x y z : Post.t) :
  created_after x y = false → created_after y z = false →
  created_after x z = false.
Proof. unfold created_after, After. rewrite !Z.ltb_ge. lia. Qed.

Lemma created_after_pg_asym (x y : Post.t) :
  created_after x y = true → created_after y x = false.
Proof. unfold created_after, After. rewrite Z.ltb_lt, Z.ltb_ge. lia. Qed.

(** X15. The database [GetPosts] never fails and never panics: a negative
    offset is read as no offset.  With a limit and an offset that are not
    negative it returns [min(limit, n - offset)] rows of the [n] posts
    (none when the offset is [n] or more), a post never listed before one
    created later. *)
Theorem postgres_GetPosts_window (s : Store) (limit offset : Z) :
  (offset ≤ 0 → GetPosts s limit offset = GetPosts s limit 0)
  ∧ (0 ≤ limit → 0 ≤ offset →
     ∃ page,
       GetPosts s limit offset = Ok page
       ∧ len page = Z.min limit (Z.max 0 (len (posts s) - offset))
       ∧ StronglySorted created_ge page
       ∧ ∀ p, p ∈ page → p ∈ posts s).
Proof.
  unfold GetPosts. split.
  - intros Hneg. unfold sql_offset.
    by rewrite (proj2 (Z.ltb_ge 0 offset)) by lia.
  - intros Hlimit Hoffset. eexists. split; [reflexivity|].
    assert (StronglySorted created_ge (sort_Slice created_after (posts s))) as Hsorted.
    { eapply StronglySorted_weaken;
        [|apply (sort_Slice_sorted created_after);
          [apply created_after_pg_negtrans|apply created_after_pg_asym]].
      intros x y. unfold created_after, After, created_ge. simpl.
      rewrite Z.ltb_ge. lia. }
    split_and!.
    + rewrite sql_limit_length by done. unfold sql_offset, len.
      destruct (Z.ltb_spec 0 offset).
      * rewrite length_drop, (Permutation_length (sort_Slice_perm _ _)). lia.
      * rewrite (Permutation_length (sort_Slice_perm _ _)). lia.
    + apply sql_limit_sorted. unfold sql_offset. destruct (0 <? offset); [|done].
      rewrite <- (take_ge (drop _ _) (length (posts s))).
      * by apply StronglySorted_take_drop.
      * rewrite length_drop, (Permutation_length (sort_Slice_perm _ _)). lia.
    + intros p Hp. apply sql_limit_subseteq in Hp.
      unfold sql_offset in Hp. destruct (0 <? offset).
      * apply subseteq_drop in Hp. by rewrite sort_Slice_perm in Hp.
      * by rewrite sort_Slice_perm in Hp.
Qed.

End PostgresListings.

(** ** The listing resolvers over any store *)

Section ResolversAnyStore.
Import storage.
Context {S : Type} `{!Storage S}.

Lemma connection_shape (l : Z) (comments : list Comment.t) :
  0 ≤ l →
  graph.connection l comments
  = Ok (connection_of
          (mkPage (take (Z.to_nat l) comments) (l <? len comments)
             (Comment.ID <$> last (take (Z.to_nat l) comments)))).
Proof.
  intros Hl. unfold graph.connection, connection_of, len. simpl.
  destruct (Z.ltb_spec l (Z.of_nat (length comments))) as [Hmore|Hless].
  - rewrite slice_in_range; [|lia|lia|unfold len; lia].
    simpl. rewrite drop_0, Z.sub_0_r. by rewrite last_edges.
  - simpl. rewrite !take_ge by lia. by rewrite last_edges.
Qed.

(** X16. Whatever store is behind the [Storage] interface: when the
    listing it is asked for returns [comments] and the limit [l] is not
    negative, [Children] answers with the first [l] of them, one edge for
    each with the comment's identifier as its cursor; [hasNextPage] is set
    exactly when the store returned more than [l]; and [endCursor] is the
    cursor of the last edge, absent exactly when the page is empty. *)
Theorem Children_page_shape
    (st : S) (obj : Comment.t) (limit : option Z) (cursor : option string)
    (comments : list Comment.t) :
  0 ≤ default 5 limit →
  GetCommentsByParentID st (Comment.ID obj)
    (mkArgs (int_add (default 5 limit) 1) cursor) = Ok comments →
  ∃ page,
    graph.Children st obj limit cursor = Ok page
    ∧ model.Node <$> model.Edges page = take (Z.to_nat (default 5 limit)) comments
    ∧ Forall (λ e, model.Cursor e = Comment.ID (model.Node e)) (model.Edges page)
    ∧ (model.PageInfo.HasNextPage (model.PageInfo page) = true
       ↔ default 5 limit < len comments)
    ∧ model.PageInfo.EndCursor (model.PageInfo page)
      = model.Cursor <$> last (model.Edges page)
    ∧ (model.PageInfo.EndCursor (model.PageInfo page) = None
       ↔ model.Edges page = []).
Proof.
  intros Hl Hst. unfold graph.Children. rewrite Hst. simpl.
  rewrite connection_shape by done. eexists. split; [reflexivity|].
  simpl. split_and!.
  - apply edges_nodes.
  - apply Forall_fmap, Forall_true. done.
  - apply Z.ltb_lt.
  - by rewrite last_edges.
  - rewrite <- last_edges, fmap_None, last_None. done.
Qed.

(** X17. Whatever store is behind the interface, a negative limit never
    yields a page: [Children] and [Comments] panic at [comments[:l]] when
    the store returned a listing, and pass on what the store did
    otherwise; and an error of the store reaches the caller under the
    resolver's prefix, never as a page. *)
Theorem listing_resolvers_never_hide_failure
    (st : S) (parent : Comment.t) (post : Post.t) (l : Z) (cursor : option string) :
  (l < 0 →
   (∀ page, graph.Children st parent (Some l) cursor ≠ Ok page)
   ∧ (∀ page, graph.Comments st post (Some l) cursor ≠ Ok page))
  ∧ (∀ e, GetCommentsByParentID st (Comment.ID parent) (mkArgs (int_add l 1) cursor)
          = Err e →
          graph.Children st parent (Some l) cursor
          = Err ("failed to get children comments: " ++ e)%string)
  ∧ (∀ e, GetCommentsByPostID st (Post.ID post) (mkArgs (int_add l 1) cursor)
          = Err e →
          graph.Comments st post (Some l) cursor
          = Err ("failed to get post comments: " ++ e)%string).
Proof.
  split_and!.
  - intros Hneg. split; intros page.
    + unfold graph.Children. simpl.
      destruct (GetCommentsByParentID st _ _) as [comments|e|]; simpl; try done.
      by rewrite connection_negative.
    + unfold graph.Comments. simpl.
      destruct (GetCommentsByPostID st _ _) as [comments|e|]; simpl; try done.
      by rewrite connection_negative.
  - intros e He. unfold graph.Children. simpl. by rewrite He.
  - intros e He. unfold graph.Comments. simpl. by rewrite He.
Qed.

End ResolversAnyStore.

(** ** Subscriptions *)

Section Subscriptions.
Import storage graph.
Context {S : Type} `{!Storage S}.

Lemma try_send_bounded (c : Comment.t) (ch : chan) :
  (length (buf ch) ≤ cap ch)%nat →
  (length (buf (try_send c ch)) ≤ cap (try_send c ch))%nat.
Proof.
  intros Hch. unfold try_send.
  destruct (Nat.ltb_spec (length (buf ch)) (cap ch)); simpl; [|done].
  rewrite length_app. simpl. lia.
Qed.

Lemma registry_ok_notify o c : registry_ok o → registry_ok (notify o c).
Proof.
  intros Hok. unfold notify.
  destruct (subs o !! Comment.PostID c) as [postSubs|] eqn:Hsubs; [|done].
  destruct (Hok _ _ Hsubs) as [Hne Hbound].
  intros postID postSubs' Hlookup. simpl in Hlookup.
  destruct (decide (Comment.PostID c = postID)) as [<-|Hother].
  - rewrite lookup_insert_eq in Hlookup. simplify_eq. split.
    + by rewrite fmap_empty_iff.
    + intros subID ch Hch. rewrite lookup_fmap in Hch.
      destruct (postSubs !! subID) as [ch0|] eqn:Hch0; simpl in Hch; simplify_eq.
      apply try_send_bounded. by eapply Hbound.
  - rewrite lookup_insert_ne in Hlookup by done. exact (Hok _ _ Hlookup).
Qed.

Lemma registry_ok_CommentAdded st o postID subID :
  registry_ok o → registry_ok (CommentAdded st o postID subID).1.
Proof.
  intros Hok. unfold CommentAdded.
  destruct (GetPostByID st postID) as [post|e|]; simpl; try done.
  intros k postSubs Hlookup. simpl in Hlookup.
  destruct (decide (postID = k)) as [<-|Hother].
  - rewrite lookup_insert_eq in Hlookup. simplify_eq. split.
    + apply insert_non_empty.
    + intros sub ch Hch. destruct (decide (subID = sub)) as [<-|Hsub].
      * rewrite lookup_insert_eq in Hch. simplify_eq. simpl. lia.
      * rewrite lookup_insert_ne in Hch by done.
        destruct (subs o !! postID) as [old|] eqn:Hold; simpl in Hch.
        -- by eapply (Hok postID old).
        -- by rewrite lookup_empty in Hch.
  - rewrite lookup_insert_ne in Hlookup by done. exact (Hok _ _ Hlookup).
Qed.

Lemma registry_ok_cleanup o postID subID :
  registry_ok o → registry_ok (cleanup o postID subID).
Proof.
  intros Hok. unfold cleanup.
  destruct (subs o !! postID) as [postSubs|] eqn:Hsubs; [|done].
  destruct (Hok _ _ Hsubs) as [Hne Hbound].
  destruct (Nat.eqb_spec (size (delete subID postSubs)) 0) as [Hempty|Hleft].
  - intros k postSubs' Hlookup. simpl in Hlookup.
    destruct (decide (postID = k)) as [<-|Hother].
    + by rewrite lookup_delete_eq in Hlookup.
    + rewrite lookup_delete_ne in Hlookup by done. exact (Hok _ _ Hlookup).
  - intros k postSubs' Hlookup. simpl in Hlookup.
    destruct (decide (postID = k)) as [<-|Hother].
    + rewrite lookup_insert_eq in Hlookup. simplify_eq. split.
      * intros Heq. apply Hleft. rewrite Heq. apply map_size_empty.
      * intros sub ch Hch. destruct (decide (subID = sub)) as [<-|Hsub].
        -- by rewrite lookup_delete_eq in Hch.
        -- rewrite lookup_delete_ne in Hch by done. by eapply Hbound.
    + rewrite lookup_insert_ne in Hlookup by done. exact (Hok _ _ Hlookup).
Qed.

Lemma registry_ok_New : registry_ok NewCommentObserver.
Proof.
  intros postID postSubs Hlookup. unfold NewCommentObserver in Hlookup.
  simpl in Hlookup. by rewrite lookup_empty in Hlookup.
Qed.

(** X18. Every registry the resolvers can build keeps no post without
    subscribers and no channel with more comments than its capacity: the
    empty registry does, and a subscription, a notification and the
    cleanup of a subscription preserve it.  A notification neither adds
    nor removes a subscriber, and touches no other post's subscribers. *)
Theorem registry_stays_tidy (st : S) (o : CommentObserver) :
  registry_ok NewCommentObserver
  ∧ (registry_ok o →
     (∀ postID subID, registry_ok (CommentAdded st o postID subID).1)
     ∧ (∀ postID subID, registry_ok (cleanup o postID subID))
     ∧ (∀ c, registry_ok (notify o c)))
  ∧ (∀ c postID,
       dom <$> (subs (notify o c) !! postID) = dom <$> (subs o !! postID)
       ∧ (postID ≠ Comment.PostID c →
          subs (notify o c) !! postID = subs o !! postID)).
Proof.
  split_and!.
  - apply registry_ok_New.
  - intros Hok. split_and!; intros.
    + by apply registry_ok_CommentAdded.
    + by apply registry_ok_cleanup.
    + by apply registry_ok_notify.
  - intros c postID. unfold notify.
    destruct (subs o !! Comment.PostID c) as [postSubs|] eqn:Hsubs; [|done].
    simpl. destruct (decide (Comment.PostID c = postID)) as [<-|Hother].
    + rewrite lookup_insert_eq, Hsubs. simpl. split; [|done].
      f_equal. apply dom_fmap_L.
    + rewrite lookup_insert_ne by done. done.
Qed.

(** X19. A subscription to a post the store knows, under a subscriber
    identifier not in use, registers an empty channel of capacity 1.  The
    next notification of a comment of that post puts the comment into the
    channel; a further one, while the first is not taken out, is dropped
    for this subscriber.  The cleanup of the subscription gives back the
    registry as it was before the subscription.  A subscription to a post
    the store does not know fails with "post not found" and leaves the
    registry as it was. *)
Theorem subscribe_notify_cleanup
    (st : S) (o : CommentObserver) (postID subID : string) :
  (∀ post, GetPostByID st postID = Ok post →
     registry_ok o →
     subs o !! postID ≫= lookup subID = None →
     (CommentAdded st o postID subID).2 = Ok (mkChan 1 [])
     ∧ subs (CommentAdded st o postID subID).1 !! postID ≫= lookup subID
       = Some (mkChan 1 [])
     ∧ (∀ c c',
          Comment.PostID c = postID → Comment.PostID c' = postID →
          subs (notify (CommentAdded st o postID subID).1 c) !! postID
            ≫= lookup subID
          = Some (mkChan 1 [c])
          ∧ subs (notify (notify (CommentAdded st o postID subID).1 c) c') !! postID
              ≫= lookup subID
            = Some (mkChan 1 [c]))
     ∧ cleanup (CommentAdded st o postID subID).1 postID subID = o)
  ∧ (∀ e, GetPostByID st postID = Err e →
       CommentAdded st o postID subID = (o, Err "post not found")).
Proof.
  split.
  - intros post Hpost Hok Hfresh. unfold CommentAdded. rewrite Hpost. simpl.
    set (old := default ∅ (subs o !! postID)).
    assert (old !! subID = None) as Hold.
    { unfold old. destruct (subs o !! postID) as [m|]; simpl in *; [done|].
      apply lookup_empty. }
    split_and!.
    + done.
    + rewrite lookup_insert_eq. simpl. apply lookup_insert_eq.
    + intros c c' Hc Hc'. unfold notify. simpl.
      rewrite Hc, lookup_insert_eq. simpl.
      rewrite lookup_insert_eq. simpl.
      rewrite lookup_fmap, lookup_insert_eq. simpl.
      rewrite Hc', lookup_insert_eq. simpl.
      rewrite lookup_insert_eq. simpl.
      rewrite !lookup_fmap, lookup_insert_eq. done.
    + unfold cleanup. simpl. rewrite lookup_insert_eq.
      rewrite delete_insert_eq, (delete_id old subID) by done.
      destruct o as [registry]. simpl in *. f_equal.
      destruct (registry !! postID) as [m|] eqn:Hm; simpl in *.
      * destruct (Hok postID m Hm) as [Hne _].
        destruct (Nat.eqb_spec (size old) 0) as [Hsize|Hsize].
        -- by apply map_size_empty_iff in Hsize.
        -- f_equal. rewrite insert_insert_eq. by apply insert_id.
      * unfold old. rewrite map_size_empty. simpl. f_equal.
        rewrite delete_insert_eq. by apply delete_id.
  - intros e He. unfold CommentAdded. by rewrite He.
Qed.

End Subscriptions.

(** What the mutation does to the registry: on success the notification of
    the new comment, on failure nothing. *)
Lemma CreateComment_registry {S : Type} `{!storage.Storage S}
    (st : S) (o : graph.CommentObserver) (input : model.NewComment)
    (uuid : string) (now : Time) :
  (graph.CreateComment st o input uuid now).1.2
  = match (storage.CreateComment st
             (Comment.mk "" (model.PostID input) (model.ParentID input)
                (model.AuthorID input) (model.Content input) 0) uuid now).2 with
    | Ok c => graph.notify o c
    | _ => o
    end.
Proof.
  unfold graph.CreateComment.
  by destruct (storage.CreateComment st _ uuid now) as [st' [c|e|]].
Qed.

(** ** The notification left alone *)

Section NotificationLoop.
Import storage model graph server.
Context {S : Type} `{!Storage S} `{!MapRange}.

Lemma offered_length c m keys q : length (offered c m keys q) = length q.
Proof.
  revert q. induction keys as [|k keys IH]; intros q; simpl; [done|].
  destruct (m !! k ≫= _) as [[ch x]|]; rewrite IH; [apply length_insert|done].
Qed.

Lemma offered_out c m keys q ch :
  (∀ k, k ∈ keys → m !! k ≠ Some ch) →
  offered c m keys q !! ch = q !! ch.
Proof.
  revert q. induction keys as [|k keys IH]; intros q Hout; simpl; [done|].
  assert (∀ k', k' ∈ keys → m !! k' ≠ Some ch) as Hrest.
  { intros k' Hk'. apply Hout. by right. }
  destruct (m !! k) as [ch'|] eqn:Hk; simpl; [|by apply IH].
  destruct (q !! ch') as [x|] eqn:Hx; simpl; [|by apply IH].
  rewrite IH by done. apply list_lookup_insert_ne.
  intros ->. by apply (Hout k); [left|].
Qed.

Lemma offered_in c m keys q k ch :
  NoDup keys →
  (∀ k1 k2 x, m !! k1 = Some x → m !! k2 = Some x → k1 = k2) →
  k ∈ keys → m !! k = Some ch →
  offered c m keys q !! ch = try_send c <$> q !! ch.
Proof.
  intros Hnd Hinj. revert q.
  induction keys as [|k0 keys IH]; intros q Hin Hk; [by apply elem_of_nil in Hin|].
  apply NoDup_cons in Hnd as [Hk0 Hnd]. cbn [offered].
  apply elem_of_cons in Hin as [Heq|Hin].
  - subst k0. rewrite Hk. simpl. destruct (q !! ch) as [x|] eqn:Hx; simpl.
    + rewrite offered_out.
      * apply list_lookup_insert_eq. by eapply lookup_lt_Some.
      * intros k' Hk' Hch. apply Hk0. by rewrite (Hinj _ _ _ Hk Hch).
    + rewrite offered_out; [by rewrite Hx|].
      intros k' Hk' Hch. apply Hk0. by rewrite (Hinj _ _ _ Hk Hch).
  - destruct (m !! k0) as [ch0|] eqn:Hk0'; simpl; [|by apply IH].
    destruct (q !! ch0) as [x|] eqn:Hx; simpl; [|by apply IH].
    rewrite IH by done. rewrite list_lookup_insert_ne; [done|].
    intros ->. apply Hk0. by rewrite (Hinj _ _ _ Hk0' Hk).
Qed.

(** The keys a [range] visits are the keys of the map, each once. *)
Lemma range_keys_spec {V : Type} (m : gmap string V) :
  NoDup (range_keys m) ∧ ∀ k, k ∈ range_keys m ↔ is_Some (m !! k).
Proof.
  unfold range_keys.
  set (M := map_imap (λ (k : string) (_ : V), Some k) m).
  assert ((map_to_list M).*2 = (map_to_list M).*1) as Hkeys.
  { apply list_fmap_ext. intros i [k v] Hin. simpl.
    apply list_elem_of_lookup_2, elem_of_map_to_list in Hin.
    unfold M in Hin. rewrite map_lookup_imap in Hin.
    destruct (m !! k); simpl in Hin; congruence. }
  split.
  - rewrite range_values_perm, Hkeys. apply NoDup_fst_map_to_list.
  - intros k. rewrite range_values_perm, Hkeys, list_elem_of_fmap. split.
    + intros ([k' v] & -> & Hin). apply elem_of_map_to_list in Hin.
      unfold M in Hin. rewrite map_lookup_imap in Hin. simpl.
      destruct (m !! k'); [by eexists|done].
    + intros [v Hv]. exists (k, k). split; [done|].
      apply elem_of_map_to_list. unfold M. rewrite map_lookup_imap, Hv. done.
Qed.

(** The loop from one of its steps on, with nobody else at work. *)
Lemma notify_loop (c : Comment.t) (postSubs : addr) (m : gomap addr) (n : nat)
    (keys : list string) (w : World S) :
  goroutines w !! n = Some (notify_next c postSubs keys) →
  maps w !! postSubs = Some m →
  writing m = false →
  (∀ k, k ∈ keys → ∃ ch, entries m !! k = Some ch ∧ is_Some (chans w !! ch)) →
  ∃ steps,
    run (replicate steps (Run n)) w
    = Step (mkWorld (store w) (mu w) (subs w) (maps w)
              (offered c (entries m) keys (chans w))
              (<[n := notify_done]> (goroutines w))).
Proof.
  revert w. induction keys as [|k keys IH]; intros w Hg Hmap Hm Hkeys.
  - exists 1%nat. simpl. rewrite Hg. simpl. by rewrite Hmap, Hm.
  - destruct (Hkeys k) as (ch & Hk & [x Hx]); [left|].
    set (w1 := goto n (notify_select c postSubs keys ch) w).
    set (w2 := goto n (notify_next c postSubs keys) (set_chan ch (try_send c x) w1)).
    assert (n < length (goroutines w))%nat as Hn by by eapply lookup_lt_Some.
    destruct (IH w2) as [steps Hsteps].
    + unfold w2, w1. simpl. apply list_lookup_insert_eq.
      by rewrite length_insert.
    + done.
    + done.
    + intros k' Hk'. destruct (Hkeys k') as (ch' & Hk'' & Hch'); [by right|].
      exists ch'. split; [done|]. unfold w2, w1. simpl.
      apply lookup_lt_is_Some. rewrite length_insert. by apply lookup_lt_is_Some.
    + exists (2 + steps)%nat.
      change (replicate (2 + steps) (Run n))
        with (Run n :: Run n :: replicate steps (Run n)).
      rewrite (run_cons _ _ w w1).
      2:{ simpl. rewrite Hg. simpl. by rewrite Hmap, Hm, Hk. }
      rewrite (run_cons _ _ w1 w2).
      2:{ unfold w1 at 1. simpl. rewrite list_lookup_insert_eq by done. simpl.
          by rewrite Hx. }
      rewrite Hsteps. unfold w2, w1. simpl. rewrite Hk. simpl. rewrite Hx. simpl.
      by rewrite !list_insert_insert_eq.
Qed.

(** The goroutine of [CreateComment], once started and left alone by the
    other goroutines, comes to its end, and by then it has offered the
    comment exactly once to each subscriber the post has. *)
Lemma notify_range_run
    (w : World S) (n : nat) (c : Comment.t) (postSubs : addr) (m : gomap addr) :
  goroutines w !! n = Some (notify_range c postSubs) →
  maps w !! postSubs = Some m →
  writing m = false →
  (∀ sub ch, entries m !! sub = Some ch → is_Some (chans w !! ch)) →
  (∀ sub1 sub2 ch, entries m !! sub1 = Some ch → entries m !! sub2 = Some ch →
     sub1 = sub2) →
  ∃ steps w',
    run (replicate steps (Run n)) w = Step w'
    ∧ goroutines w' = <[n := notify_done]> (goroutines w)
    ∧ store w' = store w ∧ mu w' = mu w ∧ subs w' = subs w ∧ maps w' = maps w
    ∧ length (chans w') = length (chans w)
    ∧ (∀ sub ch, entries m !! sub = Some ch →
         chans w' !! ch = try_send c <$> chans w !! ch)
    ∧ (∀ ch, (∀ sub, entries m !! sub ≠ Some ch) → chans w' !! ch = chans w !! ch)
    ∧ omap (λ ch, chans w' !! ch) (entries m)
      = try_send c <$> omap (λ ch, chans w !! ch) (entries m).
Proof.
  intros Hg Hmap Hm Hvalid Hinj.
  assert (n < length (goroutines w))%nat as Hn by by eapply lookup_lt_Some.
  destruct (Nat.eqb_spec (size (entries m)) 0) as [Hempty|Hsome].
  - apply map_size_empty_iff in Hempty.
    exists 1%nat, (goto n notify_done w). split_and!; try done.
    + simpl. rewrite Hg. simpl. rewrite Hmap, Hempty. by rewrite map_size_empty.
    + intros sub ch Hsub. by rewrite Hempty, lookup_empty in Hsub.
    + by rewrite Hempty, !omap_empty, fmap_empty.
  - destruct (range_keys_spec (entries m)) as [Hnd Hkeys].
    set (w1 := goto n (notify_next c postSubs (range_keys (entries m))) w).
    destruct (notify_loop c postSubs m n (range_keys (entries m)) w1) as [steps Hsteps].
    + unfold w1. simpl. by apply list_lookup_insert_eq.
    + done.
    + done.
    + intros k Hk. apply Hkeys in Hk as [ch Hch]. exists ch. split; [done|].
      by eapply Hvalid.
    + eexists (Datatypes.S steps), _. split.
      { change (replicate (Datatypes.S steps) (Run n))
          with (Run n :: replicate steps (Run n)).
        rewrite (run_cons _ _ w w1); [exact Hsteps|].
        simpl. rewrite Hg. simpl. rewrite Hmap.
        by rewrite (proj2 (Nat.eqb_neq _ _) Hsome). }
      assert (∀ sub ch, entries m !! sub = Some ch →
                offered c (entries m) (range_keys (entries m)) (chans w) !! ch
                = try_send c <$> chans w !! ch) as Hin.
      { intros sub ch Hsub. eapply offered_in; [done| |by apply Hkeys; eexists|done].
        intros k1 k2 x. apply Hinj. }
      unfold w1. simpl. split_and!; try done.
      * by rewrite list_insert_insert_eq.
      * apply offered_length.
      * intros ch Hout. apply offered_out. intros k _. apply Hout.
      * apply map_eq. intros sub. rewrite lookup_fmap, !lookup_omap.
        destruct (entries m !! sub) as [ch|] eqn:Hsub; simpl; [|done].
        by eapply Hin.
Qed.

Lemma sound_same_registry (w w' : World S) :
  subs w' = subs w → maps w' = maps w → chans w' = chans w → sound w → sound w'.
Proof.
  intros Hsubs Hmaps Hchans [Hmap Hown Hvalid Hapart].
  split; rewrite ?Hsubs, ?Hmaps, ?Hchans; done.
Qed.

(** With every post in a map of its own and every subscriber on a channel
    of its own, the registry after the notification is [graph.notify] of
    the registry before it. *)
Lemma notify_range_run_observer
    (w : World S) (n : nat) (c : Comment.t) (postSubs : addr) (m : gomap addr) :
  goroutines w !! n = Some (notify_range c postSubs) →
  entries (subs w) !! Comment.PostID c = Some postSubs →
  maps w !! postSubs = Some m →
  writing m = false →
  sound w →
  ∃ steps w',
    run (replicate steps (Run n)) w = Step w'
    ∧ goroutines w' = <[n := notify_done]> (goroutines w)
    ∧ store w' = store w ∧ mu w' = mu w ∧ subs w' = subs w ∧ maps w' = maps w
    ∧ (∀ sub ch, entries m !! sub = Some ch →
         chans w' !! ch = try_send c <$> chans w !! ch)
    ∧ (∀ ch, (∀ sub, entries m !! sub ≠ Some ch) → chans w' !! ch = chans w !! ch)
    ∧ observer w' = notify (observer w) c.
Proof.
  intros Hg Hpost Hmap Hm [_ Hown Hvalid Hapart].
  destruct (notify_range_run w n c postSubs m Hg Hmap Hm)
    as (steps & w' & Hrun & Hgs & Hst & Hmu & Hsubs & Hmaps & _ & Hchans & Hout & Hin).
  { intros sub ch Hsub. by eapply Hvalid. }
  { intros sub1 sub2 ch H1 H2. by destruct (Hapart _ _ _ _ _ _ _ Hmap H1 Hmap H2). }
  exists steps, w'. split_and!; try done.
  unfold notify, observer. simpl. rewrite Hsubs, Hmaps.
  rewrite lookup_omap, Hpost. simpl. rewrite Hmap. simpl. f_equal.
  apply map_eq. intros postID.
  destruct (decide (Comment.PostID c = postID)) as [<-|Hother].
  - rewrite lookup_insert_eq, lookup_omap, Hpost. simpl. rewrite Hmap. simpl.
    by rewrite Hin.
  - rewrite lookup_insert_ne by done. rewrite !lookup_omap.
    destruct (entries (subs w) !! postID) as [a|] eqn:Ha; simpl; [|done].
    destruct (maps w !! a) as [m'|] eqn:Hm'; simpl; [|done].
    f_equal. apply map_eq. intros sub. rewrite !lookup_omap.
    destruct (entries m' !! sub) as [ch|] eqn:Hch; simpl; [|done].
    apply Hout. intros sub' Hsub'.
    destruct (Hapart _ _ _ _ _ _ _ Hm' Hch Hmap Hsub') as [-> _].
    apply Hother. symmetry. by eapply Hown.
Qed.

(** X21. The goroutine of [CreateComment], once started and left alone by
    the other goroutines, comes to its end, and by then it has offered the
    comment exactly once to each subscriber the post has: the channel of
    each is what [select { case ch <- c: default: }] makes of it, every
    other channel and everything else that is shared is as before.  The
    registry is then what [graph.notify] makes of the registry before. *)
Theorem notification_left_alone
    (w : World S) (n : nat) (c : Comment.t) (postSubs : addr) (m : gomap addr) :
  goroutines w !! n = Some (notify_range c postSubs) →
  entries (subs w) !! Comment.PostID c = Some postSubs →
  maps w !! postSubs = Some m →
  writing m = false →
  sound w →
  ∃ steps w',
    run (replicate steps (Run n)) w = Step w'
    ∧ goroutines w' !! n = Some notify_done
    ∧ store w' = store w ∧ mu w' = mu w ∧ subs w' = subs w ∧ maps w' = maps w
    ∧ (∀ sub ch, entries m !! sub = Some ch →
         ∃ q, chans w !! ch = Some q ∧ chans w' !! ch = Some (try_send c q))
    ∧ (∀ ch, (∀ sub, entries m !! sub ≠ Some ch) → chans w' !! ch = chans w !! ch)
    ∧ observer w' = notify (observer w) c.
Proof.
  intros Hg Hpost Hmap Hm Hsound.
  destruct (notify_range_run_observer w n c postSubs m Hg Hpost Hmap Hm Hsound)
    as (steps & w' & Hrun & Hgs & Hst & Hmu & Hsubs & Hmaps & Hin & Hout & Hobserver).
  exists steps, w'. split_and!; try done.
  - rewrite Hgs. apply list_lookup_insert_eq. by eapply lookup_lt_Some.
  - intros sub ch Hsub.
    destruct (sound_chan w Hsound _ _ _ _ Hmap Hsub) as [q Hq].
    exists q. split; [done|]. by rewrite (Hin _ _ Hsub), Hq.
Qed.

(** X22. The mutation left alone: from a world in which nobody holds the
    mutex for writing and no map is being written, there is a run of the
    mutation and then of its notification, with no step of another
    goroutine in between, that brings the mutation to its return; the
    store, the registry and the result are then those of
    [graph.CreateComment]. *)
Theorem CreateComment_left_alone
    (w : World S) (i : nat) (input : NewComment) (uuid : string) (now : Time) :
  goroutines w !! i = Some (CreateComment_store input uuid now) →
  writer (mu w) = false →
  writing (server.subs w) = false →
  Forall (λ m, writing m = false) (maps w) →
  sound w →
  ∃ schedule w',
    run schedule w = Step w'
    ∧ Forall (λ e, e = Run i ∨ e = Run (length (goroutines w))) schedule
    ∧ (store w', observer w') = (graph.CreateComment (store w) (observer w) input uuid now).1
    ∧ goroutines w' !! i
      = Some (CreateComment_returned
                (graph.CreateComment (store w) (observer w) input uuid now).2).
Proof.
  intros Hg Hmu Hsubs Hmaps [Hmap Hown Hchans Hapart].
  assert (i < length (goroutines w))%nat as Hi by by eapply lookup_lt_Some.
  unfold graph.CreateComment.
  destruct (storage.CreateComment (store w) _ uuid now) as [st r] eqn:Hstore.
  set (w1 := set_store st w).
  destruct r as [c|e|].
  2:{ exists [Run i], (goto i (CreateComment_returned (Err e)) w1). split_and!.
      - simpl. rewrite Hg. simpl. by rewrite Hstore.
      - by repeat constructor.
      - done.
      - simpl. by apply list_lookup_insert_eq. }
  2:{ exists [Run i], (goto i (CreateComment_returned Panic) w1). split_and!.
      - simpl. rewrite Hg. simpl. by rewrite Hstore.
      - by repeat constructor.
      - done.
      - simpl. by apply list_lookup_insert_eq. }
  assert (graph.subs (observer w) !! Comment.PostID c
          = entries (server.subs w) !! Comment.PostID c
            ≫= λ postSubs, m ← maps w !! postSubs;
                           Some (omap (λ ch, chans w !! ch) (entries m))) as Hlookup.
  { unfold observer. simpl. apply lookup_omap. }
  destruct (entries (server.subs w) !! Comment.PostID c) as [postSubs|] eqn:Hpost.
  - destruct (Hmap _ _ Hpost) as [m Hm].
    pose proof (proj1 (Forall_lookup _ _) Hmaps _ _ Hm) as Hflag.
    set (w6 := mkWorld st (mkMutex (Nat.pred (Datatypes.S (readers (mu w)))) false)
                 (server.subs w) (maps w) (chans w)
                 (<[i := CreateComment_returned (Ok c)]> (goroutines w)
                  ++ [notify_range c postSubs])).
    assert (run (replicate 6 (Run i)) w = Step w6) as Hmutation.
    { unfold w6. clear w6 w1 Hlookup. destruct w as [st0 mu0 subs0 maps0 chans0 gs].
      simpl in * |-. destruct mu0 as [r0 wr0]. simpl in * |-. subst wr0.
      cbn [replicate].
      run_step ltac:(rewrite Hg; simpl; rewrite Hstore).
      run_step ltac:(rewrite list_lookup_insert_eq by done).
      run_step ltac:(rewrite list_insert_insert_eq, list_lookup_insert_eq by done;
                     world_simpl; rewrite Hsubs, Hpost).
      run_step ltac:(rewrite list_insert_insert_eq, list_lookup_insert_eq by done).
      run_step ltac:(rewrite insert_app_l by (by rewrite length_insert);
                     rewrite list_insert_insert_eq;
                     rewrite lookup_app_l by (by rewrite length_insert);
                     rewrite list_lookup_insert_eq by done).
      run_step ltac:(rewrite insert_app_l by (by rewrite length_insert);
                     rewrite list_insert_insert_eq;
                     rewrite lookup_app_l by (by rewrite length_insert);
                     rewrite list_lookup_insert_eq by done).
      simpl. rewrite insert_app_l by (by rewrite length_insert).
      by rewrite list_insert_insert_eq. }
    assert (goroutines w6 !! length (goroutines w) = Some (notify_range c postSubs))
      as Hnotifier.
    { unfold w6. simpl.
      rewrite <- (length_insert (goroutines w) i (CreateComment_returned (Ok c))).
      apply lookup_snoc. }
    destruct (notify_range_run_observer w6 (length (goroutines w)) c postSubs m
                Hnotifier Hpost Hm Hflag (mkSound w6 Hmap Hown Hchans Hapart))
      as (steps & w' & Hrun & Hgs & Hst & _ & _ & _ & _ & _ & Hobserver).
    exists (replicate 6 (Run i) ++ replicate steps (Run (length (goroutines w)))), w'.
    split_and!.
    + by rewrite run_app, Hmutation.
    + apply Forall_app. split; apply Forall_forall; intros e He;
        apply elem_of_replicate in He as [-> _]; auto.
    + rewrite Hobserver, Hst. done.
    + rewrite Hgs. unfold w6. simpl.
      rewrite list_lookup_insert_ne by lia.
      rewrite lookup_app_l by by rewrite length_insert.
      by apply list_lookup_insert_eq.
  - exists (replicate 5 (Run i)),
      (mkWorld st (mkMutex (Nat.pred (Datatypes.S (readers (mu w)))) false)
         (server.subs w) (maps w) (chans w)
         (<[i := CreateComment_returned (Ok c)]> (goroutines w))).
    split_and!.
    + clear w1 Hlookup. destruct w as [st0 mu0 subs0 maps0 chans0 gs].
      simpl in * |-. destruct mu0 as [r0 wr0]. simpl in * |-. subst wr0.
      cbn [replicate].
      run_step ltac:(rewrite Hg; simpl; rewrite Hstore).
      run_step ltac:(rewrite list_lookup_insert_eq by done).
      run_step ltac:(rewrite list_insert_insert_eq, list_lookup_insert_eq by done;
                     world_simpl; rewrite Hsubs, Hpost).
      run_step ltac:(rewrite list_insert_insert_eq, list_lookup_insert_eq by done).
      run_step ltac:(rewrite list_insert_insert_eq, list_lookup_insert_eq by done).
      simpl. by rewrite list_insert_insert_eq.
    + apply Forall_forall. intros e He. apply elem_of_replicate in He as [-> _]. auto.
    + unfold notify. rewrite Hlookup. simpl. done.
    + simpl. by apply list_lookup_insert_eq.
Qed.

End NotificationLoop.

(** ** The batch function of the dataloader *)

Section Dataloader.
Import storage inmemory postgres.
Context `{!Sorter}.

(** X20. Over the in-memory store, the batch function of the dataloader
    returns one result for each key, in the order of the keys (a key that
    occurs twice gets two results), each without error and with the
    children of its key in creation-time order.  Over the database store a
    key that no comment names as its parent gets the empty list, although
    the store's map has no entry for it. *)
Theorem batchFn_results (keys : list string) :
  (∀ s : inmemory.Store,
     ∃ results,
       dataloader.batchFn s keys = Ok results
       ∧ length results = length keys
       ∧ ∀ i key, keys !! i = Some key →
           results !! i
           = Some (dataloader.mkResult (Some (child_comments s key)) None))
  ∧ (∀ s : postgres.Store,
       ∃ results,
         dataloader.batchFn s keys = Ok results
         ∧ length results = length keys
         ∧ ∀ i key, keys !! i = Some key →
             (∀ c, c ∈ postgres.comments s → Comment.ParentID c ≠ Some key) →
             results !! i = Some (dataloader.mkResult (Some []) None)).
Proof.
  split; intros s.
  - unfold dataloader.batchFn, storage.GetCommentsByParentIDs,
      inmemory.Store_Storage, inmemory.GetCommentsByParentIDs.
    eexists. split; [reflexivity|]. split; [by rewrite length_fmap|].
    intros i key Hkey. rewrite list_lookup_fmap, Hkey. simpl.
    rewrite batch_lookup.
    rewrite decide_True by (by eapply list_elem_of_lookup_2). done.
  - unfold dataloader.batchFn, storage.GetCommentsByParentIDs,
      postgres.Store_Storage.
    eexists. split; [reflexivity|]. split; [by rewrite length_fmap|].
    intros i key Hkey Hnone. rewrite list_lookup_fmap, Hkey. simpl.
    destruct (postgres_batch_no_entry_without_children s keys key Hnone)
      as (m & Hm & Hlookup).
    injection Hm as <-. by rewrite Hlookup.
Qed.

End Dataloader.

(** ** The further properties on concrete states *)

Section FurtherExamples.
Import storage inmemory postgres examples.

Definition reply_comment : Comment.t :=
  Comment.mk id_r P (Some id_b) "user-2" "reply" (noon + 30).

Lemma stored_comments_well_formed_witness :
  Comment.ID reply_comment = id_r
  ∧ (∃ post, inmemory.GetPostByID with_reply P = Ok post ∧ Post.ID post = P)
  ∧ (∀ parentID, Some id_b = Some parentID →
       ∃ parent, inmemory.GetCommentByID with_reply parentID = Ok parent
                 ∧ Comment.ID parent = parentID)
  ∧ strlen "reply" ≤ 2000
  ∧ TrimSpace "reply" ≠ "".
Proof.
  apply (stored_comments_well_formed with_reply id_r reply_comment).
  - apply with_reply_reachable.
  - vm_compute. reflexivity.
Defined.

Lemma listings_hold_exactly_the_siblings_witness :
  (∃ roots, inmemory.GetCommentsByPostID same_instant P (mkArgs 10 None) = Ok roots
     ∧ ∀ c, c ∈ roots
            ↔ inmemory.comments same_instant !! Comment.ID c = Some c
              ∧ Comment.PostID c = P ∧ Comment.ParentID c = None)
  ∧ (∃ children,
       inmemory.GetCommentsByParentID same_instant P (mkArgs 10 None) = Ok children
       ∧ ∀ c, c ∈ children
              ↔ inmemory.comments same_instant !! Comment.ID c = Some c
                ∧ Comment.ParentID c = Some P).
Proof.
  apply (listings_hold_exactly_the_siblings same_instant P 10).
  - apply same_instant_reachable.
  - vm_compute. discriminate.
  - vm_compute. discriminate.
  - lia.
Defined.

Lemma Parent_of_stored_comment_witness :
  ∃ parent, graph.Parent with_reply reply_comment = Ok (Some parent)
            ∧ Comment.ID parent = id_b
            ∧ inmemory.comments with_reply !! id_b = Some parent
            ∧ ∀ args children,
                inmemory.GetCommentsByParentID with_reply id_b args = Ok children →
                ∀ child, child ∈ children →
                  graph.Parent with_reply child = Ok (Some parent).
Proof.
  apply (Parent_of_stored_comment with_reply id_r reply_comment).
  - apply with_reply_reachable.
  - vm_compute. reflexivity.
Defined.

Lemma CreateComment_round_trip_witness :
  inmemory.GetCommentByID
    (inmemory.CreateComment one_post (draft P None "first") id_b (noon + 20)).1 id_b
  = Ok first_comment.
Proof.
  apply (CreateComment_round_trip one_post (draft P None "first") id_b (noon + 20)
           first_comment);
    vm_compute; reflexivity.
Defined.

Lemma CreateComment_then_listed_witness :
  root_comments
    (inmemory.CreateComment one_post (draft P None "first") id_b (noon + 20)).1 P
  ≡ₚ root_comments one_post P ++ [first_comment].
Proof.
  apply (CreateComment_then_listed one_post (draft P None "first") id_b (noon + 20)
           first_comment).
  - apply one_post_reachable.
  - vm_compute. reflexivity.
  - vm_compute. reflexivity.
Defined.

Lemma created_post_accepts_comments_witness :
  ∃ post c,
    (graph.CreatePost inmemory.New (model.NewPost.mk "Test Post" "Content" "user-1")
       P noon).2 = Ok post
    ∧ post = post_P
    ∧ inmemory.GetPostByID
        (graph.CreatePost inmemory.New
           (model.NewPost.mk "Test Post" "Content" "user-1") P noon).1 P = Ok post
    ∧ (inmemory.CreateComment
         (graph.CreatePost inmemory.New
            (model.NewPost.mk "Test Post" "Content" "user-1") P noon).1
         (draft P None "first") id_b (noon + 20)).2 = Ok c.
Proof.
  apply (created_post_accepts_comments inmemory.New
           (model.NewPost.mk "Test Post" "Content" "user-1") P noon
           (draft P None "first") id_b (noon + 20)).
  - reflexivity.
  - reflexivity.
  - vm_compute. discriminate.
  - vm_compute. discriminate.
Defined.

Lemma ToggleComments_gates_comments_witness :
  failure (inmemory.CreateComment (graph.ToggleComments one_post P false).1
             (draft P None "first") id_b (noon + 20)).2
  = Some CommentsDisabled
  ∧ ∃ c, (inmemory.CreateComment
            (graph.ToggleComments (graph.ToggleComments one_post P false).1 P true).1
            (draft P None "first") id_b (noon + 20)).2 = Ok c.
Proof.
  destruct (proj2 (ToggleComments_gates_comments one_post P) post_P eq_refl)
    as (_ & Hoff & Hon).
  split.
  - apply Hoff. reflexivity.
  - apply Hon; [reflexivity|reflexivity|vm_compute; discriminate|vm_compute; discriminate].
Defined.

Lemma walking_pages_reads_every_sibling_witness :
  walk_pages 3 (graph.Comments same_instant post_P (Some 1)) None
  = Ok (root_comments same_instant P).
Proof.
  apply (proj1 (walking_pages_reads_every_sibling same_instant post_P first_comment 1 3
                  same_instant_reachable ltac:(lia) ltac:(unfold GraphQLInt; lia)
                  ltac:(vm_compute; discriminate) ltac:(vm_compute; discriminate))).
  vm_compute. lia.
Defined.

Lemma GetPosts_window_witness :
  ∃ page,
    inmemory.GetPosts one_post 10 0 = Ok page
    ∧ len page = Z.min 10 (Z.max 0 (Z.of_nat (size (inmemory.posts one_post)) - 0))
    ∧ StronglySorted created_ge page
    ∧ ∀ p, p ∈ page → ∃ id, inmemory.posts one_post !! id = Some p.
Proof.
  apply (GetPosts_window one_post 10 0); [lia|lia|unfold int_max; lia].
Defined.

Lemma GetPosts_negative_panics_witness :
  inmemory.GetPosts one_post 10 (-1) = Panic
  ∧ inmemory.GetPosts one_post (-2) 0 = Panic.
Proof.
  split.
  - apply (proj1 (GetPosts_negative_panics one_post 10 (-1))). lia.
  - apply (proj2 (GetPosts_negative_panics one_post (-2) 0));
      [lia|vm_compute; reflexivity|unfold int_max; lia|unfold int_min; lia|lia].
Defined.

(** A post identifier that is no uuid: the database store hands on the
    driver's error, the in-memory store answers that there is no such
    post. *)
Lemma CreateComment_identifier_no_uuid :
  (postgres.CreateComment pg_two_posts (draft "non-existent-id" None "hello") id_a
     (noon + 20)).2
  = Err (invalid_uuid "non-existent-id")
  ∧ (postgres.CreateComment pg_two_posts (draft P (Some "non-existent-id") "hello") id_a
       (noon + 20)).2
    = Err (invalid_uuid "non-existent-id")
  ∧ (inmemory.CreateComment one_post (draft "non-existent-id" None "hello") id_a
       (noon + 20)).2
    = Err "post not found".
Proof. split_and!; vm_compute; reflexivity. Qed.

Lemma postgres_CreateComment_order_witness :
  (postgres.CreateComment pg_two_posts (draft "non-existent-id" None "hello") id_a
     (noon + 20)).1
  = pg_two_posts.
Proof.
  apply (proj2 (postgres_CreateComment_order pg_two_posts
                  (draft "non-existent-id" None "hello") id_a (noon + 20))
           (invalid_uuid "non-existent-id")).
  vm_compute. reflexivity.
Defined.



Lemma postgres_GetPosts_window_witness :
  postgres.GetPosts pg_two_posts 10 (-3) = postgres.GetPosts pg_two_posts 10 0.
Proof. apply (proj1 (postgres_GetPosts_window pg_two_posts 10 (-3))). lia. Defined.

Lemma Children_page_shape_witness :
  ∃ page,
    graph.Children with_reply first_comment (Some 1) None = Ok page
    ∧ model.Node <$> model.Edges page = take 1 [reply_comment]
    ∧ Forall (λ e, model.Cursor e = Comment.ID (model.Node e)) (model.Edges page)
    ∧ (model.PageInfo.HasNextPage (model.PageInfo page) = true
       ↔ 1 < len [reply_comment])
    ∧ model.PageInfo.EndCursor (model.PageInfo page)
      = model.Cursor <$> last (model.Edges page)
    ∧ (model.PageInfo.EndCursor (model.PageInfo page) = None
       ↔ model.Edges page = []).
Proof.
  apply (Children_page_shape with_reply first_comment (Some 1) None [reply_comment]).
  - simpl. lia.
  - vm_compute. reflexivity.
Defined.

Lemma listing_resolvers_never_hide_failure_witness :
  (∀ page, graph.Children with_reply first_comment (Some (-1)) None ≠ Ok page)
  ∧ (∀ page, graph.Comments with_reply post_P (Some (-1)) None ≠ Ok page).
Proof.
  apply (proj1 (listing_resolvers_never_hide_failure with_reply first_comment post_P
                  (-1) None)).
  lia.
Defined.

Lemma registry_stays_tidy_witness :
  (∀ postID subID,
     registry_ok (graph.CommentAdded one_post graph.NewCommentObserver postID subID).1)
  ∧ (∀ postID subID, registry_ok (graph.cleanup graph.NewCommentObserver postID subID))
  ∧ (∀ c, registry_ok (graph.notify graph.NewCommentObserver c)).
Proof.
  apply (proj1 (proj2 (registry_stays_tidy one_post graph.NewCommentObserver))).
  apply registry_ok_New.
Defined.

Lemma subscribe_notify_cleanup_witness :
  graph.subs
    (graph.notify (graph.CommentAdded one_post graph.NewCommentObserver P sub_1).1
       first_comment) !! P ≫= lookup sub_1
  = Some (graph.mkChan 1 [first_comment])
  ∧ graph.cleanup (graph.CommentAdded one_post graph.NewCommentObserver P sub_1).1
      P sub_1
    = graph.NewCommentObserver.
Proof.
  destruct (proj1 (subscribe_notify_cleanup one_post graph.NewCommentObserver P sub_1)
              post_P)
    as (_ & _ & Hnotify & Hcleanup).
  - vm_compute. reflexivity.
  - apply registry_ok_New.
  - reflexivity.
  - split; [|exact Hcleanup].
    apply (Hnotify first_comment first_comment); reflexivity.
Defined.

(** [announcing] is where the server gets to from [subscribed] when the
    mutation runs to its return. *)
Lemma subscribed_announcing :
  server.run (replicate 6 (server.Run 0)) subscribed = server.Step announcing.
Proof. vm_compute. reflexivity. Qed.

Lemma subscribed_sound : sound subscribed.
Proof.
  assert (∀ (postSubs : nat) (m : server.gomap nat) (sub : string) (ch : nat),
            server.maps subscribed !! postSubs = Some m →
            server.entries m !! sub = Some ch →
            postSubs = 0%nat ∧ sub = sub_1 ∧ ch = 0%nat) as Honly.
  { intros postSubs m sub ch Hm Hsub. destruct postSubs as [|[|?]]; try done.
    simpl in Hm. injection Hm as <-. simpl in Hsub.
    by apply lookup_singleton_Some in Hsub as [<- <-]. }
  split.
  - intros postID postSubs Hpost. simpl in Hpost.
    apply lookup_singleton_Some in Hpost as [_ <-]. by eexists.
  - intros postID1 postID2 postSubs Hpost1 Hpost2. simpl in Hpost1, Hpost2.
    apply lookup_singleton_Some in Hpost1 as [<- _].
    by apply lookup_singleton_Some in Hpost2 as [<- _].
  - intros postSubs m sub ch Hm Hsub.
    destruct (Honly _ _ _ _ Hm Hsub) as (_ & _ & ->). by eexists.
  - intros postSubs1 m1 sub1 postSubs2 m2 sub2 ch Hm1 Hsub1 Hm2 Hsub2.
    destruct (Honly _ _ _ _ Hm1 Hsub1) as (-> & -> & _).
    by destruct (Honly _ _ _ _ Hm2 Hsub2) as (-> & -> & _).
Qed.

Lemma CreateComment_left_alone_witness :
  ∃ schedule w,
    server.run schedule subscribed = server.Step w
    ∧ Forall (λ e, e = server.Run 0 ∨ e = server.Run 4) schedule
    ∧ (server.store w, server.observer w)
      = (graph.CreateComment one_post (server.observer subscribed)
           (model.mkNewComment P None "user-2" "first") id_b (noon + 20)).1
    ∧ server.goroutines w !! 0%nat
      = Some (server.CreateComment_returned
                (graph.CreateComment one_post (server.observer subscribed)
                   (model.mkNewComment P None "user-2" "first") id_b (noon + 20)).2).
Proof.
  apply (CreateComment_left_alone subscribed 0
           (model.mkNewComment P None "user-2" "first") id_b (noon + 20)).
  - reflexivity.
  - reflexivity.
  - reflexivity.
  - by repeat constructor.
  - apply subscribed_sound.
Defined.

(** What that run leaves: the comment in the channel of the subscriber, and
    returned. *)
Lemma CreateComment_left_alone_example :
  let '(st, o, r) :=
    graph.CreateComment one_post (server.observer subscribed)
      (model.mkNewComment P None "user-2" "first") id_b (noon + 20) in
  r = Ok first_comment
  ∧ graph.buf <$> (graph.subs o !! P ≫= lookup sub_1) = Some [first_comment].
Proof. vm_compute. split; reflexivity. Qed.

Lemma notification_left_alone_witness :
  ∃ steps w,
    server.run (replicate steps (server.Run 4)) announcing = server.Step w
    ∧ server.goroutines w !! 4%nat = Some server.notify_done
    ∧ server.chans w !! 0%nat = Some (graph.mkChan 1 [first_comment])
    ∧ server.observer w = graph.notify (server.observer announcing) first_comment.
Proof.
  destruct (notification_left_alone announcing 4 first_comment 0
              (server.mkMap {[ sub_1 := 0%nat ]} false))
    as (steps & w & Hrun & Hgoroutines & _ & _ & _ & _ & Hin & _ & Hobserver).
  - reflexivity.
  - reflexivity.
  - reflexivity.
  - reflexivity.
  - by apply (sound_same_registry subscribed), subscribed_sound.
  - exists steps, w. split_and!; [exact Hrun|exact Hgoroutines| |exact Hobserver].
    destruct (Hin sub_1 0%nat) as (q & Hq & ->); [apply lookup_singleton_eq|].
    injection Hq as <-. reflexivity.
Defined.

Lemma batchFn_results_witness :
  ∃ results,
    dataloader.batchFn with_reply [id_b; id_b] = Ok results
    ∧ length results = 2%nat
    ∧ results !! 1%nat
      = Some (dataloader.mkResult (Some (child_comments with_reply id_b)) None).
Proof.
  destruct (proj1 (batchFn_results [id_b; id_b]) with_reply)
    as (results & Hresults & Hlength & Hlookup).
  exists results. split_and!; [done|done|]. by apply Hlookup.
Defined.

End FurtherExamples.
